(** * Multisweeper: the grid engine, embedded and verified

    The repository holds two copies of the grid engine:
    - the backend copy (gameLogic.js, used by the Express handlers
      [/start-game] and [/reveal]): Fisher-Yates placement that spares the
      clicked cell, adjacency counting that leaves mined cells alone, and a
      flood reveal whose visited set is a [Set] of strings;
    - the client copy (multisweeper.ts): rejection-sampling placement that
      spares the clicked cell and its neighbours, adjacency counting that
      writes the sentinel -1 into mined cells, and a flood reveal whose
      visited set is a boolean matrix;
    and the client screen (app/index.tsx) holds [checkWin].

    JavaScript arrays are lists; [grid[r][c]] on a missing row or cell is
    [None] and dereferencing it raises; in-place mutation is explicit state
    passing, and an exception carries the grid as it was when it was raised.
    The [/reveal] handler is modelled over a store of cell objects, because
    what it promises is about aliasing.

    The second part of the definitions covers the rest of the code: the
    [/start-game] handler, the press handlers of the screen with chording,
    and the account handlers of the server. *)

From Stdlib Require Import ZArith QArith Qround Lia.
From stdpp Require Import base option list gmap strings.

Close Scope Q_scope.
Local Open Scope Z_scope.

(** ** Data model *)

Record Cell := mkCell {
  hasMine : bool;
  adjacentMines : Z;
  revealed : bool;
  flagged : bool
}.

Abbreviation Grid := (list (list Cell)).

#[global] Instance Cell_eq_dec : EqDecision Cell.
Proof. solve_decision. Defined.

(** Field assignments [cell.f = v]. *)
Definition setHasMine (b : bool) (x : Cell) : Cell :=
  mkCell b (adjacentMines x) (revealed x) (flagged x).
Definition setAdjacentMines (n : Z) (x : Cell) : Cell :=
  mkCell (hasMine x) n (revealed x) (flagged x).
Definition setRevealed (b : bool) (x : Cell) : Cell :=
  mkCell (hasMine x) (adjacentMines x) b (flagged x).

(** The result of running a statement that mutates a state [S]: it
    completes with a value, raises (the state as mutated so far is what the
    caller is left with), or is still running when the fuel is spent. *)
Inductive outcome (S A : Type) : Type :=
  | Done (a : A)
  | Threw (s : S)
  | OutOfFuel.
Arguments Done {S A} a.
Arguments Threw {S A} s.
Arguments OutOfFuel {S A}.

(** [arr[i]] for an integer [i]: [undefined] outside the array. *)
Definition idx {A} (l : list A) (i : Z) : option A :=
  if bool_decide (0 ≤ i) then l !! Z.to_nat i else None.

(** [grid[r][c]]; [None] when [grid[r]] or the cell is [undefined]. *)
Definition getCell (g : Grid) (r c : Z) : option Cell :=
  row ← idx g r; idx row c.

(** The grid after the field update [f] of the cell object [grid[r][c]],
    for a cell that is there. *)
Definition updCell (f : Cell → Cell) (g : Grid) (r c : Z) : Grid :=
  alter (alter f (Z.to_nat c)) (Z.to_nat r) g.

(** [grid[r][c].f = v], written as the field update [f] of the cell;
    raises when [grid[r][c]] is not a cell. *)
Definition modCell (f : Cell → Cell) (g : Grid) (r c : Z) : option Grid :=
  match getCell g r c with
  | Some _ => Some (updCell f g r c)
  | None => None
  end.

(** [grid[r][c].revealed = true], which both copies of the flood run only
    after their guard has read the cell. *)
Definition markRevealed (g : Grid) (r c : Z) : Grid :=
  updCell (setRevealed true) g r c.

(** [grid.length] and [grid[0].length] (the latter raises on [[]]). *)
Definition numRowsOf (g : Grid) : Z := Z.of_nat (length g).
Definition numColsOf (g : Grid) : option Z :=
  row0 ← g !! 0%nat; Some (Z.of_nat (length row0)).

(** [nr >= 0 && nr < rows && nc >= 0 && nc < cols] *)
Definition inBounds (rows cols r c : Z) : bool :=
  (0 <=? r) && (r <? rows) && (0 <=? c) && (c <? cols).

(** The eight offsets of the Moore neighbourhood, in the order of the
    source's [directions] literal. *)
Definition directions : list (Z * Z) :=
  [(-1, -1); (-1, 0); (-1, 1);
   (0, -1);           (0, 1);
   (1, -1);  (1, 0);  (1, 1)].

(** [Array.from({ length }, mapFn)] for a [mapFn] that ignores its
    arguments: [length] elements, each what a call of [mapFn] returns.  A
    length of 2^32 or more raises [RangeError], an array cannot be that
    long, before [mapFn] is called; a length of zero or less gives the
    empty array without calling it.  [None] is the raise, of [Array.from]
    or of [mapFn]. *)
Definition Array_from {A} (len : Z) (mapFn : option A) : option (list A) :=
  if 2 ^ 32 <=? len then None
  else
    match Z.to_nat len with
    | O => Some []
    | S n => x ← mapFn; Some (replicate (S n) x)
    end.

(** A [for] loop over a list of indices whose body mutates the grid and
    may raise. *)
Fixpoint forEach {I S : Type} (body : I → S → outcome S S) (items : list I) (s : S)
  : outcome S S :=
  match items with
  | [] => Done s
  | i :: rest =>
      match body i s with
      | Done s' => forEach body rest s'
      | Threw s' => Threw s'
      | OutOfFuel => OutOfFuel
      end
  end.

(** The inner loop of [countAdjacentMines]: the number of offsets whose
    target is in bounds and mined.  [None] when [grid[nr][nc]] is
    [undefined] although in bounds (a ragged grid). *)
Fixpoint countAround (g : Grid) (rows cols r c : Z) (ds : list (Z * Z)) (count : Z)
  : option Z :=
  match ds with
  | [] => Some count
  | (dr, dc) :: ds' =>
      let nr := r + dr in
      let nc := c + dc in
      if inBounds rows cols nr nc then
        match getCell g nr nc with
        | None => None
        | Some n =>
            if hasMine n then countAround g rows cols r c ds' (count + 1)
            else countAround g rows cols r c ds' count
        end
      else countAround g rows cols r c ds' count
  end.

(** ** The random source

    [Math.random()] returns a number in [0, 1).  The [k]-th call of a run
    returns [random k]; the numbers are rationals, and the product and
    [Math.floor] are exact. *)
Definition Math_floor (q : Q) : Z := Qfloor q.

Definition unitInterval (random : nat → Q) : Prop :=
  ∀ k, (0 <= random k)%Q ∧ (random k < 1)%Q.

(** [Math.floor(Math.random() * n)] at the [k]-th call. *)
Definition randomBelow (random : nat → Q) (k : nat) (n : Z) : Z :=
  Math_floor (random k * inject_Z n)%Q.

(** ** Flood reveal, over any memory

    The loop of [revealCellsDFS].  It touches the grid through two
    operations only: reading [grid[r][c]] and the assignment
    [grid[r][c].revealed = true]; [M] is what these act on (a grid value, or
    a store of cell objects).  [test] is the guard of the iteration:
    [Some true] to go on with the cell, [Some false] for [continue], [None]
    when evaluating it raises.  The stack is a list whose head is the top;
    the visited set holds coordinates. *)
Section Flood.
Context {M : Type}.
Variable cellAt : M → Z → Z → option Cell.
Variable reveal : M → Z → Z → M.
Variable test : M → gset (Z * Z) → Z → Z → option bool.

Inductive floodStepResult : Type :=
  | Continue (m : M) (stack : list (Z * Z)) (visited : gset (Z * Z))
  | Halt (m : M)
  | Raise (m : M).

(** [for (const [dr, dc] of directions) stack.push([r + dr, c + dc])] *)
Definition pushNeighbours (r c : Z) (stack : list (Z * Z)) : list (Z * Z) :=
  foldl (λ st d, (r + d.1, c + d.2) :: st) stack directions.

(** One test of the [while] condition and one run of its body. *)
Definition floodStep (m : M) (stack : list (Z * Z)) (visited : gset (Z * Z))
  : floodStepResult :=
  match stack with
  | [] => Halt m
  | (r, c) :: rest =>
      match test m visited r c with
      | None => Raise m
      | Some false => Continue m rest visited
      | Some true =>
          let m' := reveal m r c in
          let visited' := {[ (r, c) ]} ∪ visited in
          match cellAt m' r c with
          | None => Raise m'
          | Some x =>
              if (adjacentMines x =? 0) && negb (hasMine x)
              then Continue m' (pushNeighbours r c rest) visited'
              else Continue m' rest visited'
          end
      end
  end.

Fixpoint floodLoop (fuel : nat) (m : M) (stack : list (Z * Z)) (visited : gset (Z * Z))
  : outcome M M :=
  match fuel with
  | O => OutOfFuel
  | S fuel' =>
      match floodStep m stack visited with
      | Halt m' => Done m'
      | Raise m' => Threw m'
      | Continue m' stack' visited' => floodLoop fuel' m' stack' visited'
      end
  end.

End Flood.

Arguments Continue {M} m stack visited.
Arguments Halt {M} m.
Arguments Raise {M} m.

(** The number of cells of a grid that satisfy [p]. *)
Definition countCells (p : Cell → bool) (g : Grid) : nat :=
  sum_list ((λ row, length (filter (λ x, p x = true) row)) <$> g).

(** The number of cells that are not revealed; each iteration of the flood
    that goes on with a cell lowers it by one, which bounds the loop. *)
Definition hiddenCells (g : Grid) : nat := countCells (λ x, negb (revealed x)) g.

Definition floodFuel (hidden : nat) : nat := (2 + 9 * hidden)%nat.

(** ** The backend engine (gameLogic.js) *)
Module Backend.

(** [None] when one of the two [Array.from] raises. *)
Definition createEmptyGrid (rows cols : Z) : option Grid :=
  Array_from rows (Array_from cols (Some (mkCell false 0 false false))).

(** The positions: every cell but the clicked one, row by row. *)
Definition positions (rows cols safeRow safeCol : Z) : list (Z * Z) :=
  r ← seqZ 0 rows;
  c ← seqZ 0 cols;
  if negb ((r =? safeRow) && (c =? safeCol)) then [(r, c)] else [].

(** [[positions[i], positions[j]] = [positions[j], positions[i]]].  Both
    indices are inside the array as long as [Math.random()] is in [0, 1);
    outside it the JavaScript would write past the array, which the model
    does not follow: it leaves the array alone. *)
Definition swap (ps : list (Z * Z)) (i j : nat) : list (Z * Z) :=
  match ps !! i, ps !! j with
  | Some a, Some b => <[j := a]> (<[i := b]> ps)
  | _, _ => ps
  end.

(** [for (let i = positions.length - 1; i > 0; i--)], entered at index [i]
    with [k] calls of [Math.random] made so far. *)
Fixpoint shuffleFrom (random : nat → Q) (i k : nat) (ps : list (Z * Z))
  : list (Z * Z) :=
  match i with
  | O => ps
  | S i' =>
      let j := randomBelow random k (Z.of_nat i + 1) in
      shuffleFrom random i' (S k) (swap ps i (Z.to_nat j))
  end.

Definition shuffle (random : nat → Q) (ps : list (Z * Z)) : list (Z * Z) :=
  shuffleFrom random (length ps - 1) 0 ps.

(** [arr.slice(0, end)]: a negative [end] counts from the back, and the
    result is clipped to the array. *)
Definition slice0 {A} (l : list A) (e : Z) : list A :=
  let len := Z.of_nat (length l) in
  let k := if e <? 0 then Z.max (len + e) 0 else Z.min e len in
  take (Z.to_nat k) l.

Definition placeMines (random : nat → Q) (g : Grid) (mineCount safeRow safeCol : Z)
  : outcome Grid Grid :=
  let rows := numRowsOf g in
  match numColsOf g with
  | None => Threw g
  | Some cols =>
      let ps := positions rows cols safeRow safeCol in
      let selected := slice0 (shuffle random ps) mineCount in
      forEach (λ p g,
                 match modCell (setHasMine true) g p.1 p.2 with
                 | Some g' => Done g'
                 | None => Threw g
                 end) selected g
  end.

Definition countCell (rows cols r c : Z) (g : Grid) : outcome Grid Grid :=
  match getCell g r c with
  | None => Threw g
  | Some x =>
      if hasMine x then Done g
      else
        match countAround g rows cols r c directions 0 with
        | None => Threw g
        | Some count =>
            match modCell (setAdjacentMines count) g r c with
            | Some g' => Done g'
            | None => Threw g
            end
        end
  end.

Definition countAdjacentMines (g : Grid) : outcome Grid Grid :=
  let rows := numRowsOf g in
  match numColsOf g with
  | None => Threw g
  | Some cols =>
      forEach (λ r, forEach (countCell rows cols r) (seqZ 0 cols)) (seqZ 0 rows) g
  end.

(** [isSafe(r, c)]: bounds, then [!grid[r][c].revealed], then
    [!visited.has(key)]. *)
Definition isSafe (rows cols : Z) (g : Grid) (visited : gset (Z * Z)) (r c : Z)
  : option bool :=
  if inBounds rows cols r c then
    match getCell g r c with
    | None => None
    | Some x => Some (negb (revealed x) && negb (bool_decide ((r, c) ∈ visited)))
    end
  else Some false.

Definition revealCellsDFS (g : Grid) (row col : Z) : outcome Grid Grid :=
  let rows := numRowsOf g in
  match numColsOf g with
  | None => Threw g
  | Some cols =>
      floodLoop getCell markRevealed (isSafe rows cols)
        (floodFuel (hiddenCells g)) g [(row, col)] ∅
  end.

End Backend.

(** ** The client engine (multisweeper.ts) *)
Module Client.

(** [None] when one of the two [Array.from] raises. *)
Definition createEmptyGrid (rows cols : Z) : option Grid :=
  Array_from rows (Array_from cols (Some (mkCell false 0 false false))).

(** The nine offsets of [placeMines]: the eight neighbours and the cell
    itself. *)
Definition directions9 : list (Z * Z) :=
  [(-1, -1); (-1, 0); (-1, 1);
   (0, -1);  (0, 0);  (0, 1);
   (1, -1);  (1, 0);  (1, 1)].

(** The forbidden set: the clicked cell and its neighbours, clipped to
    the grid.  The keys ["r,c"] of the source are the coordinates. *)
Definition forbidden (numRows numCols excludeRow excludeCol : Z) : gset (Z * Z) :=
  foldl (λ s d,
           let r := excludeRow + d.1 in
           let c := excludeCol + d.2 in
           if inBounds numRows numCols r c then {[ (r, c) ]} ∪ s else s)
        ∅ directions9.

(** [while (placed < mineCount)], with [k] calls of [Math.random] made so
    far.  Nothing bounds the number of iterations, hence the fuel. *)
Fixpoint placeLoop (random : nat → Q) (numRows numCols : Z) (forb : gset (Z * Z))
    (mineCount : Z) (fuel k : nat) (placed : Z) (g : Grid) : outcome Grid Grid :=
  match fuel with
  | O => OutOfFuel
  | S fuel' =>
      if placed <? mineCount then
        let row := randomBelow random k numRows in
        let col := randomBelow random (S k) numCols in
        if bool_decide ((row, col) ∈ forb) then
          placeLoop random numRows numCols forb mineCount fuel' (S (S k)) placed g
        else
          match getCell g row col with
          | None => Threw g
          | Some x =>
              if hasMine x then
                placeLoop random numRows numCols forb mineCount fuel' (S (S k)) placed g
              else
                match modCell (setHasMine true) g row col with
                | None => Threw g
                | Some g' =>
                    placeLoop random numRows numCols forb mineCount fuel' (S (S k))
                      (placed + 1) g'
                end
          end
      else Done g
  end.

Definition placeMines (fuel : nat) (random : nat → Q) (g : Grid)
    (mineCount excludeRow excludeCol : Z) : outcome Grid Grid :=
  let numRows := numRowsOf g in
  match numColsOf g with
  | None => Threw g
  | Some numCols =>
      placeLoop random numRows numCols
        (forbidden numRows numCols excludeRow excludeCol) mineCount fuel 0 0 g
  end.

Definition countCell (numRows numCols row col : Z) (g : Grid) : outcome Grid Grid :=
  match getCell g row col with
  | None => Threw g
  | Some x =>
      if hasMine x then
        match modCell (setAdjacentMines (-1)) g row col with
        | Some g' => Done g'
        | None => Threw g
        end
      else
        match countAround g numRows numCols row col directions 0 with
        | None => Threw g
        | Some count =>
            match modCell (setAdjacentMines count) g row col with
            | Some g' => Done g'
            | None => Threw g
            end
        end
  end.

Definition countAdjacentMines (g : Grid) : outcome Grid Grid :=
  let numRows := numRowsOf g in
  match numColsOf g with
  | None => Threw g
  | Some numCols =>
      forEach (λ row, forEach (countCell numRows numCols row) (seqZ 0 numCols))
        (seqZ 0 numRows) g
  end.

(** The guard of the loop, negated: bounds, then [visited[r][c]], then
    [grid[r][c].revealed].  The matrix [visited] has [numRows * numCols]
    entries and is written at coordinates in bounds only; it is the set of
    the coordinates it holds [true] at. *)
Definition mayVisit (numRows numCols : Z) (g : Grid) (visited : gset (Z * Z)) (r c : Z)
  : option bool :=
  if inBounds numRows numCols r c then
    if bool_decide ((r, c) ∈ visited) then Some false
    else
      match getCell g r c with
      | None => None
      | Some x => Some (negb (revealed x))
      end
  else Some false.

Definition revealCellsDFS (g : Grid) (row col : Z) : outcome Grid Grid :=
  let numRows := numRowsOf g in
  match numColsOf g with
  | None => Threw g
  | Some numCols =>
      floodLoop getCell markRevealed (mayVisit numRows numCols)
        (floodFuel (hiddenCells g)) g [(row, col)] ∅
  end.

End Client.

(** ** The client screen (app/index.tsx) *)
Module App.

(** The inner loop of [checkWin] on one row: [Some false] when it
    returned false, [Some true] when the row passed, [None] when
    [grid[row][col]] is [undefined]. *)
Fixpoint checkRow (g : Grid) (row : Z) (cols : list Z) : option bool :=
  match cols with
  | [] => Some true
  | col :: cols' =>
      match getCell g row col with
      | None => None
      | Some x =>
          if negb (hasMine x) && negb (revealed x) then Some false
          else checkRow g row cols'
      end
  end.

Fixpoint checkRows (g : Grid) (cols : list Z) (rows : list Z) : option bool :=
  match rows with
  | [] => Some true
  | row :: rows' =>
      match checkRow g row cols with
      | Some true => checkRows g cols rows'
      | r => r
      end
  end.

(** [grid[0].length] is read in the inner loop's condition only: on the
    grid without rows the outer loop does not run, nothing is read, and
    the function returns true. *)
Definition checkWin (g : Grid) : option bool :=
  match numColsOf g with
  | None => Some true
  | Some cols => checkRows g (seqZ 0 cols) (seqZ 0 (numRowsOf g))
  end.

End App.

(** ** The [/reveal] handler (backend server), over a store

    The request's grid is an array of arrays of cell objects.  No statement
    of the handler or of the engine writes into an array of a grid: they
    write fields of cell objects only.  So the arrays are values holding
    references, and the cell objects live in the store. *)
Module Server.

Abbreviation loc := positive.
Abbreviation heap := (gmap positive Cell).
Abbreviation GridRef := (list (list positive)).

Definition locAt (g : GridRef) (r c : Z) : option loc :=
  row ← idx g r; idx row c.

(** [grid[r][c]], dereferenced. *)
Definition cellAt (g : GridRef) (h : heap) (r c : Z) : option Cell :=
  l ← locAt g r c; h !! l.

(** [grid[r][c].revealed = true] *)
Definition markRevealed (g : GridRef) (h : heap) (r c : Z) : heap :=
  match locAt g r c with
  | Some l => alter (setRevealed true) l h
  | None => h
  end.

Definition isSafe (rows cols : Z) (g : GridRef) (h : heap) (visited : gset (Z * Z))
    (r c : Z) : option bool :=
  if inBounds rows cols r c then
    match cellAt g h r c with
    | None => None
    | Some x => Some (negb (revealed x) && negb (bool_decide ((r, c) ∈ visited)))
    end
  else Some false.

(** The number of cell objects of the store that are not revealed. *)
Definition hiddenObjects (h : heap) : nat :=
  size (filter (λ kv, revealed kv.2 = false) h).

(** [revealCellsDFS(grid, row, col)] of gameLogic.js on a grid of the
    store; it returns the reference it was given. *)
Definition revealCellsDFS (g : GridRef) (h : heap) (row col : Z) : outcome heap heap :=
  let rows := Z.of_nat (length g) in
  match g !! 0%nat with
  | None => Threw h
  | Some row0 =>
      let cols := Z.of_nat (length row0) in
      floodLoop (cellAt g) (markRevealed g) (isSafe rows cols g)
        (floodFuel (hiddenObjects h)) h [(row, col)] ∅
  end.

(** [({ ...cell })]: a new object with the fields of [cell].  A reference
    of a grid always points to a cell object; the default is never used. *)
Definition copyCell (h : heap) (l : loc) : heap * loc :=
  let l' := fresh (dom h) in
  (<[l' := default (mkCell false 0 false false) (h !! l)]> h, l').

(** [row.map(cell => ({ ...cell }))] *)
Fixpoint copyRow (h : heap) (row : list loc) : heap * list loc :=
  match row with
  | [] => (h, [])
  | l :: row' =>
      let '(h1, l') := copyCell h l in
      let '(h2, rest) := copyRow h1 row' in
      (h2, l' :: rest)
  end.

(** [grid.map(row => row.map(cell => ({ ...cell })))] *)
Fixpoint copyGrid (h : heap) (g : GridRef) : heap * GridRef :=
  match g with
  | [] => (h, [])
  | row :: g' =>
      let '(h1, row') := copyRow h row in
      let '(h2, rest) := copyGrid h1 g' in
      (h2, row' :: rest)
  end.

(** What the handler sends: [res.json({ grid })] or
    [res.status(400).json({ error: "Invalid grid data" })]. *)
Inductive response : Type :=
  | Json (grid : GridRef)
  | BadRequest.

(** [app.post("/reveal", ...)] on the body [{ grid, row, col }]; [grid] is
    [None] when the body has none.  [Threw] is an exception that leaves the
    handler (Express answers it with status 500). *)
Definition reveal (h : heap) (grid : option GridRef) (row col : Z)
  : outcome heap (heap * response) :=
  match grid with
  | None => Done (h, BadRequest)
  | Some g =>
      if bool_decide (length g = 0%nat) then Done (h, BadRequest)
      else
        match cellAt g h row col with
        | None => Threw h
        | Some x =>
            if revealed x || flagged x then Done (h, Json g)
            else
              let '(h1, copiedGrid) := copyGrid h g in
              match revealCellsDFS copiedGrid h1 row col with
              | Done h2 => Done (h2, Json copiedGrid)
              | Threw h2 => Threw h2
              | OutOfFuel => OutOfFuel
              end
        end
  end.

(** What [res.json] serialises: the cells a grid reference points to. *)
Definition snapshot (h : heap) (g : GridRef) : list (list (option Cell)) :=
  (λ row : list loc, (λ l, h !! l) <$> row) <$> g.

End Server.

(** ** The two copies of the engine, side by side *)

Inductive engine : Type := backend | client.

Definition revealCellsDFS (e : engine) : Grid → Z → Z → outcome Grid Grid :=
  match e with
  | backend => Backend.revealCellsDFS
  | client => Client.revealCellsDFS
  end.

(** The guard of the flood loop, for a grid of [rows] by [cols]. *)
Definition floodGuard (e : engine) (rows cols : Z)
  : Grid → gset (Z * Z) → Z → Z → option bool :=
  match e with
  | backend => Backend.isSafe rows cols
  | client => Client.mayVisit rows cols
  end.

Definition countAdjacentMines (e : engine) : Grid → outcome Grid Grid :=
  match e with
  | backend => Backend.countAdjacentMines
  | client => Client.countAdjacentMines
  end.

Definition countCell (e : engine) : Z → Z → Z → Z → Grid → outcome Grid Grid :=
  match e with
  | backend => Backend.countCell
  | client => Client.countCell
  end.

(** ** The vocabulary of the claims *)

(** Every row is as long as the first one. *)
Definition rectangular (g : Grid) : Prop :=
  match g with
  | [] => True
  | row0 :: _ => Forall (λ row, length row = length row0) g
  end.

#[global] Instance rectangular_dec g : Decision (rectangular g).
Proof. destruct g; simpl; apply _. Defined.

(** A rectangular grid of [rows] rows and [cols] columns, [rows > 0]. *)
Definition hasDims (rows cols : Z) (g : Grid) : Prop :=
  rectangular g ∧ numRowsOf g = rows ∧ numColsOf g = Some cols.

(** [grid[r][c]] is a mined cell. *)
Definition minedAt (g : Grid) (r c : Z) : bool :=
  match getCell g r c with
  | Some x => hasMine x
  | None => false
  end.

(** The number of Moore neighbours of [(r, c)] that are cells of the grid
    and mined. *)
Definition mooreMines (g : Grid) (r c : Z) : Z :=
  Z.of_nat (length (filter (λ d, minedAt g (r + d.1) (c + d.2) = true) directions)).

(** The number of cells with [hasMine = true]. *)
Definition mineTotal (g : Grid) : nat := countCells hasMine g.

(** The adjacency counts of a grid are correct. *)
Definition countsCorrect (g : Grid) : Prop :=
  ∀ r c x, getCell g r c = Some x → hasMine x = false →
           adjacentMines x = mooreMines g r c.

(** The coordinates of a [rows] by [cols] grid, row by row. *)
Definition allPositions (rows cols : Z) : list (Z * Z) :=
  r ← seqZ 0 rows; c ← seqZ 0 cols; [(r, c)].

Definition gridPositions (g : Grid) : list (Z * Z) :=
  allPositions (numRowsOf g) (default 0 (numColsOf g)).

(** The two safe zones: the clicked cell, or the clicked cell and its
    neighbours. *)
Definition singleCell (safeRow safeCol : Z) (p : Z * Z) : bool :=
  bool_decide (p = (safeRow, safeCol)).

Definition neighbourhood (safeRow safeCol : Z) (p : Z * Z) : bool :=
  bool_decide (Z.abs (p.1 - safeRow) ≤ 1 ∧ Z.abs (p.2 - safeCol) ≤ 1).

(** The eligible cells: in the grid, outside the safe zone, not mined. *)
Definition eligible (safe : Z * Z → bool) (g : Grid) : list (Z * Z) :=
  filter (λ p, safe p = false ∧ minedAt g p.1 p.2 = false) (gridPositions g).

(** A random source that keeps drawing every cell of a [rows] by [cols]
    grid: whatever the number of iterations of the client's placement loop
    so far, a later iteration draws the given coordinates.  (Iteration [n]
    makes the calls number [2n] and [2n + 1] of [Math.random].) *)
Definition fairDraws (random : nat → Q) (rows cols : Z) : Prop :=
  ∀ n r c, 0 ≤ r < rows → 0 ≤ c < cols →
    ∃ n', (n ≤ n')%nat ∧
          randomBelow random (2 * n') rows = r ∧
          randomBelow random (S (2 * n')) cols = c.

(** Two grids that differ in no field but [revealed], and there only by
    cells that went from hidden to revealed. *)
Definition onlyReveals (g g' : Grid) : Prop :=
  Forall2 (Forall2 (λ x y,
    hasMine y = hasMine x ∧ adjacentMines y = adjacentMines x ∧
    flagged y = flagged x ∧ (revealed x = true → revealed y = true))) g g'.

(** Two grids that agree on every field but [flagged]. *)
Definition sameButFlags (g g' : Grid) : Prop :=
  Forall2 (Forall2 (λ x y,
    hasMine y = hasMine x ∧ adjacentMines y = adjacentMines x ∧
    revealed y = revealed x)) g g'.

(** Two grids that agree on every field but [adjacentMines]. *)
Definition sameButCounts (g g' : Grid) : Prop :=
  Forall2 (Forall2 (λ x y,
    hasMine y = hasMine x ∧ revealed y = revealed x ∧ flagged y = flagged x)) g g'.

(** Two grids of the same shape with the same mines, in which the cells
    that are not mined are equally revealed. *)
Definition sameSafeCells (g g' : Grid) : Prop :=
  Forall2 (Forall2 (λ x y,
    hasMine y = hasMine x ∧ (hasMine x = false → revealed y = revealed x))) g g'.

(** [(r, c)] has a Moore neighbour that is revealed, not mined, and has
    count 0: the only cells the flood expands from. *)
Definition besideOpenZero (g : Grid) (r c : Z) : Prop :=
  ∃ d z, d ∈ directions ∧ getCell g (r - d.1) (c - d.2) = Some z ∧
         revealed z = true ∧ adjacentMines z = 0 ∧ hasMine z = false.

(** What the flood from [(row, col)] may have revealed. *)
Definition floodReach (row col : Z) (g : Grid) (r c : Z) : Prop :=
  (r, c) = (row, col) ∨ besideOpenZero g r c.

(** The grid value [m] is what the grid reference [g] points to in the
    store [h]. *)
Definition viewOf (g : list (list positive)) (h : gmap positive Cell) (m : Grid) : Prop :=
  Forall2 (Forall2 (λ l x, h !! l = Some x)) g m.

(** A decision procedure for [countsCorrect] on a rectangular grid. *)
Definition countsCorrectb (g : Grid) : bool :=
  forallb (λ p,
             match getCell g p.1 p.2 with
             | Some x => hasMine x || (adjacentMines x =? mooreMines g p.1 p.2)
             | None => true
             end) (gridPositions g).

(** ** Invariants and relations of the proofs *)

(** What [countAdjacentMines] makes of a cell whose neighbourhood holds
    [n] mines: a mined cell is left alone by the backend and gets the
    sentinel -1 from the client. *)
Definition counted (e : engine) (n : Z) (x : Cell) : Cell :=
  if hasMine x then
    match e with
    | backend => x
    | client => setAdjacentMines (-1) x
    end
  else setAdjacentMines n x.

(** The state of [countAdjacentMines] part-way through its loops on [g]:
    the cells at the coordinates in [D] hold their count, every other cell
    is as it was or holds its count already. *)
Definition countedUpTo (e : engine) (g : Grid) (D : Z → Z → Prop) (m : Grid) : Prop :=
  length <$> m = length <$> g ∧
  (∀ r c, getCell g r c = None → getCell m r c = None) ∧
  ∀ r c x, getCell g r c = Some x →
    (getCell m r c = Some x ∨ getCell m r c = Some (counted e (mooreMines g r c) x)) ∧
    (D r c → getCell m r c = Some (counted e (mooreMines g r c) x)).

(** Two runs of the flood, on memories related by [R], ended the same way
    on related memories. *)
Definition sameOutcome {M1 M2 : Type} (R : M1 → M2 → gset (Z * Z) → Prop)
    (o1 : outcome M1 M1) (o2 : outcome M2 M2) : Prop :=
  match o1, o2 with
  | Done a, Done b => ∃ v, R a b v
  | Threw a, Threw b => ∃ v, R a b v
  | OutOfFuel, OutOfFuel => True
  | _, _ => False
  end.

(** The same grid on both sides, in which every visited coordinate is a
    revealed cell. *)
Definition visitedAreRevealed (g1 g2 : Grid) (v : gset (Z * Z)) : Prop :=
  g1 = g2 ∧ ∀ r c, (r, c) ∈ v → ∃ x, getCell g1 r c = Some x ∧ revealed x = true.

(** ** Concrete boards and sources for the examples *)

Definition hiddenCell (n : Z) : Cell := mkCell false n false false.
Definition shownCell (n : Z) : Cell := mkCell false n true false.
Definition mineCell : Cell := mkCell true 0 false false.
Definition flaggedCell (n : Z) : Cell := mkCell false n false true.

(** Three by three, one mine in the corner (2, 2), nothing counted yet. *)
Definition cornerMine : Grid :=
  [[hiddenCell 0; hiddenCell 0; hiddenCell 0];
   [hiddenCell 0; hiddenCell 0; hiddenCell 0];
   [hiddenCell 0; hiddenCell 0; mineCell]].

(** The same board with its counts, as the backend leaves it. *)
Definition cornerMineCounted : Grid :=
  [[hiddenCell 0; hiddenCell 0; hiddenCell 0];
   [hiddenCell 0; hiddenCell 1; hiddenCell 1];
   [hiddenCell 0; hiddenCell 1; mineCell]].

(** ... and after the flood from (0, 0). *)
Definition cornerMineWon : Grid :=
  [[shownCell 0; shownCell 0; shownCell 0];
   [shownCell 0; shownCell 1; shownCell 1];
   [shownCell 0; shownCell 1; mineCell]].

(** One row of four cells: no mine, and a mine in the first cell. *)
Definition stripFree : Grid := [[hiddenCell 0; hiddenCell 0; hiddenCell 0; hiddenCell 0]].
Definition stripMined : Grid := [[mineCell; hiddenCell 0; hiddenCell 0; hiddenCell 0]].

(** A source that always returns 1/4, and one whose odd calls cycle
    through 0, 1/4, 2/4, 3/4. *)
Definition quarter : nat → Q := λ _, (1 # 4)%Q.
Definition cycling : nat → Q := λ k, (Z.of_nat ((k / 2) mod 4) # 4)%Q.

(** A store with three cell objects, and grids over it: a ragged one whose
    second row is longer, a ragged one whose second row is shorter, and a
    one-cell grid whose cell is flagged. *)
Definition threeCells : gmap positive Cell :=
  <[1%positive := hiddenCell 0]> (<[2%positive := hiddenCell 0]>
    (<[3%positive := flaggedCell 0]> ∅)).
Definition raggedLong : list (list positive) := [[1%positive]; [2%positive; 3%positive]].
Definition raggedShort : list (list positive) := [[1%positive; 2%positive]; [3%positive]].
Definition oneFlagged : list (list positive) := [[3%positive]].

(** * The rest of the code: routes, handlers and accounts *)

(** ** Statements in sequence *)

(** [o; k]: the statements [k] run on what [o] completed with; an
    exception of [o] leaves the block. *)
Definition andThen {S A B : Type} (o : outcome S A) (k : A → outcome S B) : outcome S B :=
  match o with
  | Done a => k a
  | Threw s => Threw s
  | OutOfFuel => OutOfFuel
  end.

(** ** More vocabulary *)

(** [cell.flagged = v] *)
Definition setFlagged (b : bool) (x : Cell) : Cell :=
  mkCell (hasMine x) (adjacentMines x) (revealed x) b.

(** What [createEmptyGrid] puts in every cell, and the grid of [rows] by
    [cols] such cells (without a cell when a dimension is zero or less). *)
Definition emptyCell : Cell := mkCell false 0 false false.

Definition emptyGrid (rows cols : Z) : Grid :=
  replicate (Z.to_nat rows) (replicate (Z.to_nat cols) emptyCell).

(** Two grids that differ in no field but [hasMine], and there only by
    cells that went from free to mined. *)
Definition onlyMines (g g' : Grid) : Prop :=
  Forall2 (Forall2 (λ x y,
    adjacentMines y = adjacentMines x ∧ revealed y = revealed x ∧
    flagged y = flagged x ∧ (hasMine x = true → hasMine y = true))) g g'.

(** The cell at [(r, c)] went from hidden to revealed between [g] and
    [g'], and is an open zero: not mined, count 0. *)
Definition openedZero (g g' : Grid) (r c : Z) : Prop :=
  ∃ x y, getCell g r c = Some x ∧ revealed x = false ∧
         getCell g' r c = Some y ∧ revealed y = true ∧
         adjacentMines y = 0 ∧ hasMine y = false.

(** ** The [/start-game] handler (server.js) *)
Module Routes.

(** [app.post("/start-game", ...)] on the body
    [{ rows, cols, mines, firstClickRow, firstClickCol }], the five of
    them integers: the grid that [res.json({ grid })] sends, or the
    exception that leaves the handler, with the grid as it was then
    ([None] when [createEmptyGrid] raised and there is none). *)
Definition startGame (random : nat → Q) (rows cols mines firstClickRow firstClickCol : Z)
  : outcome (option Grid) Grid :=
  match Backend.createEmptyGrid rows cols with
  | None => Threw None
  | Some grid =>
      match
        andThen (Backend.placeMines random grid mines firstClickRow firstClickCol) (λ grid,
        andThen (Backend.countAdjacentMines grid) (λ grid,
        Backend.revealCellsDFS grid firstClickRow firstClickCol))
      with
      | Done grid => Done grid
      | Threw grid => Threw (Some grid)
      | OutOfFuel => OutOfFuel
      end
  end.

End Routes.

(** ** The handlers of the screen (app/index.tsx)

    The state of the component, as far as the handlers of the grid read or
    write it; the clock ([gameTime]) and the settings dialog are left out.
    A handler is run from a state to its end, with no other event in
    between.  Where it mutates the grid of the state in place (chording),
    the state after it holds the grid as mutated, also when it raises. *)
Module Handlers.

(** The entries of [DIFFICULTIES].  The state [difficulty] holds the
    [value] of one of them: it starts as that of the first and is set from
    these entries only. *)
Inductive Difficulty : Type := easy | medium | hard.

Definition rowsOf (d : Difficulty) : Z :=
  match d with easy => 10 | medium => 15 | hard => 24 end.
Definition colsOf (d : Difficulty) : Z :=
  match d with easy => 8 | medium => 12 | hard => 18 end.
Definition minesOf (d : Difficulty) : Z :=
  match d with easy => 10 | medium => 25 | hard => 50 end.

Record State := mkState {
  grid : Grid;
  minesPlaced : bool;
  flagCount : Z;
  timerActive : bool;
  victoryVisible : bool;
  difficulty : Difficulty
}.

Definition setGrid (g : Grid) (s : State) : State :=
  mkState g (minesPlaced s) (flagCount s) (timerActive s) (victoryVisible s) (difficulty s).
Definition setMinesPlaced (b : bool) (s : State) : State :=
  mkState (grid s) b (flagCount s) (timerActive s) (victoryVisible s) (difficulty s).
Definition setFlagCount (n : Z) (s : State) : State :=
  mkState (grid s) (minesPlaced s) n (timerActive s) (victoryVisible s) (difficulty s).
Definition setTimerActive (b : bool) (s : State) : State :=
  mkState (grid s) (minesPlaced s) (flagCount s) b (victoryVisible s) (difficulty s).
Definition setVictoryVisible (b : bool) (s : State) : State :=
  mkState (grid s) (minesPlaced s) (flagCount s) (timerActive s) b (difficulty s).

(** [handleReset]; it raises, before any [set...], when
    [createEmptyGrid] does. *)
Definition handleReset (s : State) : outcome State State :=
  let d := difficulty s in
  match Client.createEmptyGrid (rowsOf d) (colsOf d) with
  | None => Threw s
  | Some g =>
      Done (setTimerActive false
              (setFlagCount (minesOf d)
                 (setMinesPlaced false (setGrid g s))))
  end.

(** [handleCellLongPress(row, col)]: raises when [grid[row][col]] is not
    a cell. *)
Definition handleCellLongPress (row col : Z) (s : State) : outcome State State :=
  match getCell (grid s) row col with
  | None => Threw s
  | Some cell =>
      if negb (revealed cell) then
        let newGrid := updCell (setFlagged (negb (flagged cell))) (grid s) row col in
        Done (setGrid newGrid
                (setFlagCount (if negb (flagged cell) then flagCount s - 1
                               else flagCount s + 1) s))
      else Done s
  end.

(** [if (checkWin(newGrid)) { setTimerActive(false); setVictoryVisible(true); }] *)
Definition winCheck (newGrid : Grid) (s : State) : outcome State State :=
  match App.checkWin newGrid with
  | None => Threw s
  | Some true => Done (setVictoryVisible true (setTimerActive false s))
  | Some false => Done s
  end.

(** The first loop of chording, over the neighbours in the grid: the
    number of hidden flagged ones, and the list of the hidden unflagged
    ones in the order met.  [None] when a neighbour within
    [newGrid.length] by [newGrid[0].length] is [undefined]. *)
Fixpoint scanNeighbours (g : Grid) (rows cols row col : Z) (ds : list (Z * Z))
    (flaggedCount : Z) (unrevealedUnflagged : list (Z * Z)) : option (Z * list (Z * Z)) :=
  match ds with
  | [] => Some (flaggedCount, unrevealedUnflagged)
  | (dr, dc) :: ds' =>
      let nr := row + dr in
      let nc := col + dc in
      if inBounds rows cols nr nc then
        match getCell g nr nc with
        | None => None
        | Some neighbor =>
            scanNeighbours g rows cols row col ds'
              (if negb (revealed neighbor) && flagged neighbor
               then flaggedCount + 1 else flaggedCount)
              (if negb (revealed neighbor) && negb (flagged neighbor)
               then unrevealedUnflagged ++ [(nr, nc)] else unrevealedUnflagged)
        end
      else scanNeighbours g rows cols row col ds' flaggedCount unrevealedUnflagged
  end.

(** The second loop of chording, over [unrevealedUnflagged]; it returns
    the grid with [revealedAny] and [bombRevealed]. *)
Fixpoint chordReveal (g : Grid) (todo : list (Z * Z)) (revealedAny bombRevealed : bool)
  : outcome Grid (Grid * bool * bool) :=
  match todo with
  | [] => Done (g, revealedAny, bombRevealed)
  | (nr, nc) :: rest =>
      match getCell g nr nc with
      | None => Threw g
      | Some n =>
          if negb (revealed n) && negb (flagged n) then
            if hasMine n then chordReveal (markRevealed g nr nc) rest true true
            else if adjacentMines n =? 0 then
              match Client.revealCellsDFS g nr nc with
              | Done g' => chordReveal g' rest true bombRevealed
              | Threw g' => Threw g'
              | OutOfFuel => OutOfFuel
              end
            else chordReveal (markRevealed g nr nc) rest true bombRevealed
          else chordReveal g rest revealedAny bombRevealed
      end
  end.

(** [if (newGrid[r][c].hasMine) newGrid[r][c].revealed = true] *)
Definition revealIfMine (r c : Z) (g : Grid) : outcome Grid Grid :=
  match getCell g r c with
  | None => Threw g
  | Some x => if hasMine x then Done (markRevealed g r c) else Done g
  end.

(** The two loops that reveal all bombs after a chord hit one. *)
Definition revealBombs (g : Grid) : outcome Grid Grid :=
  match numColsOf g with
  | None => Done g
  | Some cols =>
      forEach (λ r, forEach (revealIfMine r) (seqZ 0 cols)) (seqZ 0 (numRowsOf g)) g
  end.

(** The chording branch of [handleCellPress], entered on a revealed cell
    with a positive count; it ends with [return].  [grid[0]] is there
    when [grid[row][col]] is. *)
Definition chord (row col : Z) (cell : Cell) (s : State) : outcome State State :=
  let newGrid := grid s in
  match numColsOf newGrid with
  | None => Threw s
  | Some cols =>
      match scanNeighbours newGrid (numRowsOf newGrid) cols row col directions 0 [] with
      | None => Threw s
      | Some (flaggedCount, unrevealedUnflagged) =>
          if flaggedCount =? adjacentMines cell then
            match chordReveal newGrid unrevealedUnflagged false false with
            | Threw g => Threw (setGrid g s)
            | OutOfFuel => OutOfFuel
            | Done (g, revealedAny, bombRevealed) =>
                if revealedAny then
                  if bombRevealed then
                    match revealBombs g with
                    | Done g' => Done (setGrid g' (setTimerActive false s))
                    | Threw g' => Threw (setGrid g' s)
                    | OutOfFuel => OutOfFuel
                    end
                  else winCheck g (setGrid g s)
                else Done s
            end
          else Done s
      end
  end.

(** [newGrid.map(rowArr => rowArr.map(cell =>
    cell.hasMine ? { ...cell, revealed: true } : cell))] *)
Definition showMines (g : Grid) : Grid :=
  (λ rowArr : list Cell,
     (λ cell, if hasMine cell then setRevealed true cell else cell) <$> rowArr) <$> g.

(** [handleCellPress(row, col)].  [reply] is what the one [fetch] of the
    press gave, when the press makes one: the grid of the JSON answer, or
    [None] when [fetch] or [response.json()] rejected.  The request to
    [/start-game] is not guarded: its failure leaves the handler.  The
    request to [/reveal] is inside [try]: its failure is logged and the
    handler goes on to [checkWin]. *)
Definition handleCellPress (reply : option Grid) (row col : Z) (s : State)
  : outcome State State :=
  let newGrid := grid s in
  match getCell newGrid row col with
  | None => Threw s
  | Some cell =>
      if revealed cell && (0 <? adjacentMines cell) then chord row col cell s
      else if negb (revealed cell) && flagged cell then Done s
      else if negb (minesPlaced s) then
        match reply with
        | None => Threw s
        | Some g' =>
            winCheck newGrid (setTimerActive true (setMinesPlaced true (setGrid g' s)))
        end
      else if negb (revealed cell) then
        if hasMine cell then
          let newGrid := showMines newGrid in
          winCheck newGrid (setGrid newGrid s)
        else if adjacentMines cell =? 0 then
          match reply with
          | None => winCheck newGrid s
          | Some g' => winCheck newGrid (setGrid g' s)
          end
        else
          let newGrid := updCell (setRevealed true) newGrid row col in
          winCheck newGrid (setGrid newGrid s)
      else winCheck newGrid s
  end.

(** A run of long presses, one after the other. *)
Definition longPresses (presses : list (Z * Z)) (s : State) : outcome State State :=
  forEach (λ p, handleCellLongPress p.1 p.2) presses s.

End Handlers.

(** The number of cells with [flagged = true]. *)
Definition flagTotal (g : Grid) : nat := countCells flagged g.

(** Every mined cell of the grid is revealed. *)
Definition minesShown (g : Grid) : Prop :=
  ∀ r c x, getCell g r c = Some x → hasMine x = true → revealed x = true.

(** No mined cell of [g'] is revealed unless it was in [g]. *)
Definition noMineOpened (g g' : Grid) : Prop :=
  ∀ r c x y, getCell g r c = Some x → getCell g' r c = Some y →
             hasMine x = true → revealed y = revealed x.

(** [grid[r][c]] is a hidden cell with a flag, or without one. *)
Definition hiddenFlaggedAt (g : Grid) (r c : Z) : bool :=
  match getCell g r c with
  | Some x => negb (revealed x) && flagged x
  | None => false
  end.

Definition hiddenPlainAt (g : Grid) (r c : Z) : bool :=
  match getCell g r c with
  | Some x => negb (revealed x) && negb (flagged x)
  | None => false
  end.

(** The number of Moore neighbours of [(r, c)] that are hidden and
    flagged, and the coordinates of those that are hidden and not
    flagged, in the order of [directions]. *)
Definition flagsAround (g : Grid) (r c : Z) : Z :=
  Z.of_nat (length (filter (λ d, hiddenFlaggedAt g (r + d.1) (c + d.2) = true) directions)).

Definition plainAround (g : Grid) (r c : Z) : list (Z * Z) :=
  (λ d, (r + d.1, c + d.2)) <$>
  filter (λ d, hiddenPlainAt g (r + d.1) (c + d.2) = true) directions.

(** The state of the loops that reveal all bombs, part-way through: the
    grid differs from [g] by reveals of mined cells only, and the mined
    cells at the coordinates in [D] are revealed. *)
Definition shownUpTo (g : Grid) (D : Z → Z → Prop) (m : Grid) : Prop :=
  onlyReveals g m ∧
  (∀ r c x, D r c → getCell m r c = Some x → hasMine x = true → revealed x = true) ∧
  (∀ r c x y, getCell g r c = Some x → getCell m r c = Some y →
              hasMine x = false → revealed y = revealed x).

(** ** Boards and states for the examples of the handlers *)

Definition chordBoardWrong : Grid :=
  [[mineCell; shownCell 1; flaggedCell 0]].

Definition playing (g : Grid) : Handlers.State :=
  Handlers.mkState g true 0 true false Handlers.easy.

(** ** Accounts (server.js)

    The handlers [/register], [/login] and [/profile], run one request at
    a time.  The file [users.json] is there or not; what it holds is read
    and written through [JSON.parse] and [JSON.stringify] only.  These,
    [bcrypt] and [jsonwebtoken] are libraries: the handlers are modelled
    over whatever they compute.  [bcrypt.hash] draws a salt and
    [jwt.sign] and [jwt.verify] read the clock: the salt, the identifier
    that [uuidv4()] draws and the time are arguments. *)
Module Accounts.

Record User := mkUser {
  id : string;
  username : string;
  password : string
}.

(** [str.split(" ")] *)
Fixpoint split_space (s : string) : list string :=
  match s with
  | EmptyString => [EmptyString]
  | String c s' =>
      if Ascii.eqb c Ascii.Space then EmptyString :: split_space s'
      else
        match split_space s' with
        | part :: parts => String c part :: parts
        | [] => [String c EmptyString]
        end
  end.

Section Handlers.

Context {Text Decoded : Type}.

Variable JSON_stringify : list User → Text.
(** [None] when [JSON.parse] raises, or returns something other than an
    array of users. *)
Variable JSON_parse : Text → option (list User).
(** [bcrypt.hash(password, 10)] with the salt it drew, and
    [bcrypt.compare(password, hash)]. *)
Variable bcrypt_hash : string → string → string.
Variable bcrypt_compare : string → string → bool.
(** [jwt.sign({ id, username }, SECRET, { expiresIn: "1h" })] and
    [jwt.verify(token, SECRET)] at a time; [None] when the latter
    raises. *)
Variable jwt_sign : Z → string → string → string.
Variable jwt_verify : Z → string → option Decoded.

(** What a handler sends. *)
Inductive response : Type :=
  | Registered
  | UsernameExists
  | InvalidCredentials
  | Token (token : string)
  | NoTokenProvided
  | InvalidToken
  | Welcome (user : Decoded).

(** [loadUsers()]: no file is no user; [None] when [JSON.parse] raises. *)
Definition loadUsers (file : option Text) : option (list User) :=
  match file with
  | None => Some []
  | Some data => JSON_parse data
  end.

(** [saveUsers(users)] *)
Definition saveUsers (users : list User) : option Text := Some (JSON_stringify users).

(** [app.post("/register", ...)] on the body [{ username, password }] of
    two strings. *)
Definition register (salt uuid : string) (body_username body_password : string)
    (file : option Text) : outcome (option Text) (option Text * response) :=
  match loadUsers file with
  | None => Threw file
  | Some users =>
      if existsb (λ user, bool_decide (username user = body_username)) users
      then Done (file, UsernameExists)
      else
        let hashedPassword := bcrypt_hash salt body_password in
        let newUser := mkUser uuid body_username hashedPassword in
        Done (saveUsers (users ++ [newUser]), Registered)
  end.

(** [app.post("/login", ...)] *)
Definition login (now : Z) (body_username body_password : string) (file : option Text)
  : outcome (option Text) response :=
  match loadUsers file with
  | None => Threw file
  | Some users =>
      match List.find (λ user, bool_decide (username user = body_username)) users with
      | None => Done InvalidCredentials
      | Some user =>
          if bcrypt_compare body_password (password user)
          then Done (Token (jwt_sign now (id user) (username user)))
          else Done InvalidCredentials
      end
  end.

(** [app.get("/profile", ...)] on the header [authorization], if any.
    [jwt.verify] raises on [undefined] as on any token it rejects. *)
Definition profile (now : Z) (authorization : option string) : response :=
  match authorization with
  | None => NoTokenProvided
  | Some authHeader =>
      if String.prefix "Bearer " authHeader then
        match split_space authHeader !! 1%nat with
        | None => InvalidToken
        | Some token =>
            match jwt_verify now token with
            | Some decoded => Welcome decoded
            | None => InvalidToken
            end
        end
      else NoTokenProvided
  end.

End Handlers.

Arguments Registered {Decoded}.
Arguments UsernameExists {Decoded}.
Arguments InvalidCredentials {Decoded}.
Arguments Token {Decoded} token.
Arguments NoTokenProvided {Decoded}.
Arguments InvalidToken {Decoded}.
Arguments Welcome {Decoded} user.

(** A string without a space. *)
Fixpoint spaceFree (s : string) : bool :=
  match s with
  | EmptyString => true
  | String c s' => negb (Ascii.eqb c Ascii.Space) && spaceFree s'
  end.

End Accounts.

(** * Proofs: grids, loops and the flood *)

(** ** Indexing *)

Lemma idx_Some {A} (l : list A) i x :
  idx l i = Some x ↔ 0 ≤ i ∧ l !! Z.to_nat i = Some x.
Proof.
  unfold idx. destruct (bool_decide_reflect (0 ≤ i)); [tauto|].
  split; [done|tauto].
Qed.

Lemma idx_nonneg {A} (l : list A) i : 0 ≤ i → idx l i = l !! Z.to_nat i.
Proof. intros H. unfold idx. by rewrite bool_decide_eq_true_2. Qed.

Lemma idx_is_Some {A} (l : list A) i :
  is_Some (idx l i) ↔ 0 ≤ i < Z.of_nat (length l).
Proof.
  unfold idx. destruct (bool_decide_reflect (0 ≤ i)).
  - rewrite lookup_lt_is_Some. lia.
  - split; [intros [? ?]; discriminate | lia].
Qed.

Lemma idx_None {A} (l : list A) i :
  idx l i = None ↔ ¬ (0 ≤ i < Z.of_nat (length l)).
Proof. rewrite <- idx_is_Some, eq_None_not_Some. done. Qed.

Lemma getCell_Some g r c x :
  getCell g r c = Some x ↔
  0 ≤ r ∧ 0 ≤ c ∧ ∃ row, g !! Z.to_nat r = Some row ∧ row !! Z.to_nat c = Some x.
Proof.
  unfold getCell. split.
  - intros H. apply bind_Some in H as (row & Hr & Hc).
    apply idx_Some in Hr as [? ?]. apply idx_Some in Hc as [? ?]. eauto 6.
  - intros (? & ? & row & Hr & Hc). apply bind_Some. exists row.
    split; apply idx_Some; done.
Qed.

Lemma getCell_updCell_same f g r c :
  0 ≤ r → 0 ≤ c → getCell (updCell f g r c) r c = f <$> getCell g r c.
Proof.
  intros Hr Hc. unfold getCell, updCell.
  rewrite !idx_nonneg by done.
  rewrite list_lookup_alter_eq. destruct (g !! Z.to_nat r) as [row|]; simpl; [|done].
  rewrite !idx_nonneg by done. by rewrite list_lookup_alter_eq.
Qed.

Lemma getCell_updCell_other f g r c r' c' :
  0 ≤ r → 0 ≤ c → (r', c') ≠ (r, c) →
  getCell (updCell f g r c) r' c' = getCell g r' c'.
Proof.
  intros Hr Hc Hne. unfold getCell, updCell.
  destruct (decide (0 ≤ r')) as [Hr'|Hr'].
  2:{ assert (E : ∀ A (l : list A), idx l r' = None) by (intros; apply idx_None; lia).
      by rewrite !E. }
  rewrite !(idx_nonneg _ r') by done.
  destruct (decide (r' = r)) as [->|Hrr].
  - rewrite list_lookup_alter_eq. destruct (g !! Z.to_nat r) as [row|]; simpl; [|done].
    destruct (decide (0 ≤ c')) as [Hc'|Hc'].
    2:{ assert (E : ∀ A (l : list A), idx l c' = None) by (intros; apply idx_None; lia).
        by rewrite !E. }
    rewrite !idx_nonneg by done.
    rewrite list_lookup_alter_ne; [done|]. intros E. apply Hne. f_equal. lia.
  - rewrite list_lookup_alter_ne; [done|]. lia.
Qed.

Lemma getCell_updCell f g r c x r' c' :
  getCell g r c = Some x →
  getCell (updCell f g r c) r' c' =
    if bool_decide ((r', c') = (r, c)) then Some (f x) else getCell g r' c'.
Proof.
  intros H. pose proof H as H0. apply getCell_Some in H0 as (Hr & Hc & _).
  case_bool_decide as E.
  - inversion E; subst. rewrite getCell_updCell_same by done. by rewrite H.
  - by apply getCell_updCell_other.
Qed.

Lemma getCell_markRevealed g r c x r' c' :
  getCell g r c = Some x →
  getCell (markRevealed g r c) r' c' =
    if bool_decide ((r', c') = (r, c)) then Some (setRevealed true x) else getCell g r' c'.
Proof. apply getCell_updCell. Qed.

Lemma getCell_nat g i j :
  getCell g (Z.of_nat i) (Z.of_nat j) = g !! i ≫= (λ row, row !! j).
Proof.
  unfold getCell. rewrite idx_nonneg, Nat2Z.id by lia.
  destruct (g !! i); simpl; [|done]. by rewrite idx_nonneg, Nat2Z.id by lia.
Qed.

(** ** The shape of a grid *)

Lemma updCell_length f g r c : length (updCell f g r c) = length g.
Proof. unfold updCell. apply length_alter. Qed.

Lemma updCell_row_lengths f g r c :
  length <$> (updCell f g r c) = length <$> g.
Proof.
  unfold updCell. apply list_eq. intros i. rewrite !list_lookup_fmap.
  destruct (decide (i = Z.to_nat r)) as [->|Hne].
  - rewrite list_lookup_alter_eq. destruct (g !! Z.to_nat r); simpl; [|done].
    by rewrite length_alter.
  - by rewrite list_lookup_alter_ne.
Qed.

Lemma numRowsOf_shape g g' : length <$> g' = length <$> g → numRowsOf g' = numRowsOf g.
Proof.
  intros H. unfold numRowsOf. f_equal.
  rewrite <- (length_fmap length g'), H. apply length_fmap.
Qed.

Lemma numColsOf_shape g g' : length <$> g' = length <$> g → numColsOf g' = numColsOf g.
Proof.
  intros H. unfold numColsOf.
  assert (E : length <$> (g' !! 0%nat) = length <$> (g !! 0%nat)).
  { rewrite <- !list_lookup_fmap. by rewrite H. }
  destruct (g' !! 0%nat), (g !! 0%nat); simpl in *; congruence.
Qed.

Lemma rectangular_Forall g :
  rectangular g ↔ ∀ cols, numColsOf g = Some cols →
                   Forall (λ row, Z.of_nat (length row) = cols) g.
Proof.
  unfold rectangular, numColsOf. destruct g as [|row0 g]; simpl.
  - split; [intros _ cols [=]|done].
  - split.
    + intros H cols [= <-]. eapply Forall_impl; [exact H|]. simpl. intros; lia.
    + intros H. specialize (H _ eq_refl). eapply Forall_impl; [exact H|].
      simpl. intros; lia.
Qed.

Lemma rectangular_shape g g' :
  length <$> g' = length <$> g → rectangular g → rectangular g'.
Proof.
  intros H Hrect. apply rectangular_Forall. intros cols Hcols.
  rewrite (numColsOf_shape _ _ H) in Hcols.
  pose proof (proj1 (rectangular_Forall g) Hrect _ Hcols) as Hall.
  rewrite Forall_forall in Hall. apply Forall_forall. intros row' Hin.
  apply list_elem_of_lookup in Hin as [i Hi].
  assert (E : length <$> (g' !! i) = length <$> (g !! i)).
  { rewrite <- !list_lookup_fmap. by rewrite H. }
  rewrite Hi in E. simpl in E. destruct (g !! i) as [row|] eqn:Hg; [|done].
  simpl in E. injection E as E. rewrite E. apply Hall.
  apply list_elem_of_lookup. eauto.
Qed.

Lemma getCell_inBounds g cols r c :
  rectangular g → numColsOf g = Some cols →
  is_Some (getCell g r c) ↔ inBounds (numRowsOf g) cols r c = true.
Proof.
  intros Hrect Hcols. pose proof (proj1 (rectangular_Forall g) Hrect _ Hcols) as Hall.
  rewrite Forall_forall in Hall.
  unfold inBounds, numRowsOf. rewrite !andb_true_iff, !Z.leb_le, !Z.ltb_lt.
  split.
  - intros [x Hx]. apply getCell_Some in Hx as (Hr & Hc & row & Hrow & Hx).
    pose proof (lookup_lt_Some _ _ _ Hrow). pose proof (lookup_lt_Some _ _ _ Hx).
    assert (row ∈ g) as Hin by (apply list_elem_of_lookup; eauto).
    apply Hall in Hin. lia.
  - intros [[[Hr Hr'] Hc] Hc'].
    destruct (lookup_lt_is_Some_2 g (Z.to_nat r)) as [row Hrow]; [lia|].
    assert (row ∈ g) as Hin by (apply list_elem_of_lookup; eauto).
    apply Hall in Hin.
    destruct (lookup_lt_is_Some_2 row (Z.to_nat c)) as [x Hx]; [lia|].
    exists x. apply getCell_Some. eauto 6.
Qed.

Lemma numColsOf_nonempty g : g ≠ [] → is_Some (numColsOf g).
Proof. destruct g; [done|]. intros _. by eexists. Qed.

Lemma numColsOf_None g : numColsOf g = None ↔ g = [].
Proof. destruct g; simpl; split; done. Qed.

Lemma Forall2_grid (P : Cell → Cell → Prop) g g' :
  length <$> g' = length <$> g →
  (∀ r c x y, getCell g r c = Some x → getCell g' r c = Some y → P x y) →
  Forall2 (Forall2 P) g g'.
Proof.
  intros Hshape HP. apply Forall2_same_length_lookup. split.
  { rewrite <- (length_fmap length g), <- (length_fmap length g'). by rewrite Hshape. }
  intros i row row' Hrow Hrow'. apply Forall2_same_length_lookup. split.
  { assert (E : length <$> (g' !! i) = length <$> (g !! i)).
    { rewrite <- !list_lookup_fmap. by rewrite Hshape. }
    rewrite Hrow, Hrow' in E. by injection E. }
  intros j x y Hx Hy. apply (HP (Z.of_nat i) (Z.of_nat j)).
  - by rewrite getCell_nat, Hrow.
  - by rewrite getCell_nat, Hrow'.
Qed.

Lemma Forall2_grid_getCell (P : Cell → Cell → Prop) g g' r c x :
  Forall2 (Forall2 P) g g' → getCell g r c = Some x →
  ∃ y, getCell g' r c = Some y ∧ P x y.
Proof.
  intros H Hx. apply getCell_Some in Hx as (Hr & Hc & row & Hrow & Hx).
  destruct (Forall2_lookup_l _ _ _ _ _ H Hrow) as (row' & Hrow' & Hrows).
  destruct (Forall2_lookup_l _ _ _ _ _ Hrows Hx) as (y & Hy & Hxy).
  exists y. split; [|done]. apply getCell_Some. eauto 6.
Qed.

Lemma Forall2_grid_getCell_r (P : Cell → Cell → Prop) g g' r c y :
  Forall2 (Forall2 P) g g' → getCell g' r c = Some y →
  ∃ x, getCell g r c = Some x ∧ P x y.
Proof.
  intros H Hy. apply getCell_Some in Hy as (Hr & Hc & row' & Hrow' & Hy).
  destruct (Forall2_lookup_r _ _ _ _ _ H Hrow') as (row & Hrow & Hrows).
  destruct (Forall2_lookup_r _ _ _ _ _ Hrows Hy) as (x & Hx & Hxy).
  exists x. split; [|done]. apply getCell_Some. eauto 6.
Qed.

Lemma Forall2_grid_shape (P : Cell → Cell → Prop) g g' :
  Forall2 (Forall2 P) g g' → length <$> g' = length <$> g.
Proof.
  induction 1 as [|row row' g g' Hrow _ IH]; simpl; [done|].
  f_equal; [|done]. symmetry. by eapply Forall2_length.
Qed.

Lemma updCell_fixed f g r c x :
  getCell g r c = Some x → f x = x → updCell f g r c = g.
Proof.
  intros Hx Hf. apply getCell_Some in Hx as (_ & _ & row & Hrow & Hx).
  unfold updCell. apply list_eq. intros i.
  destruct (decide (i = Z.to_nat r)) as [->|Hne]; [|by rewrite list_lookup_alter_ne].
  rewrite list_lookup_alter_eq, Hrow. simpl. f_equal.
  apply list_eq. intros j.
  destruct (decide (j = Z.to_nat c)) as [->|Hne]; [|by rewrite list_lookup_alter_ne].
  rewrite list_lookup_alter_eq, Hx. simpl. by rewrite Hf.
Qed.

Lemma updCell_ext f f' g r c x :
  getCell g r c = Some x → f x = f' x → updCell f g r c = updCell f' g r c.
Proof.
  intros Hx Hf. apply getCell_Some in Hx as (_ & _ & row & Hrow & Hx).
  unfold updCell. apply list_eq. intros i.
  destruct (decide (i = Z.to_nat r)) as [->|Hne]; [|by rewrite !list_lookup_alter_ne].
  rewrite !list_lookup_alter_eq, Hrow. simpl. f_equal.
  apply list_eq. intros j.
  destruct (decide (j = Z.to_nat c)) as [->|Hne]; [|by rewrite !list_lookup_alter_ne].
  rewrite !list_lookup_alter_eq, Hx. simpl. by rewrite Hf.
Qed.

(** ** Coordinates *)

Lemma inBounds_iff rows cols r c :
  inBounds rows cols r c = true ↔ 0 ≤ r < rows ∧ 0 ≤ c < cols.
Proof. unfold inBounds. rewrite !andb_true_iff, !Z.leb_le, !Z.ltb_lt. lia. Qed.

Lemma elem_of_allPositions rows cols r c :
  (r, c) ∈ allPositions rows cols ↔ 0 ≤ r < rows ∧ 0 ≤ c < cols.
Proof.
  unfold allPositions. rewrite list_elem_of_bind. split.
  - intros (r' & Hin & Hr'). apply list_elem_of_bind in Hin as (c' & Hin & Hc').
    apply list_elem_of_singleton in Hin. injection Hin as -> ->.
    apply elem_of_seqZ in Hr', Hc'. lia.
  - intros [Hr Hc]. exists r. split; [|apply elem_of_seqZ; lia].
    apply list_elem_of_bind. exists c. split; [apply list_elem_of_singleton; done|].
    apply elem_of_seqZ. lia.
Qed.

Lemma NoDup_allPositions rows cols : NoDup (allPositions rows cols).
Proof.
  unfold allPositions. apply NoDup_bind; [| |apply NoDup_seqZ].
  - intros r1 r2 [r c] _ _ H1 H2.
    apply list_elem_of_bind in H1 as (? & H1 & _). apply list_elem_of_singleton in H1.
    apply list_elem_of_bind in H2 as (? & H2 & _). apply list_elem_of_singleton in H2.
    congruence.
  - intros r _. apply NoDup_bind; [| |apply NoDup_seqZ].
    + intros c1 c2 [r' c] _ _ H1 H2.
      apply list_elem_of_singleton in H1. apply list_elem_of_singleton in H2. congruence.
    + intros c _. apply NoDup_singleton.
Qed.

Lemma elem_of_gridPositions g r c :
  rectangular g → (r, c) ∈ gridPositions g ↔ is_Some (getCell g r c).
Proof.
  intros Hrect. unfold gridPositions. rewrite elem_of_allPositions.
  destruct (numColsOf g) as [cols|] eqn:Hcols; simpl.
  - rewrite (getCell_inBounds g cols r c Hrect Hcols). symmetry. apply inBounds_iff.
  - apply numColsOf_None in Hcols. subst g. split; [lia|].
    intros [x Hx]. apply getCell_Some in Hx as (_ & _ & ? & ? & _). done.
Qed.

Lemma gridPositions_eq g cols :
  numColsOf g = Some cols → gridPositions g = allPositions (numRowsOf g) cols.
Proof. unfold gridPositions. by intros ->. Qed.

Lemma gridPositions_shape g g' :
  length <$> g' = length <$> g → gridPositions g' = gridPositions g.
Proof.
  intros H. unfold gridPositions.
  by rewrite (numRowsOf_shape _ _ H), (numColsOf_shape _ _ H).
Qed.

Lemma hasDims_getCell rows cols g r c :
  hasDims rows cols g → is_Some (getCell g r c) ↔ 0 ≤ r < rows ∧ 0 ≤ c < cols.
Proof.
  intros (Hrect & <- & Hcols).
  rewrite (getCell_inBounds g cols r c Hrect Hcols). apply inBounds_iff.
Qed.

Lemma hasDims_shape rows cols g g' :
  length <$> g' = length <$> g → hasDims rows cols g → hasDims rows cols g'.
Proof.
  intros H (Hrect & Hrows & Hcols). split_and!.
  - by eapply rectangular_shape.
  - by rewrite (numRowsOf_shape _ _ H).
  - by rewrite (numColsOf_shape _ _ H).
Qed.

Lemma hasDims_rows_pos rows cols g : hasDims rows cols g → 0 < rows.
Proof.
  intros (_ & <- & Hcols). unfold numRowsOf. destruct g; [done|]. simpl. lia.
Qed.

(** ** Counting cells *)

Lemma countCells_updCell p f g r c x :
  getCell g r c = Some x →
  (countCells p (updCell f g r c) + (if p x then 1 else 0) =
   countCells p g + (if p (f x) then 1 else 0))%nat.
Proof.
  intros H. apply getCell_Some in H as (_ & _ & row & Hrow & Hx).
  unfold countCells, updCell.
  revert g Hrow. generalize (Z.to_nat r) as i. intros i. induction i as [|i IH]; intros [|row0 g] Hrow; simplify_eq/=.
  - clear - Hx. revert row Hx. generalize (Z.to_nat c) as j. intros j.
    induction j as [|j IH]; intros [|y row] Hx; simplify_eq/=.
    + rewrite !filter_cons. destruct (p x), (p (f x)); repeat case_decide; simpl; try done; lia.
    + specialize (IH _ Hx). rewrite !filter_cons. case_decide; simpl; lia.
  - specialize (IH _ Hrow). lia.
Qed.

Lemma countCells_pos p g r c x :
  getCell g r c = Some x → p x = true → (0 < countCells p g)%nat.
Proof.
  intros Hx Hp. apply getCell_Some in Hx as (_ & _ & row & Hrow & Hx).
  unfold countCells.
  assert (0 < length (filter (λ x, p x = true) row))%nat as Hlen.
  { assert (x ∈ filter (λ x, p x = true) row) as Hin.
    { apply list_elem_of_filter. split; [done|]. apply list_elem_of_lookup. eauto. }
    destruct (filter (λ x, p x = true) row) as [|y l] eqn:E;
      [by apply elem_of_nil in Hin|]. simpl. lia. }
  revert Hrow. generalize (Z.to_nat r). revert row Hx Hlen.
  induction g as [|row0 g IH]; intros row Hx Hlen i Hrow; [done|].
  change (0 < length (filter (λ x, p x = true) row0) +
              sum_list ((λ row, length (filter (λ x, p x = true) row)) <$> g))%nat.
  destruct i as [|i]; simpl in Hrow.
  - injection Hrow as ->. lia.
  - specialize (IH _ Hx Hlen _ Hrow). lia.
Qed.

Lemma countCells_Forall2 p g g' :
  Forall2 (Forall2 (λ x y, p y = p x)) g g' → countCells p g' = countCells p g.
Proof.
  unfold countCells. induction 1 as [|row row' g g' Hrow _ IH]; [done|].
  rewrite !fmap_cons. simpl. rewrite IH. f_equal.
  clear -Hrow. induction Hrow as [|x y row row' Hxy _ IH]; [done|].
  destruct (p x) eqn:E.
  - rewrite !filter_cons_True by congruence. simpl. by rewrite IH.
  - rewrite !filter_cons_False by congruence. done.
Qed.

Lemma mineTotal_zero g r c : mineTotal g = 0%nat → minedAt g r c = false.
Proof.
  intros H. unfold minedAt. destruct (getCell g r c) as [x|] eqn:Hx; [|done].
  destruct (hasMine x) eqn:Hm; [|done].
  pose proof (countCells_pos hasMine g r c x Hx Hm). unfold mineTotal in H. lia.
Qed.

Lemma mineTotal_place g r c x :
  getCell g r c = Some x → hasMine x = false →
  mineTotal (updCell (setHasMine true) g r c) = S (mineTotal g).
Proof.
  intros Hx Hm. unfold mineTotal.
  pose proof (countCells_updCell hasMine (setHasMine true) g r c x Hx) as H.
  rewrite Hm in H. simpl in H. lia.
Qed.

Lemma minedAt_place g r c x r' c' :
  getCell g r c = Some x →
  minedAt (updCell (setHasMine true) g r c) r' c' =
  if bool_decide ((r', c') = (r, c)) then true else minedAt g r' c'.
Proof.
  intros Hx. unfold minedAt. rewrite (getCell_updCell _ _ _ _ _ r' c' Hx).
  by case_bool_decide.
Qed.

Lemma minedAt_shape_None g g' r c :
  length <$> g' = length <$> g → rectangular g →
  getCell g r c = None → minedAt g' r c = false.
Proof.
  intros Hshape Hrect Hnone. unfold minedAt.
  destruct (getCell g' r c) as [y|] eqn:Hy; [|done]. exfalso.
  destruct (numColsOf g) as [cols|] eqn:Hcols.
  - assert (is_Some (getCell g' r c)) as Hs by eauto.
    apply (getCell_inBounds g' cols r c) in Hs.
    + rewrite (numRowsOf_shape _ _ Hshape) in Hs.
      apply (getCell_inBounds g cols r c Hrect Hcols) in Hs as [? ?]. congruence.
    + by eapply rectangular_shape.
    + by rewrite (numColsOf_shape _ _ Hshape).
  - apply numColsOf_None in Hcols. subst g. destruct g'; [|done].
    apply getCell_Some in Hy as (_ & _ & ? & ? & _). done.
Qed.

(** ** Loops over indices *)

Lemma forEach_invariant {I S : Type} (body : I → S → outcome S S)
    (P : list I → S → Prop) (items : list I) (s0 : S) :
  P [] s0 →
  (∀ seen i s, P seen s → i ∈ items → ∃ s', body i s = Done s' ∧ P (seen ++ [i]) s') →
  ∃ s', forEach body items s0 = Done s' ∧ P items s'.
Proof.
  intros H0 Hbody.
  assert (Hgen : ∀ todo seen s, P seen s → (∀ i, i ∈ todo → i ∈ items) →
            ∃ s', forEach body todo s = Done s' ∧ P (seen ++ todo) s').
  { induction todo as [|i todo IH]; intros seen s Hs Hsub; simpl.
    - exists s. by rewrite app_nil_r.
    - destruct (Hbody seen i s Hs) as (s' & -> & Hs'); [apply Hsub; left|].
      destruct (IH (seen ++ [i]) s' Hs') as (s'' & -> & Hs'').
      { intros j Hj. apply Hsub. by right. }
      exists s''. by rewrite <- app_assoc in Hs''. }
  apply (Hgen items [] s0 H0). auto.
Qed.

(** * Adjacency counts *)

Lemma countAround_spec m rows cols r c ds count :
  (∀ r c, inBounds rows cols r c = true ↔ is_Some (getCell m r c)) →
  countAround m rows cols r c ds count =
  Some (count + Z.of_nat (length (filter (λ d, minedAt m (r + d.1) (c + d.2) = true) ds))).
Proof.
  intros Hb. revert count. induction ds as [|[dr dc] ds IH]; intros count; simpl.
  - f_equal. lia.
  - destruct (inBounds rows cols (r + dr) (c + dc)) eqn:E.
    + apply Hb in E as [n Hn].
      assert (minedAt m (r + dr) (c + dc) = hasMine n) as Hma
        by (unfold minedAt; by rewrite Hn).
      rewrite Hn. destruct (hasMine n); rewrite IH.
      * rewrite filter_cons_True by done. simpl. f_equal. lia.
      * rewrite filter_cons_False; [done|]. simpl. congruence.
    + assert (minedAt m (r + dr) (c + dc) = false) as Hma.
      { unfold minedAt. destruct (getCell m (r + dr) (c + dc)) as [n|] eqn:Hn; [|done].
        assert (is_Some (getCell m (r + dr) (c + dc))) as Hs by eauto.
        apply Hb in Hs. congruence. }
      rewrite filter_cons_False; [apply IH|]. simpl. congruence.
Qed.

Lemma countCell_spec e m rows cols r c x :
  (∀ r c, inBounds rows cols r c = true ↔ is_Some (getCell m r c)) →
  getCell m r c = Some x →
  countCell e rows cols r c m = Done (updCell (counted e (mooreMines m r c)) m r c).
Proof.
  intros Hb Hx. unfold mooreMines.
  destruct e; simpl; unfold Backend.countCell, Client.countCell; rewrite Hx;
    destruct (hasMine x) eqn:Hm;
    rewrite ?(countAround_spec _ _ _ _ _ _ _ Hb); unfold modCell; rewrite ?Hx; f_equal.
  - symmetry. apply (updCell_fixed _ _ _ _ x Hx). unfold counted. by rewrite Hm.
  - apply (updCell_ext _ _ _ _ _ x Hx). unfold counted. by rewrite Hm.
  - apply (updCell_ext _ _ _ _ _ x Hx). unfold counted. by rewrite Hm.
  - apply (updCell_ext _ _ _ _ _ x Hx). unfold counted. by rewrite Hm.
Qed.

Lemma counted_hasMine e n x : hasMine (counted e n x) = hasMine x.
Proof. unfold counted. destruct (hasMine x) eqn:E; destruct e; done. Qed.

Lemma counted_idem e n x : counted e n (counted e n x) = counted e n x.
Proof. unfold counted. destruct (hasMine x) eqn:E; destruct e; simpl; rewrite ?E; done. Qed.

Lemma countedUpTo_minedAt e g D m r c :
  countedUpTo e g D m → minedAt m r c = minedAt g r c.
Proof.
  intros (_ & Hnone & Hsome). unfold minedAt.
  destruct (getCell g r c) as [x|] eqn:Hx.
  - destruct (Hsome _ _ _ Hx) as [[->| ->] _]; [done|]. apply counted_hasMine.
  - by rewrite (Hnone _ _ Hx).
Qed.

Lemma countedUpTo_mooreMines e g D m r c :
  countedUpTo e g D m → mooreMines m r c = mooreMines g r c.
Proof.
  intros H. unfold mooreMines. f_equal. f_equal. apply list_filter_iff.
  intros d. by rewrite (countedUpTo_minedAt e g D m).
Qed.

Lemma countedUpTo_weaken e g (D D' : Z → Z → Prop) m :
  (∀ r c, is_Some (getCell g r c) → D' r c → D r c) →
  countedUpTo e g D m → countedUpTo e g D' m.
Proof.
  intros HD (Hshape & Hnone & Hsome). split_and!; [done..|].
  intros r c x Hx. destruct (Hsome _ _ _ Hx) as [H1 H2]. split; [done|].
  intros H'. apply H2, HD; eauto.
Qed.

Lemma countedUpTo_step e g cols D m r c :
  rectangular g → numColsOf g = Some cols →
  countedUpTo e g D m → inBounds (numRowsOf g) cols r c = true →
  ∃ m', countCell e (numRowsOf g) cols r c m = Done m' ∧
        countedUpTo e g (λ r' c', D r' c' ∨ (r', c') = (r, c)) m'.
Proof.
  intros Hrect Hcols Hm Hin. pose proof Hm as (Hshape & Hnone & Hsome).
  pose proof (rectangular_shape _ _ Hshape Hrect) as Hrect'.
  pose proof (numColsOf_shape _ _ Hshape) as Hcols'. rewrite Hcols in Hcols'.
  assert (Hb : ∀ r c, inBounds (numRowsOf g) cols r c = true ↔ is_Some (getCell m r c)).
  { intros r' c'. rewrite <- (numRowsOf_shape _ _ Hshape). symmetry.
    by apply getCell_inBounds. }
  destruct (proj2 (getCell_inBounds g cols r c Hrect Hcols) Hin) as [x Hx].
  assert (∃ y, getCell m r c = Some y ∧ counted e (mooreMines g r c) y =
                                         counted e (mooreMines g r c) x) as (y & Hy & Hyx).
  { destruct (Hsome _ _ _ Hx) as [[H|H] _]; eexists; (split; [exact H|]);
      [done|apply counted_idem]. }
  eexists. split; [apply (countCell_spec e m _ _ r c y Hb Hy)|].
  rewrite (countedUpTo_mooreMines e g D m r c Hm).
  split_and!.
  - by rewrite updCell_row_lengths.
  - intros r' c' Hx'. rewrite (getCell_updCell _ _ _ _ _ r' c' Hy).
    destruct (bool_decide_reflect ((r', c') = (r, c))) as [E|E]; [|by apply Hnone].
    injection E as -> ->. congruence.
  - intros r' c' x' Hx'. rewrite (getCell_updCell _ _ _ _ _ r' c' Hy).
    destruct (bool_decide_reflect ((r', c') = (r, c))) as [E|E].
    + injection E as -> ->. assert (x' = x) as -> by congruence.
      rewrite Hyx. split; [by right|done].
    + destruct (Hsome _ _ _ Hx') as [H1 H2]. split; [done|].
      intros [HD|HD]; [by apply H2|done].
Qed.

Lemma countedUpTo_start e g : countedUpTo e g (λ _ _, False) g.
Proof. split_and!; [done..|]. intros r c x Hx. split; [by left|done]. Qed.

(** What [countAdjacentMines] returns on a rectangular grid with at least
    one row: the grid in which every cell holds its count. *)
Lemma countAdjacentMines_counted e g :
  rectangular g → g ≠ [] →
  ∃ g', countAdjacentMines e g = Done g' ∧ countedUpTo e g (λ _ _, True) g'.
Proof.
  intros Hrect Hne. destruct (numColsOf_nonempty g Hne) as [cols Hcols].
  assert (countAdjacentMines e g =
          forEach (λ r, forEach (countCell e (numRowsOf g) cols r) (seqZ 0 cols))
            (seqZ 0 (numRowsOf g)) g) as ->.
  { destruct e; simpl; unfold Backend.countAdjacentMines, Client.countAdjacentMines;
      by rewrite Hcols. }
  destruct (forEach_invariant
    (λ r, forEach (countCell e (numRowsOf g) cols r) (seqZ 0 cols))
    (λ seen m, countedUpTo e g (λ r _, r ∈ seen) m) (seqZ 0 (numRowsOf g)) g)
    as (g' & Hrun & Hg').
  - eapply countedUpTo_weaken; [|apply countedUpTo_start].
    intros r c _ Hin. by apply elem_of_nil in Hin.
  - intros seen r m Hm Hr. apply elem_of_seqZ in Hr.
    destruct (forEach_invariant (countCell e (numRowsOf g) cols r)
      (λ seenc m, countedUpTo e g (λ r' c', r' ∈ seen ∨ (r' = r ∧ c' ∈ seenc)) m)
      (seqZ 0 cols) m) as (m' & Hrun & Hm').
    + eapply countedUpTo_weaken; [|exact Hm].
      intros r' c' _ [H|[_ H]]; [done|by apply elem_of_nil in H].
    + intros seenc c m1 Hm1 Hc. apply elem_of_seqZ in Hc.
      destruct (countedUpTo_step e g cols _ m1 r c Hrect Hcols Hm1) as (m2 & Hrun & Hm2).
      { apply inBounds_iff. lia. }
      exists m2. split; [done|]. eapply countedUpTo_weaken; [|exact Hm2].
      intros r' c' _ [H|[-> H]]; [by left; left|].
      apply elem_of_app in H as [H|H]; [left; right; done|].
      apply list_elem_of_singleton in H as ->. by right.
    + exists m'. split; [done|]. eapply countedUpTo_weaken; [|exact Hm'].
      intros r' c' Hs H. apply elem_of_app in H as [H|H]; [by left|].
      apply list_elem_of_singleton in H as ->. right. split; [done|].
      apply (getCell_inBounds g cols r c' Hrect Hcols), inBounds_iff in Hs.
      apply elem_of_seqZ. lia.
  - exists g'. split; [done|]. eapply countedUpTo_weaken; [|exact Hg'].
    intros r c Hs _. apply (getCell_inBounds g cols r c Hrect Hcols), inBounds_iff in Hs.
    apply elem_of_seqZ. lia.
Qed.

Lemma counted_fields e n x :
  hasMine (counted e n x) = hasMine x ∧ revealed (counted e n x) = revealed x ∧
  flagged (counted e n x) = flagged x.
Proof. unfold counted. destruct (hasMine x) eqn:E; destruct e; done. Qed.

Lemma counted_adjacentMines e n x :
  hasMine x = false → adjacentMines (counted e n x) = n.
Proof. unfold counted. by intros ->. Qed.

Lemma countsCorrectb_sound g :
  rectangular g → countsCorrectb g = true → countsCorrect g.
Proof.
  intros Hrect H r c x Hx Hmine. unfold countsCorrectb in H.
  rewrite forallb_forall in H.
  assert ((r, c) ∈ gridPositions g) as Hin by (apply elem_of_gridPositions; eauto).
  apply list_elem_of_In, H in Hin. simpl in Hin. rewrite Hx, Hmine in Hin.
  simpl in Hin. by apply Z.eqb_eq.
Qed.

(** C1: after [countAdjacentMines], every cell that is not mined holds in
    [adjacentMines] the exact number of cells of its Moore neighbourhood,
    clipped at the grid boundary, that are mined.  On every rectangular
    grid the call changes no field but [adjacentMines]; it returns when
    the grid has a row, and on the grid without rows, which has no cell,
    it raises at [grid[0].length].  This holds of both copies of the
    engine. *)
Theorem countAdjacentMines_exact (e : engine) (g : Grid) :
  rectangular g →
  (g ≠ [] → ∃ g', countAdjacentMines e g = Done g') ∧
  match countAdjacentMines e g with
  | Done g' | Threw g' =>
      sameButCounts g g' ∧
      ∀ r c x, getCell g' r c = Some x → hasMine x = false →
               adjacentMines x = mooreMines g' r c
  | OutOfFuel => False
  end.
Proof.
  intros Hrect. destruct (decide (g = [])) as [->|Hne].
  { split; [done|]. assert (countAdjacentMines e [] = Threw []) as -> by (by destruct e).
    split; [constructor|]. intros r c x Hx.
    apply getCell_Some in Hx as (_ & _ & ? & ? & _). done. }
  destruct (countAdjacentMines_counted e g Hrect Hne) as (g' & Hrun & Hg').
  split; [eauto|]. rewrite Hrun. pose proof Hg' as (Hshape & Hnone & Hsome). split.
  - apply Forall2_grid; [done|]. intros r c x y Hx Hy.
    destruct (Hsome _ _ _ Hx) as [_ H]. rewrite (H I) in Hy. injection Hy as <-.
    apply counted_fields.
  - intros r c y Hy Hmine.
    destruct (getCell g r c) as [x|] eqn:Hx; [|by rewrite (Hnone _ _ Hx) in Hy].
    destruct (Hsome _ _ _ Hx) as [_ H]. rewrite (H I) in Hy. injection Hy as <-.
    rewrite counted_hasMine in Hmine.
    rewrite (countedUpTo_mooreMines e g _ g' r c Hg').
    by apply counted_adjacentMines.
Qed.

Lemma cornerMine_rectangular : rectangular cornerMine.
Proof. repeat constructor. Qed.

Lemma countAdjacentMines_exact_witness :
  ∃ g', countAdjacentMines client cornerMine = Done g' ∧
        sameButCounts cornerMine g' ∧
        ∀ r c x, getCell g' r c = Some x → hasMine x = false →
                 adjacentMines x = mooreMines g' r c.
Proof.
  destruct (countAdjacentMines_exact client cornerMine cornerMine_rectangular)
    as [Hruns Hpost].
  destruct Hruns as [g' Hrun]; [discriminate|].
  rewrite Hrun in Hpost. exists g'. split; assumption.
Defined.

(** * Flood reveal *)

(** ** The loop, whatever the memory *)

Lemma pushNeighbours_eq r c stack :
  pushNeighbours r c stack =
  [(r + 1, c + 1); (r + 1, c + 0); (r + 1, c + -1); (r + 0, c + 1);
   (r + 0, c + -1); (r + -1, c + 1); (r + -1, c + 0); (r + -1, c + -1)] ++ stack.
Proof. reflexivity. Qed.

Lemma pushNeighbours_length r c stack :
  length (pushNeighbours r c stack) = (8 + length stack)%nat.
Proof. reflexivity. Qed.

Lemma pushNeighbours_elem r c stack p :
  p ∈ pushNeighbours r c stack ↔
  p ∈ stack ∨ ∃ d, d ∈ directions ∧ p = (r + d.1, c + d.2).
Proof.
  rewrite pushNeighbours_eq, elem_of_app. unfold directions. split.
  - intros [H|H]; [right|by left].
    repeat (apply elem_of_cons in H as [->|H]; [eexists (_, _); split; [|reflexivity]; set_solver|]).
    by apply elem_of_nil in H.
  - intros [H|(d & Hd & ->)]; [by right|left].
    repeat (apply elem_of_cons in Hd as [->|Hd]; [set_solver|]).
    by apply elem_of_nil in Hd.
Qed.

Section FloodFacts.

Context {M : Type}.

Variable cellAt : M → Z → Z → option Cell.

Variable reveal : M → Z → Z → M.

Variable test : M → gset (Z * Z) → Z → Z → option bool.

(** A property of the memory, the stack and the visited set that every
    iteration keeps decides what the loop leaves behind. *)
Lemma floodLoop_invariant
    (Inv : M → list (Z * Z) → gset (Z * Z) → Prop) (P Q : M → Prop) :
  (∀ m s v, Inv m s v →
     match floodStep cellAt reveal test m s v with
     | Continue m' s' v' => Inv m' s' v'
     | Halt m' => P m'
     | Raise m' => Q m'
     end) →
  ∀ fuel m s v, Inv m s v →
     match floodLoop cellAt reveal test fuel m s v with
     | Done m' => P m'
     | Threw m' => Q m'
     | OutOfFuel => True
     end.
Proof.
  intros Hstep fuel. induction fuel as [|fuel IH]; intros m s v HInv; simpl; [done|].
  specialize (Hstep m s v HInv).
  destruct (floodStep cellAt reveal test m s v); [by apply IH|done..].
Qed.

(** More fuel does not change a result. *)
Lemma floodLoop_fuel_mono fuel fuel' m s v :
  floodLoop cellAt reveal test fuel m s v ≠ OutOfFuel → (fuel ≤ fuel')%nat →
  floodLoop cellAt reveal test fuel' m s v = floodLoop cellAt reveal test fuel m s v.
Proof.
  revert fuel' m s v. induction fuel as [|fuel IH]; intros fuel' m s v Hne Hle; simpl in *; [done|].
  destruct fuel' as [|fuel']; [lia|]. simpl.
  destruct (floodStep cellAt reveal test m s v); auto. apply IH; [done|lia].
Qed.

Variable hidden : M → nat.

Hypothesis test_reads : ∀ m v r c,
  test m v r c = Some true → ∃ x, cellAt m r c = Some x ∧ revealed x = false.

Hypothesis reveal_hidden : ∀ m r c x,
  cellAt m r c = Some x → revealed x = false → (hidden (reveal m r c) < hidden m)%nat.

(** The loop ends: an iteration either drops the top of the stack, or
    reveals a hidden cell and pushes eight coordinates. *)
Lemma floodLoop_terminates fuel m s v :
  (9 * hidden m + length s < fuel)%nat →
  floodLoop cellAt reveal test fuel m s v ≠ OutOfFuel.
Proof.
  revert m s v. induction fuel as [|fuel IH]; intros m s v Hlt; [lia|]. simpl.
  unfold floodStep. destruct s as [|[r c] rest]; [done|]. simpl in Hlt.
  destruct (test m v r c) as [[]|] eqn:Ht; [| apply IH; lia | done].
  destruct (test_reads _ _ _ _ Ht) as (x & Hx & Hrev).
  pose proof (reveal_hidden _ _ _ _ Hx Hrev) as Hdec.
  destruct (cellAt (reveal m r c) r c) as [y|]; [|done].
  destruct (_ && _); apply IH; rewrite ?pushNeighbours_length; lia.
Qed.

End FloodFacts.

(** Two runs on related memories go the same way. *)
Section FloodSim.

Context {M1 M2 : Type}.

Variable cellAt1 : M1 → Z → Z → option Cell.

Variable reveal1 : M1 → Z → Z → M1.

Variable test1 : M1 → gset (Z * Z) → Z → Z → option bool.

Variable cellAt2 : M2 → Z → Z → option Cell.

Variable reveal2 : M2 → Z → Z → M2.

Variable test2 : M2 → gset (Z * Z) → Z → Z → option bool.

Variable R : M1 → M2 → gset (Z * Z) → Prop.

Hypothesis R_test : ∀ m1 m2 v r c, R m1 m2 v → test1 m1 v r c = test2 m2 v r c.

Hypothesis R_reveal : ∀ m1 m2 v r c,
  R m1 m2 v → test1 m1 v r c = Some true →
  R (reveal1 m1 r c) (reveal2 m2 r c) ({[ (r, c) ]} ∪ v).

Hypothesis R_cell : ∀ m1 m2 v r c,
  R m1 m2 v →
  match cellAt1 m1 r c, cellAt2 m2 r c with
  | Some x, Some y => adjacentMines x = adjacentMines y ∧ hasMine x = hasMine y
  | None, None => True
  | _, _ => False
  end.

Lemma floodLoop_sim fuel m1 m2 s v :
  R m1 m2 v →
  sameOutcome R (floodLoop cellAt1 reveal1 test1 fuel m1 s v)
              (floodLoop cellAt2 reveal2 test2 fuel m2 s v).
Proof.
  revert m1 m2 s v. induction fuel as [|fuel IH]; intros m1 m2 s v HR; simpl; [done|].
  unfold floodStep. destruct s as [|[r c] rest]; simpl; [eauto|].
  rewrite <- (R_test _ _ _ r c HR).
  destruct (test1 m1 v r c) as [[]|] eqn:Ht; simpl; [| by apply IH | eauto].
  pose proof (R_reveal _ _ _ _ _ HR Ht) as HR'.
  pose proof (R_cell _ _ _ r c HR') as Hc.
  destruct (cellAt1 (reveal1 m1 r c) r c) as [x|],
           (cellAt2 (reveal2 m2 r c) r c) as [y|]; simpl; try done; [|eauto].
  destruct Hc as [-> ->]. destruct (_ && _); by apply IH.
Qed.

End FloodSim.

(** ** The flood on grid values *)

Lemma onlyReveals_refl g : onlyReveals g g.
Proof.
  unfold onlyReveals. apply Forall_Forall2_diag, Forall_forall. intros row _.
  apply Forall_Forall2_diag, Forall_forall. intros x _. done.
Qed.

Lemma onlyReveals_markRevealed g g' r c :
  onlyReveals g g' → onlyReveals g (markRevealed g' r c).
Proof.
  unfold onlyReveals, updCell. intros H.
  apply Forall2_alter_r; [done|]. intros row row' _ _ Hrow.
  apply Forall2_alter_r; [done|]. intros x y _ _ (? & ? & ? & ?). done.
Qed.

Lemma onlyReveals_shape g g' : onlyReveals g g' → length <$> g' = length <$> g.
Proof.
  unfold onlyReveals. induction 1 as [|row row' g g' Hrow _ IH]; simpl; [done|].
  f_equal; [|done]. symmetry. by eapply Forall2_length.
Qed.

Lemma onlyReveals_getCell g g' r c x :
  onlyReveals g g' → getCell g r c = Some x →
  ∃ y, getCell g' r c = Some y ∧ hasMine y = hasMine x ∧
       adjacentMines y = adjacentMines x ∧ flagged y = flagged x ∧
       (revealed x = true → revealed y = true).
Proof.
  intros H Hx. apply getCell_Some in Hx as (Hr & Hc & row & Hrow & Hx).
  destruct (Forall2_lookup_l _ _ _ _ _ H Hrow) as (row' & Hrow' & Hrows).
  destruct (Forall2_lookup_l _ _ _ _ _ Hrows Hx) as (y & Hy & Hxy).
  exists y. split; [|done]. apply getCell_Some. eauto 6.
Qed.

Lemma onlyReveals_getCell_None g g' r c :
  onlyReveals g g' → getCell g r c = None → getCell g' r c = None.
Proof.
  intros H Hx. destruct (getCell g' r c) as [y|] eqn:Hy; [|done].
  apply getCell_Some in Hy as (Hr & Hc & row' & Hrow' & Hy).
  destruct (Forall2_lookup_r _ _ _ _ _ H Hrow') as (row & Hrow & Hrows).
  destruct (Forall2_lookup_r _ _ _ _ _ Hrows Hy) as (x & Hx' & _).
  assert (getCell g r c = Some x) by (apply getCell_Some; eauto 6). congruence.
Qed.

Lemma onlyReveals_getCell_r g g' r c y :
  onlyReveals g g' → getCell g' r c = Some y →
  ∃ x, getCell g r c = Some x ∧ hasMine y = hasMine x ∧
       adjacentMines y = adjacentMines x ∧ flagged y = flagged x ∧
       (revealed x = true → revealed y = true).
Proof.
  intros H Hy. destruct (getCell g r c) as [x|] eqn:Hx.
  - destruct (onlyReveals_getCell _ _ _ _ _ H Hx) as (y' & Hy' & Hrel).
    exists x. split; [done|]. congruence.
  - rewrite (onlyReveals_getCell_None _ _ _ _ H Hx) in Hy. done.
Qed.

Lemma hiddenCells_markRevealed g r c x :
  getCell g r c = Some x → revealed x = false →
  (hiddenCells (markRevealed g r c) < hiddenCells g)%nat.
Proof.
  intros Hx Hrev. unfold hiddenCells, markRevealed.
  pose proof (countCells_updCell (λ x, negb (revealed x)) (setRevealed true) g r c x Hx) as H.
  simpl in H. rewrite Hrev in H. simpl in H. lia.
Qed.

Lemma Backend_isSafe_true rows cols g v r c :
  Backend.isSafe rows cols g v r c = Some true ↔
  inBounds rows cols r c = true ∧ ((r, c) ∉ v) ∧
  (∃ x, getCell g r c = Some x ∧ revealed x = false).
Proof.
  unfold Backend.isSafe. destruct (inBounds rows cols r c).
  2:{ split; [done|]. intros [? _]. done. }
  destruct (getCell g r c) as [x|].
  2:{ split; [done|]. intros (_ & _ & ? & ? & _). done. }
  destruct (revealed x) eqn:E; simpl.
  { split; [done|]. intros (_ & _ & ? & [= <-] & ?). congruence. }
  destruct (bool_decide_reflect ((r, c) ∈ v)); simpl.
  - split; [done|]. intros (_ & ? & _). done.
  - split; [eauto|done].
Qed.

Lemma Client_mayVisit_true rows cols g v r c :
  Client.mayVisit rows cols g v r c = Some true ↔
  inBounds rows cols r c = true ∧ ((r, c) ∉ v) ∧
  (∃ x, getCell g r c = Some x ∧ revealed x = false).
Proof.
  unfold Client.mayVisit. destruct (inBounds rows cols r c).
  2:{ split; [done|]. intros [? _]. done. }
  destruct (bool_decide_reflect ((r, c) ∈ v)); simpl.
  { split; [done|]. intros (_ & ? & _). done. }
  destruct (getCell g r c) as [x|].
  2:{ split; [done|]. intros (_ & _ & ? & ? & _). done. }
  destruct (revealed x) eqn:E; simpl.
  - split; [done|]. intros (_ & _ & ? & [= <-] & ?). congruence.
  - split; [eauto|done].
Qed.

Lemma Backend_floodLoop_fuel rows cols fuel g s v :
  (9 * hiddenCells g + length s < fuel)%nat →
  floodLoop getCell markRevealed (Backend.isSafe rows cols) fuel g s v ≠ OutOfFuel.
Proof.
  apply (floodLoop_terminates _ _ _ hiddenCells).
  - intros m v' r c H. apply Backend_isSafe_true in H. tauto.
  - intros m r c x. apply hiddenCells_markRevealed.
Qed.

Lemma Client_floodLoop_fuel rows cols fuel g s v :
  (9 * hiddenCells g + length s < fuel)%nat →
  floodLoop getCell markRevealed (Client.mayVisit rows cols) fuel g s v ≠ OutOfFuel.
Proof.
  apply (floodLoop_terminates _ _ _ hiddenCells).
  - intros m v' r c H. apply Client_mayVisit_true in H. tauto.
  - intros m r c x. apply hiddenCells_markRevealed.
Qed.

(** The loop of [revealCellsDFS] always ends. *)
Lemma Backend_revealCellsDFS_ends g row col : Backend.revealCellsDFS g row col ≠ OutOfFuel.
Proof.
  unfold Backend.revealCellsDFS. destruct (numColsOf g); [|done].
  apply Backend_floodLoop_fuel. unfold floodFuel. simpl. lia.
Qed.

Lemma Client_revealCellsDFS_ends g row col : Client.revealCellsDFS g row col ≠ OutOfFuel.
Proof.
  unfold Client.revealCellsDFS. destruct (numColsOf g); [|done].
  apply Client_floodLoop_fuel. unfold floodFuel. simpl. lia.
Qed.

(** The two copies of [revealCellsDFS] compute the same thing: their
    guards differ in the order of the tests only, and a visited cell is a
    revealed cell of the grid. *)
Lemma Client_revealCellsDFS_Backend g row col :
  Client.revealCellsDFS g row col = Backend.revealCellsDFS g row col.
Proof.
  unfold Client.revealCellsDFS, Backend.revealCellsDFS.
  destruct (numColsOf g) as [cols|]; [|done].
  assert (Hgoal : sameOutcome visitedAreRevealed
    (floodLoop getCell markRevealed (Client.mayVisit (numRowsOf g) cols)
       (floodFuel (hiddenCells g)) g [(row, col)] ∅)
    (floodLoop getCell markRevealed (Backend.isSafe (numRowsOf g) cols)
       (floodFuel (hiddenCells g)) g [(row, col)] ∅)).
  { apply floodLoop_sim.
    - intros m1 m2 v r c [<- Hv]. unfold Client.mayVisit, Backend.isSafe.
      destruct (inBounds _ _ r c); [|done].
      destruct (bool_decide_reflect ((r, c) ∈ v)) as [Hin|Hin].
      + destruct (Hv _ _ Hin) as (x & Hx & Hrev). by rewrite Hx, Hrev.
      + destruct (getCell m1 r c); [|done]. by rewrite andb_true_r.
    - intros m1 m2 v r c [<- Hv] Ht. split; [done|].
      apply Client_mayVisit_true in Ht as (_ & _ & x & Hx & _).
      intros r' c' Hin. unfold markRevealed.
      rewrite (getCell_updCell _ _ _ _ _ r' c' Hx).
      destruct (bool_decide_reflect ((r', c') = (r, c))) as [E|E]; [eauto|].
      apply Hv. apply elem_of_union in Hin as [Hin|Hin]; [|done].
      by apply elem_of_singleton in Hin.
    - intros m1 m2 v r c [<- _]. by destruct (getCell m1 r c).
    - split; [done|]. intros r c Hin. by apply not_elem_of_empty in Hin. }
  unfold sameOutcome, visitedAreRevealed in Hgoal.
  destruct (floodLoop getCell markRevealed _ _ _ _ _),
           (floodLoop getCell markRevealed _ _ _ _ _); try done;
    destruct Hgoal as (? & -> & _); done.
Qed.

Lemma revealCellsDFS_unfold e g row col :
  revealCellsDFS e g row col =
  match numColsOf g with
  | None => Threw g
  | Some cols =>
      floodLoop getCell markRevealed
        (floodGuard e (numRowsOf g) cols) (floodFuel (hiddenCells g)) g [(row, col)] ∅
  end.
Proof. by destruct e. Qed.

Lemma floodGuard_true e rows cols g v r c :
  floodGuard e rows cols g v r c = Some true ↔
  inBounds rows cols r c = true ∧ ((r, c) ∉ v) ∧
  (∃ x, getCell g r c = Some x ∧ revealed x = false).
Proof. destruct e; [apply Backend_isSafe_true | apply Client_mayVisit_true]. Qed.

Lemma floodGuard_None e rows cols g v r c :
  floodGuard e rows cols g v r c = None →
  inBounds rows cols r c = true ∧ getCell g r c = None.
Proof.
  destruct e; simpl; unfold Backend.isSafe, Client.mayVisit;
    destruct (inBounds rows cols r c); try done;
    repeat case_match; done.
Qed.

Lemma revealCellsDFS_ends e g row col : revealCellsDFS e g row col ≠ OutOfFuel.
Proof. destruct e; [apply Backend_revealCellsDFS_ends | apply Client_revealCellsDFS_ends]. Qed.

(** Whatever the flood loop leaves behind differs from where it started by
    reveals only. *)
Lemma floodLoop_onlyReveals e rows cols g0 fuel g s v :
  onlyReveals g0 g →
  match floodLoop getCell markRevealed
          (floodGuard e rows cols) fuel g s v with
  | Done g' => onlyReveals g0 g'
  | Threw g' => onlyReveals g0 g'
  | OutOfFuel => True
  end.
Proof.
  intros H.
  apply (floodLoop_invariant _ _ _ (λ m _ _, onlyReveals g0 m)
           (onlyReveals g0) (onlyReveals g0)); [|done].
  clear. intros m s v Hm. unfold floodStep.
  destruct s as [|[r c] rest]; [done|].
  destruct (floodGuard e rows cols m v r c) as [[]|]; [|done..].
  pose proof (onlyReveals_markRevealed _ _ r c Hm) as Hm'.
  destruct (getCell _ r c); [|done]. by destruct (_ && _).
Qed.

(** Returning or raising, [revealCellsDFS] leaves a grid that differs
    from its argument by reveals only; and it always ends. *)
Lemma revealCellsDFS_frame (e : engine) (g : Grid) (row col : Z) :
  match revealCellsDFS e g row col with
  | Done g' => onlyReveals g g'
  | Threw g' => onlyReveals g g'
  | OutOfFuel => False
  end.
Proof.
  pose proof (revealCellsDFS_ends e g row col) as Hends.
  rewrite revealCellsDFS_unfold in *.
  destruct (numColsOf g) as [cols|]; [|apply onlyReveals_refl].
  pose proof (floodLoop_onlyReveals e (numRowsOf g) cols g (floodFuel (hiddenCells g))
                g [(row, col)] ∅ (onlyReveals_refl g)) as H.
  by destruct (floodLoop _ _ _ _ _ _ _).
Qed.

(** C10: [revealCellsDFS] only ever turns [revealed] from false to true.
    For every grid and seed, whether the call returns or raises, the grid
    it leaves has the shape of the one it was given, every cell that was
    revealed is still revealed, and [hasMine], [flagged] and
    [adjacentMines] of every cell are what they were; and the call always
    ends.  This holds of both copies of the engine. *)
Theorem revealCellsDFS_only_reveals (e : engine) (g : Grid) (row col : Z) :
  match revealCellsDFS e g row col with
  | Done g' | Threw g' =>
      onlyReveals g g' ∧
      ∀ r c x, getCell g r c = Some x →
        ∃ y, getCell g' r c = Some y ∧
             hasMine y = hasMine x ∧ adjacentMines y = adjacentMines x ∧
             flagged y = flagged x ∧ (revealed x = true → revealed y = true)
  | OutOfFuel => False
  end.
Proof.
  pose proof (revealCellsDFS_frame e g row col) as H.
  destruct (revealCellsDFS e g row col) as [g'|g'|]; [| |done];
    (split; [done|]); intros r c x Hx; by apply (onlyReveals_getCell g).
Qed.

(** On a rectangular grid the guard never raises, and an iteration comes
    down to this. *)
Lemma floodStep_rectangular e g0 cols m s v :
  rectangular g0 → numColsOf g0 = Some cols → onlyReveals g0 m →
  floodStep getCell markRevealed
    (floodGuard e (numRowsOf g0) cols) m s v =
  match s with
  | [] => Halt m
  | (r, c) :: rest =>
      match getCell m r c with
      | Some x =>
          if negb (revealed x) && negb (bool_decide ((r, c) ∈ v)) then
            Continue (markRevealed m r c)
              (if (adjacentMines x =? 0) && negb (hasMine x)
               then pushNeighbours r c rest else rest)
              ({[ (r, c) ]} ∪ v)
          else Continue m rest v
      | None => Continue m rest v
      end
  end.
Proof.
  intros Hrect Hcols Hm. unfold floodStep. destruct s as [|[r c] rest]; [done|].
  pose proof (onlyReveals_shape _ _ Hm) as Hshape.
  pose proof (rectangular_shape _ _ Hshape Hrect) as Hrect'.
  pose proof (numColsOf_shape _ _ Hshape) as Hcols'. rewrite Hcols in Hcols'.
  pose proof (getCell_inBounds m cols r c Hrect' Hcols') as Hin.
  rewrite (numRowsOf_shape _ _ Hshape) in Hin.
  destruct (floodGuard e (numRowsOf g0) cols m v r c) as [[]|] eqn:Hg.
  - apply floodGuard_true in Hg as (_ & Hv & x & Hx & Hrev).
    rewrite (getCell_markRevealed _ _ _ _ r c Hx), bool_decide_eq_true_2 by done.
    rewrite Hx, Hrev, bool_decide_eq_false_2 by done. simpl.
    by destruct (_ && _).
  - destruct (getCell m r c) as [x|] eqn:Hx; [|done].
    destruct (negb (revealed x) && negb (bool_decide ((r, c) ∈ v))) eqn:E; [|done].
    apply andb_true_iff in E as [E1 E2].
    apply negb_true_iff in E1. apply negb_true_iff, bool_decide_eq_false in E2.
    assert (floodGuard e (numRowsOf g0) cols m v r c = Some true) as Hg'.
    { apply floodGuard_true. split_and!; [apply Hin; eauto | done | eauto]. }
    congruence.
  - apply floodGuard_None in Hg as [Hb Hnone]. apply Hin in Hb as [x Hx]. congruence.
Qed.

(** On a rectangular grid with at least one row the flood returns. *)
Lemma revealCellsDFS_total e g row col :
  rectangular g → g ≠ [] → ∃ g', revealCellsDFS e g row col = Done g'.
Proof.
  intros Hrect Hne. pose proof (revealCellsDFS_ends e g row col) as Hends.
  rewrite revealCellsDFS_unfold in *.
  destruct (numColsOf_nonempty g Hne) as [cols Hcols]. rewrite Hcols in *.
  pose proof (floodLoop_invariant getCell markRevealed
    (floodGuard e (numRowsOf g) cols) (λ m _ _, onlyReveals g m)
    (λ _, True) (λ _, False)) as H.
  specialize (H ltac:(
    intros m s v Hm; rewrite (floodStep_rectangular e g cols m s v Hrect Hcols Hm);
    destruct s as [|[r c] rest]; [done|];
    destruct (getCell m r c); [|done];
    destruct (_ && _); [|done]; by apply onlyReveals_markRevealed)).
  specialize (H (floodFuel (hiddenCells g)) g [(row, col)] ∅ (onlyReveals_refl g)).
  destruct (floodLoop _ _ _ _ _ _ _); [eauto|done..].
Qed.

(** C6: [revealCellsDFS] is idempotent.  For every grid and seed, when the
    call returns a grid, the same call on that grid returns it unchanged,
    so the revealed set is what it was after the first call.  This holds of
    both copies of the engine. *)
Theorem revealCellsDFS_idempotent (e : engine) (g g1 : Grid) (row col : Z) :
  revealCellsDFS e g row col = Done g1 →
  revealCellsDFS e g1 row col = Done g1.
Proof.
  intros Hrun.
  pose proof (revealCellsDFS_frame e g row col) as Hframe.
  rewrite Hrun in Hframe. pose proof (onlyReveals_shape _ _ Hframe) as Hshape.
  rewrite revealCellsDFS_unfold in *.
  rewrite (numColsOf_shape _ _ Hshape), (numRowsOf_shape _ _ Hshape).
  destruct (numColsOf g) as [cols|]; [|done].
  (* what the seed is after the first run *)
  assert (Hseed : floodGuard e (numRowsOf g) cols g1 ∅ row col = Some false).
  { change (floodFuel (hiddenCells g)) with (S (S (9 * hiddenCells g))) in Hrun.
    remember (S (9 * hiddenCells g)) as fuel1 eqn:Hfuel1. clear Hfuel1.
    simpl in Hrun. unfold floodStep in Hrun.
    destruct (floodGuard e (numRowsOf g) cols g ∅ row col) as [[]|] eqn:Hg; [| |done].
    - apply floodGuard_true in Hg as (Hb & _ & x & Hx & Hrev).
      assert (∃ y, getCell g1 row col = Some y ∧ revealed y = true) as (y & Hy & Hyrev).
      { rewrite (getCell_markRevealed _ _ _ _ row col Hx), bool_decide_eq_true_2 in Hrun by done.
        pose proof (floodLoop_onlyReveals e (numRowsOf g) cols
          (markRevealed g row col)) as Hinv.
        destruct (_ && _);
          match type of Hrun with
          | floodLoop _ _ _ ?f ?m ?s ?v = _ =>
              specialize (Hinv f m s v (onlyReveals_refl _)); rewrite Hrun in Hinv
          end;
          (eapply onlyReveals_getCell in Hinv as (y & Hy & _ & _ & _ & Hr);
             [|by rewrite (getCell_markRevealed _ _ _ _ row col Hx), bool_decide_eq_true_2]);
          exists y; (split; [done|by apply Hr]). }
      destruct (floodGuard e (numRowsOf g) cols g1 ∅ row col) as [[]|] eqn:Hg1; [|done|].
      + apply floodGuard_true in Hg1 as (_ & _ & y' & Hy' & Hrev'). congruence.
      + apply floodGuard_None in Hg1 as [_ Hnone]. congruence.
    - destruct (floodGuard e (numRowsOf g) cols g1 ∅ row col) as [[]|] eqn:Hg1; [|done|].
      + apply floodGuard_true in Hg1 as (Hb & Hv & y & Hy & Hrev).
        destruct (onlyReveals_getCell_r _ _ _ _ _ Hframe Hy) as (x & Hx & _ & _ & _ & Hr).
        assert (floodGuard e (numRowsOf g) cols g ∅ row col = Some true) as Hg'.
        { apply floodGuard_true. split_and!; [done..|]. exists x. split; [done|].
          destruct (revealed x); [|done]. rewrite Hr in Hrev; done. }
        congruence.
      + apply floodGuard_None in Hg1 as [Hb Hnone].
        destruct (getCell g row col) as [x|] eqn:Hx.
        * destruct (onlyReveals_getCell _ _ _ _ _ Hframe Hx) as (y & Hy & _). congruence.
        * assert (floodGuard e (numRowsOf g) cols g ∅ row col = None) as Hg'.
          { destruct e; simpl; unfold Backend.isSafe, Client.mayVisit;
              rewrite Hb, Hx; [done|]. by rewrite bool_decide_eq_false_2 by set_solver. }
          congruence. }
  unfold floodFuel. simpl. unfold floodStep at 1. rewrite Hseed. done.
Qed.

Lemma revealCellsDFS_idempotent_witness :
  revealCellsDFS client cornerMineCounted 0 0 = Done cornerMineWon ∧
  revealCellsDFS client cornerMineWon 0 0 = Done cornerMineWon.
Proof.
  split.
  - by vm_compute.
  - apply (revealCellsDFS_idempotent client cornerMineCounted cornerMineWon 0 0).
    by vm_compute.
Defined.

(** ** Where the flood goes *)

Lemma mooreMines_zero g r c d :
  mooreMines g r c = 0 → d ∈ directions → minedAt g (r + d.1) (c + d.2) = false.
Proof.
  unfold mooreMines. intros H Hd.
  destruct (minedAt g (r + d.1) (c + d.2)) eqn:E; [|done].
  assert (d ∈ filter (λ d, minedAt g (r + d.1) (c + d.2) = true) directions) as Hin
    by (apply list_elem_of_filter; done).
  destruct (filter _ directions); [by apply elem_of_nil in Hin|]. simpl in H. lia.
Qed.

Lemma floodReach_markRevealed row col m r c y r' c' :
  getCell m r c = Some y → floodReach row col m r' c' →
  floodReach row col (markRevealed m r c) r' c'.
Proof.
  intros Hy [Hseed|(d & z & Hd & Hz & Hrev & Hadj & Hmine)]; [by left|right].
  pose proof (getCell_markRevealed m r c y (r' - d.1) (c' - d.2) Hy) as Hupd.
  destruct (bool_decide_reflect ((r' - d.1, c' - d.2) = (r, c))) as [E|E].
  - exists d, (setRevealed true y). rewrite Hupd.
    injection E as E1 E2. rewrite E1, E2 in Hz.
    assert (z = y) as -> by congruence. done.
  - exists d, z. rewrite Hupd. done.
Qed.

(** The invariant of the flood on a rectangular grid: the grid differs
    from the first one by reveals, the stack holds reachable coordinates
    only, and so is every cell revealed so far. *)
Lemma floodLoop_reach e g cols row col fuel m s v :
  rectangular g → numColsOf g = Some cols →
  onlyReveals g m →
  (∀ r c, (r, c) ∈ s → floodReach row col m r c) →
  (∀ r c x y, getCell g r c = Some x → getCell m r c = Some y →
              revealed x = false → revealed y = true → floodReach row col m r c) →
  match floodLoop getCell markRevealed
          (floodGuard e (numRowsOf g) cols) fuel m s v with
  | Done g' =>
      onlyReveals g g' ∧
      ∀ r c x y, getCell g r c = Some x → getCell g' r c = Some y →
                 revealed x = false → revealed y = true → floodReach row col g' r c
  | Threw _ => False
  | OutOfFuel => True
  end.
Proof.
  intros Hrect Hcols H1 H2 H3.
  apply (floodLoop_invariant _ _ _
    (λ m s _, onlyReveals g m ∧
              (∀ r c, (r, c) ∈ s → floodReach row col m r c) ∧
              (∀ r c x y, getCell g r c = Some x → getCell m r c = Some y →
                 revealed x = false → revealed y = true → floodReach row col m r c))
    (λ g', onlyReveals g g' ∧
           ∀ r c x y, getCell g r c = Some x → getCell g' r c = Some y →
              revealed x = false → revealed y = true → floodReach row col g' r c)
    (λ _, False)); [|done].
  clear m s v H1 H2 H3. intros m s v (H1 & H2 & H3).
  rewrite (floodStep_rectangular e g cols m s v Hrect Hcols H1).
  destruct s as [|[r c] rest]; [done|].
  assert (Hrest : ∀ r' c', (r', c') ∈ rest → floodReach row col m r' c').
  { intros r' c' Hin. apply H2. by apply list_elem_of_further. }
  destruct (getCell m r c) as [y|] eqn:Hy; [|done].
  destruct (negb (revealed y) && negb (bool_decide ((r, c) ∈ v))) eqn:Hgo; [|done].
  apply andb_true_iff in Hgo as [Hrev _]. apply negb_true_iff in Hrev.
  split_and!.
  - by apply onlyReveals_markRevealed.
  - intros r' c' Hin.
    destruct ((adjacentMines y =? 0) && negb (hasMine y)) eqn:Hzero.
    + apply pushNeighbours_elem in Hin as [Hin|(d & Hd & E)].
      * eapply floodReach_markRevealed; eauto.
      * right. exists d, (setRevealed true y). injection E as -> ->.
        replace (r + d.1 - d.1) with r by lia. replace (c + d.2 - d.2) with c by lia.
        rewrite (getCell_markRevealed _ _ _ _ r c Hy), bool_decide_eq_true_2 by done.
        apply andb_true_iff in Hzero as [Hz Hm]. apply Z.eqb_eq in Hz.
        apply negb_true_iff in Hm. done.
    + eapply floodReach_markRevealed; eauto.
  - intros r' c' x y' Hx Hy' Hxrev Hyrev.
    eapply floodReach_markRevealed; [eassumption|].
    rewrite (getCell_markRevealed _ _ _ _ r' c' Hy) in Hy'.
    destruct (bool_decide_reflect ((r', c') = (r, c))) as [E|E].
    + injection E as -> ->. apply H2. apply list_elem_of_here.
    + eapply H3; eauto.
Qed.

(** A cell within reach of the flood is not mined, when the counts are
    right and the seed is not mined. *)
Lemma floodReach_not_mined g g' row col seed r c :
  countsCorrect g → onlyReveals g g' →
  getCell g row col = Some seed → hasMine seed = false →
  floodReach row col g' r c → minedAt g r c = false.
Proof.
  intros Hcounts Hframe Hseed Hsafe [E|(d & z & Hd & Hz & _ & Hadj & Hmine)].
  - injection E as -> ->. unfold minedAt. by rewrite Hseed.
  - destruct (onlyReveals_getCell_r _ _ _ _ _ Hframe Hz) as (x & Hx & Hm & Ha & _).
    assert (mooreMines g (r - d.1) (c - d.2) = 0) as H0.
    { rewrite <- (Hcounts _ _ x Hx); congruence. }
    pose proof (mooreMines_zero _ _ _ d H0 Hd) as H.
    replace (r - d.1 + d.1) with r in H by lia.
    replace (c - d.2 + d.2) with c in H by lia. done.
Qed.

(** C2: on a grid whose counts are correct, the flood seeded on a cell
    that is not mined and has count 0 returns, and never sets [revealed]
    on a mined cell: a mined cell is as revealed after the call as it was
    before.  What the flood reveals is the seed and cells beside a
    revealed cell that is not mined and has count 0.  An iteration on a
    cell with a positive count reveals the cell and pushes nothing.  This
    holds of both copies of the engine. *)
Theorem revealCellsDFS_spares_mines (e : engine) (g : Grid) (row col : Z) (seed : Cell) :
  rectangular g → countsCorrect g →
  getCell g row col = Some seed → hasMine seed = false → adjacentMines seed = 0 →
  (∃ g', revealCellsDFS e g row col = Done g' ∧
     (∀ r c x, getCell g r c = Some x → hasMine x = true →
        ∃ y, getCell g' r c = Some y ∧ hasMine y = true ∧ revealed y = revealed x) ∧
     (∀ r c x y, getCell g r c = Some x → getCell g' r c = Some y →
        revealed x = false → revealed y = true →
        (r, c) = (row, col) ∨ besideOpenZero g' r c)) ∧
  (∀ rows cols m rest visited r c x,
     floodGuard e rows cols m visited r c = Some true →
     getCell m r c = Some x → adjacentMines x > 0 →
     floodStep getCell markRevealed
       (floodGuard e rows cols) m ((r, c) :: rest) visited =
     Continue (markRevealed m r c) rest ({[ (r, c) ]} ∪ visited)).
Proof.
  intros Hrect Hcounts Hseed Hsafe Hzero. split.
  - pose proof (revealCellsDFS_ends e g row col) as Hends.
    rewrite revealCellsDFS_unfold in *.
    destruct (numColsOf g) as [cols|] eqn:Hcols.
    2:{ apply numColsOf_None in Hcols. subst g.
        apply getCell_Some in Hseed as (_ & _ & ? & ? & _). done. }
    pose proof (floodLoop_reach e g cols row col (floodFuel (hiddenCells g)) g
                  [(row, col)] ∅ Hrect Hcols (onlyReveals_refl g)) as H.
    destruct (floodLoop _ _ _ _ _ _ _) as [g'| |]; [|exfalso|done].
    + destruct H as [Hframe Hreach].
      { intros r c Hin. apply list_elem_of_singleton in Hin. by left. }
      { intros r c x y Hx Hy. congruence. }
      exists g'. split_and!; [done| |exact Hreach].
      intros r c x Hx Hmine.
      destruct (onlyReveals_getCell _ _ _ _ _ Hframe Hx) as (y & Hy & Hm & _ & _ & Hr).
      exists y. split_and!; [done|congruence|].
      destruct (revealed x) eqn:Hxrev; [by apply Hr|].
      destruct (revealed y) eqn:Hyrev; [|done].
      pose proof (floodReach_not_mined g g' row col seed r c Hcounts Hframe Hseed Hsafe
                    (Hreach _ _ _ _ Hx Hy Hxrev Hyrev)) as Hno.
      unfold minedAt in Hno. rewrite Hx in Hno. congruence.
    + apply H.
      * intros r c Hin. apply list_elem_of_singleton in Hin. by left.
      * intros r c x y Hx Hy. congruence.
  - intros rows cols m rest visited r c x Hg Hx Hpos. unfold floodStep. rewrite Hg.
    rewrite (getCell_markRevealed _ _ _ _ r c Hx), bool_decide_eq_true_2 by done.
    simpl. destruct (Z.eqb_spec (adjacentMines x) 0); [lia|done].
Qed.

Lemma cornerMineCounted_rectangular : rectangular cornerMineCounted.
Proof. repeat constructor. Qed.

Lemma revealCellsDFS_spares_mines_witness :
  ∃ g', revealCellsDFS backend cornerMineCounted 0 0 = Done g' ∧
        ∀ r c x, getCell cornerMineCounted r c = Some x → hasMine x = true →
                 ∃ y, getCell g' r c = Some y ∧ hasMine y = true ∧
                      revealed y = revealed x.
Proof.
  destruct (revealCellsDFS_spares_mines backend cornerMineCounted 0 0 (hiddenCell 0))
    as [(g' & Hrun & Hmines & _) _].
  - apply cornerMineCounted_rectangular.
  - apply countsCorrectb_sound; [apply cornerMineCounted_rectangular|by vm_compute].
  - reflexivity.
  - reflexivity.
  - reflexivity.
  - exists g'. split; assumption.
Defined.

(** ** What the flood opens *)

Lemma openedZero_markRevealed g m r c x r' c' :
  getCell m r c = Some x → (r', c') ≠ (r, c) →
  openedZero g (markRevealed m r c) r' c' → openedZero g m r' c'.
Proof.
  intros Hx Hne (x0 & y0 & H0 & Hh & Hy & Hrest).
  rewrite (getCell_markRevealed _ _ _ _ r' c' Hx), bool_decide_eq_false_2 in Hy by done.
  exists x0, y0. done.
Qed.

(** The invariant of the flood for what it opens: every visited cell is
    revealed, the seed is on the stack or revealed, and each neighbour of
    a zero the flood opened is revealed or on the stack. *)
Lemma floodLoop_closure e g cols row col fuel m s v :
  rectangular g → numColsOf g = Some cols → is_Some (getCell g row col) →
  onlyReveals g m →
  (∀ r c, (r, c) ∈ v → ∃ y, getCell m r c = Some y ∧ revealed y = true) →
  ((row, col) ∈ s ∨ ∃ y, getCell m row col = Some y ∧ revealed y = true) →
  (∀ r c d z, openedZero g m r c → d ∈ directions →
     getCell m (r + d.1) (c + d.2) = Some z →
     revealed z = true ∨ (r + d.1, c + d.2) ∈ s) →
  match floodLoop getCell markRevealed (floodGuard e (numRowsOf g) cols) fuel m s v with
  | Done g' =>
      (∃ y, getCell g' row col = Some y ∧ revealed y = true) ∧
      ∀ r c d z, openedZero g g' r c → d ∈ directions →
        getCell g' (r + d.1) (c + d.2) = Some z → revealed z = true
  | Threw _ => False
  | OutOfFuel => True
  end.
Proof.
  intros Hrect Hcols [seed Hseed] H1 H2 H3 H4.
  apply (floodLoop_invariant _ _ _
    (λ m s v, onlyReveals g m ∧
       (∀ r c, (r, c) ∈ v → ∃ y, getCell m r c = Some y ∧ revealed y = true) ∧
       ((row, col) ∈ s ∨ ∃ y, getCell m row col = Some y ∧ revealed y = true) ∧
       (∀ r c d z, openedZero g m r c → d ∈ directions →
          getCell m (r + d.1) (c + d.2) = Some z →
          revealed z = true ∨ (r + d.1, c + d.2) ∈ s))
    (λ g', (∃ y, getCell g' row col = Some y ∧ revealed y = true) ∧
       ∀ r c d z, openedZero g g' r c → d ∈ directions →
         getCell g' (r + d.1) (c + d.2) = Some z → revealed z = true)
    (λ _, False)); [|done].
  clear m s v H1 H2 H3 H4. intros m s v (H1 & H2 & H3 & H4).
  rewrite (floodStep_rectangular e g cols m s v Hrect Hcols H1).
  destruct s as [|[r c] rest].
  { split.
    - destruct H3 as [H3|H3]; [by apply elem_of_nil in H3|done].
    - intros r c d z Hz Hd Hn. destruct (H4 r c d z Hz Hd Hn) as [?|H]; [done|].
      by apply elem_of_nil in H. }
  destruct (getCell m r c) as [x|] eqn:Hx.
  2:{ split_and!; [done..| |].
      - destruct H3 as [H3|H3]; [|by right]. apply elem_of_cons in H3 as [E|H3]; [|by left].
        injection E as -> ->.
        destruct (onlyReveals_getCell _ _ _ _ _ H1 Hseed) as (y & Hy & _). congruence.
      - intros r' c' d z Hz Hd Hn. destruct (H4 r' c' d z Hz Hd Hn) as [?|H]; [by left|].
        apply elem_of_cons in H as [E|H]; [|by right].
        injection E as E1 E2. rewrite E1, E2 in Hn. congruence. }
  destruct (negb (revealed x) && negb (bool_decide ((r, c) ∈ v))) eqn:Hgo.
  - apply andb_true_iff in Hgo as [Hrev _]. apply negb_true_iff in Hrev.
    assert (Hsub : ∀ p, p ∈ rest →
      p ∈ (if (adjacentMines x =? 0) && negb (hasMine x)
           then pushNeighbours r c rest else rest)).
    { intros p Hp. destruct (_ && _); [|done]. apply pushNeighbours_elem. by left. }
    split_and!.
    + by apply onlyReveals_markRevealed.
    + intros r' c' Hin. rewrite (getCell_markRevealed _ _ _ _ r' c' Hx).
      destruct (bool_decide_reflect ((r', c') = (r, c))) as [E|E]; [eauto|].
      apply H2. apply elem_of_union in Hin as [Hin|Hin]; [|done].
      apply elem_of_singleton in Hin. done.
    + rewrite (getCell_markRevealed _ _ _ _ row col Hx).
      destruct (bool_decide_reflect ((row, col) = (r, c))) as [E|E]; [right; eauto|].
      destruct H3 as [H3|H3]; [|by right]. left. apply Hsub.
      apply elem_of_cons in H3 as [?|?]; done.
    + intros r' c' d z Hz Hd Hn.
      destruct (decide ((r', c') = (r, c))) as [E|E].
      * injection E as -> ->. right.
        destruct Hz as (x0 & y0 & _ & _ & Hy & _ & Hadj & Hmine).
        rewrite (getCell_markRevealed _ _ _ _ r c Hx), bool_decide_eq_true_2 in Hy by done.
        injection Hy as <-. simpl in Hadj, Hmine. rewrite Hadj, Hmine. simpl.
        apply pushNeighbours_elem. right. eauto.
      * apply (openedZero_markRevealed g m r c x r' c' Hx E) in Hz.
        rewrite (getCell_markRevealed _ _ _ _ _ _ Hx) in Hn.
        destruct (bool_decide_reflect ((r' + d.1, c' + d.2) = (r, c))) as [E'|E'].
        -- injection Hn as <-. by left.
        -- destruct (H4 r' c' d z Hz Hd Hn) as [?|H]; [by left|right].
           apply Hsub. apply elem_of_cons in H as [?|?]; done.
  - assert (revealed x = true) as Hrev.
    { apply andb_false_iff in Hgo as [Hgo|Hgo].
      - by apply negb_false_iff in Hgo.
      - apply negb_false_iff, bool_decide_eq_true in Hgo.
        destruct (H2 _ _ Hgo) as (y & Hy & ?). congruence. }
    split_and!; [done..| |].
    + destruct H3 as [H3|H3]; [|by right]. apply elem_of_cons in H3 as [E|H3]; [|by left].
      injection E as -> ->. right. eauto.
    + intros r' c' d z Hz Hd Hn. destruct (H4 r' c' d z Hz Hd Hn) as [?|H]; [by left|].
      apply elem_of_cons in H as [E|H]; [|by right]. left.
      injection E as E1 E2. rewrite E1, E2 in Hn. congruence.
Qed.

(** On a rectangular grid, seeded on a cell of the grid, the flood
    returns with the seed revealed and with every neighbour of every zero
    it opened revealed. *)
Lemma revealCellsDFS_closure e g row col seed :
  rectangular g → getCell g row col = Some seed →
  ∃ g', revealCellsDFS e g row col = Done g' ∧
        (∃ y, getCell g' row col = Some y ∧ revealed y = true) ∧
        ∀ r c d z, openedZero g g' r c → d ∈ directions →
          getCell g' (r + d.1) (c + d.2) = Some z → revealed z = true.
Proof.
  intros Hrect Hseed.
  assert (g ≠ []) as Hne.
  { intros ->. apply getCell_Some in Hseed as (_ & _ & ? & ? & _). done. }
  destruct (revealCellsDFS_total e g row col Hrect Hne) as [g' Hrun].
  exists g'. split; [done|].
  rewrite revealCellsDFS_unfold in Hrun.
  destruct (numColsOf_nonempty g Hne) as [cols Hcols]. rewrite Hcols in Hrun.
  pose proof (floodLoop_closure e g cols row col (floodFuel (hiddenCells g)) g
                [(row, col)] ∅ Hrect Hcols ltac:(eauto) (onlyReveals_refl g)) as H.
  rewrite Hrun in H. apply H.
  - intros r c Hin. by apply not_elem_of_empty in Hin.
  - left. apply list_elem_of_here.
  - intros r c d z (x0 & y0 & H0 & Hh & Hy & Hr & _). congruence.
Qed.

(** ** Flags and the flood *)

Lemma sameButFlags_hiddenCells g g' :
  sameButFlags g g' → hiddenCells g' = hiddenCells g.
Proof.
  intros H. apply countCells_Forall2. eapply Forall2_impl; [exact H|].
  intros row row' Hrow. eapply Forall2_impl; [exact Hrow|].
  intros x y (_ & _ & ->). done.
Qed.

Lemma sameButFlags_getCell g g' r c :
  sameButFlags g g' →
  match getCell g r c, getCell g' r c with
  | Some x, Some y =>
      hasMine y = hasMine x ∧ adjacentMines y = adjacentMines x ∧ revealed y = revealed x
  | None, None => True
  | _, _ => False
  end.
Proof.
  intros H. destruct (getCell g r c) as [x|] eqn:Hx.
  - destruct (Forall2_grid_getCell _ _ _ _ _ _ H Hx) as (y & -> & Hxy). done.
  - destruct (getCell g' r c) as [y|] eqn:Hy; [|done].
    destruct (Forall2_grid_getCell_r _ _ _ _ _ _ H Hy) as (x & Hx' & _). congruence.
Qed.

Lemma sameButFlags_markRevealed g g' r c :
  sameButFlags g g' →
  sameButFlags (markRevealed g r c) (markRevealed g' r c).
Proof.
  unfold sameButFlags, updCell. intros H.
  apply Forall2_alter; [done|]. intros row row' _ _ Hrow.
  apply Forall2_alter; [done|]. intros x y _ _ (? & ? & ?). done.
Qed.

(** The flood never reads [flagged]: on two grids that differ in their
    flags only, it ends the same way, on grids that differ in their flags
    only. *)
Lemma revealCellsDFS_ignores_flags e g1 g2 row col :
  sameButFlags g1 g2 →
  match revealCellsDFS e g1 row col, revealCellsDFS e g2 row col with
  | Done a, Done b => sameButFlags a b
  | Threw a, Threw b => sameButFlags a b
  | _, _ => False
  end.
Proof.
  intros H. pose proof (revealCellsDFS_ends e g1 row col) as Hends.
  rewrite !revealCellsDFS_unfold in *.
  pose proof (Forall2_grid_shape _ _ _ H) as Hshape.
  rewrite (numColsOf_shape _ _ Hshape), (numRowsOf_shape _ _ Hshape),
    (sameButFlags_hiddenCells _ _ H).
  destruct (numColsOf g1) as [cols|]; [|done].
  pose proof (floodLoop_sim
    getCell markRevealed (floodGuard e (numRowsOf g1) cols)
    getCell markRevealed (floodGuard e (numRowsOf g1) cols)
    (λ a b _, sameButFlags a b)) as Hsim.
  specialize (Hsim ltac:(
    intros m1 m2 v r c Hm; pose proof (sameButFlags_getCell m1 m2 r c Hm) as Hc;
    destruct e; simpl; unfold Backend.isSafe, Client.mayVisit;
    destruct (inBounds _ _ r c); try done;
    destruct (getCell m1 r c) as [x|], (getCell m2 r c) as [y|]; try done;
    try (destruct Hc as (_ & _ & ->); done);
    by destruct (bool_decide _))).
  specialize (Hsim ltac:(intros m1 m2 v r c Hm _; by apply sameButFlags_markRevealed)).
  specialize (Hsim ltac:(
    intros m1 m2 v r c Hm; pose proof (sameButFlags_getCell m1 m2 r c Hm) as Hc;
    destruct (getCell m1 r c) as [x|], (getCell m2 r c) as [y|]; try done;
    destruct Hc as (-> & -> & _); done)).
  specialize (Hsim (floodFuel (hiddenCells g1)) g1 g2 [(row, col)] ∅ H).
  unfold sameOutcome in Hsim.
  destruct (floodLoop _ _ _ _ g1 _ _), (floodLoop _ _ _ _ g2 _ _); try done;
    by destruct Hsim.
Qed.

(** * Win detection *)

Lemma checkRow_spec g row cols :
  (∀ col, col ∈ cols → is_Some (getCell g row col)) →
  ∃ b, App.checkRow g row cols = Some b ∧
       (b = true ↔ ∀ col x, col ∈ cols → getCell g row col = Some x →
                            hasMine x = false → revealed x = true).
Proof.
  induction cols as [|col cols IH]; intros Hdef; simpl.
  - exists true. split; [done|]. split; [|done]. intros _ col x Hin.
    by apply elem_of_nil in Hin.
  - destruct (Hdef col) as [x Hx]; [left|]. rewrite Hx.
    destruct (negb (hasMine x) && negb (revealed x)) eqn:E.
    + exists false. split; [done|]. split; [done|]. intros H.
      apply andb_true_iff in E as [E1 E2]. apply negb_true_iff in E1, E2.
      rewrite (H col x) in E2; [done|left|done..].
    + destruct IH as (b & Hb & Hiff); [intros; apply Hdef; by right|].
      exists b. split; [done|]. rewrite Hiff. split.
      * intros H col' x' Hin Hx' Hm. apply elem_of_cons in Hin as [->|Hin]; [|eauto].
        assert (x' = x) as -> by congruence.
        rewrite Hm in E. simpl in E. by apply negb_false_iff in E.
      * intros H col' x' Hin. apply H. by right.
Qed.

Lemma checkRows_spec g cols rows :
  (∀ row col, row ∈ rows → col ∈ cols → is_Some (getCell g row col)) →
  ∃ b, App.checkRows g cols rows = Some b ∧
       (b = true ↔ ∀ row col x, row ∈ rows → col ∈ cols → getCell g row col = Some x →
                                hasMine x = false → revealed x = true).
Proof.
  induction rows as [|row rows IH]; intros Hdef; simpl.
  - exists true. split; [done|]. split; [|done]. intros _ row col x Hin.
    by apply elem_of_nil in Hin.
  - destruct (checkRow_spec g row cols) as (b & -> & Hiff);
      [intros; apply Hdef; [left|done]|].
    destruct b.
    + destruct IH as (b & Hb & Hiff'); [intros; apply Hdef; [by right|done]|].
      exists b. split; [done|]. rewrite Hiff'. split.
      * intros H row' col x Hin. apply elem_of_cons in Hin as [->|Hin]; [|eauto].
        by apply Hiff.
      * intros H row' col x Hin. apply H. by right.
    + exists false. split; [done|]. split; [done|]. intros H.
      apply Hiff. intros col x Hin. apply H; [left|done].
Qed.

Lemma checkWin_spec g :
  rectangular g →
  ∃ b, App.checkWin g = Some b ∧
       (b = true ↔ ∀ r c x, getCell g r c = Some x → hasMine x = false → revealed x = true).
Proof.
  intros Hrect. unfold App.checkWin.
  destruct (numColsOf g) as [cols|] eqn:Hcols.
  - destruct (checkRows_spec g (seqZ 0 cols) (seqZ 0 (numRowsOf g))) as (b & Hb & Hiff).
    { intros row col Hr Hc. apply elem_of_seqZ in Hr, Hc.
      apply (getCell_inBounds g cols row col Hrect Hcols), inBounds_iff. lia. }
    exists b. split; [done|]. rewrite Hiff. split.
    + intros H r c x Hx. apply (H r c x); [| |done].
      all: assert (is_Some (getCell g r c)) as Hs by eauto;
        apply (getCell_inBounds g cols r c Hrect Hcols), inBounds_iff in Hs;
        apply elem_of_seqZ; lia.
    + intros H row col x _ _. apply H.
  - apply numColsOf_None in Hcols. subst g. exists true. split; [done|].
    split; [|done]. intros _ r c x Hx.
    apply getCell_Some in Hx as (_ & _ & ? & ? & _). done.
Qed.

(** C4: [checkWin] returns true exactly when every cell that is not mined
    is revealed.  Whether mined cells are revealed does not matter, and a
    grid all of whose cells are mined is won.  (The call returns on every
    rectangular grid, the empty one included.) *)
Theorem checkWin_correct (g : Grid) :
  rectangular g →
  (∃ b, App.checkWin g = Some b ∧
        (b = true ↔
         ∀ r c x, getCell g r c = Some x → hasMine x = false → revealed x = true)) ∧
  (∀ g', sameSafeCells g g' → App.checkWin g' = App.checkWin g) ∧
  ((∀ r c x, getCell g r c = Some x → hasMine x = true) → App.checkWin g = Some true).
Proof.
  intros Hrect. split_and!.
  - by apply checkWin_spec.
  - intros g' Hsame.
    pose proof (rectangular_shape _ _ (Forall2_grid_shape _ _ _ Hsame) Hrect) as Hrect'.
    destruct (checkWin_spec g Hrect) as (b & -> & Hb).
    destruct (checkWin_spec g' Hrect') as (b' & -> & Hb').
    assert (b' = true ↔ b = true) as Hbb.
    { rewrite Hb, Hb'. split.
      - intros H r c x Hx Hm.
        destruct (Forall2_grid_getCell _ _ _ _ _ _ Hsame Hx) as (y & Hy & Hmy & Hry).
        rewrite <- (Hry Hm). apply (H r c y Hy). congruence.
      - intros H r c y Hy Hm.
        destruct (Forall2_grid_getCell_r _ _ _ _ _ _ Hsame Hy) as (x & Hx & Hmy & Hry).
        rewrite Hmy in Hm. rewrite (Hry Hm). by apply (H r c x Hx). }
    destruct b, b'; try done.
    + destruct Hbb as [_ Hbb]. by rewrite Hbb.
    + destruct Hbb as [Hbb _]. by rewrite Hbb.
  - intros Hall. destruct (checkWin_spec g Hrect) as (b & -> & Hb). f_equal.
    apply Hb. intros r c x Hx Hm. rewrite (Hall _ _ _ Hx) in Hm. done.
Qed.

Lemma checkWin_correct_witness :
  (∃ b, App.checkWin cornerMineWon = Some b ∧
        (b = true ↔
         ∀ r c x, getCell cornerMineWon r c = Some x → hasMine x = false →
                  revealed x = true)) ∧
  (∀ g', sameSafeCells cornerMineWon g' → App.checkWin g' = App.checkWin cornerMineWon) ∧
  ((∀ r c x, getCell cornerMineWon r c = Some x → hasMine x = true) →
   App.checkWin cornerMineWon = Some true).
Proof.
  apply (checkWin_correct cornerMineWon). repeat constructor.
Defined.

(** * Mine placement *)

(** ** The random source *)

Lemma randomBelow_range random k n :
  unitInterval random → 0 < n → 0 ≤ randomBelow random k n < n.
Proof.
  intros Hu Hn. destruct (Hu k) as [H0 H1]. unfold randomBelow, Math_floor.
  assert (0 <= random k * inject_Z n)%Q as Hlo.
  { apply Qmult_le_0_compat; [done|]. change 0%Q with (inject_Z 0).
    rewrite <- Zle_Qle. lia. }
  assert (random k * inject_Z n < inject_Z n)%Q as Hhi.
  { rewrite <- (Qmult_1_l (inject_Z n)) at 2. apply Qmult_lt_compat_r; [|done].
    change 0%Q with (inject_Z 0). rewrite <- Zlt_Qlt. lia. }
  split.
  - apply Qfloor_resp_le in Hlo. exact Hlo.
  - rewrite Zlt_Qlt. eapply Qle_lt_trans; [apply Qfloor_le|done].
Qed.

Lemma quarter_unit : unitInterval quarter.
Proof. intros k. split; unfold quarter, Qle, Qlt; simpl; lia. Defined.

Lemma cycling_unit : unitInterval cycling.
Proof.
  intros k. unfold cycling, Qle, Qlt. simpl.
  pose proof (Nat.mod_upper_bound (k / 2) 4). lia.
Qed.

Lemma cycling_draw n :
  randomBelow cycling (S (2 * n)) 4 = Z.of_nat (n mod 4).
Proof.
  unfold randomBelow, Math_floor, cycling.
  replace (S (2 * n) / 2)%nat with n.
  2:{ apply (Nat.div_unique _ 2 n 1); lia. }
  rewrite <- (Qfloor_Z (Z.of_nat (n mod 4))) at 2.
  apply Qfloor_comp. unfold Qeq, Qmult, inject_Z. simpl. lia.
Qed.

Lemma cycling_fair : fairDraws cycling 1 4.
Proof.
  intros n r c Hr Hc. exists (4 * n + Z.to_nat c)%nat. split_and!.
  - lia.
  - pose proof (randomBelow_range cycling (2 * (4 * n + Z.to_nat c)) 1 cycling_unit). lia.
  - rewrite cycling_draw.
    replace (4 * n + Z.to_nat c)%nat with (Z.to_nat c + n * 4)%nat by lia.
    rewrite Nat.Div0.mod_add, Nat.mod_small by lia. lia.
Qed.

(** ** Shuffling *)

Lemma swap_lookup ps i j a b k :
  ps !! i = Some a → ps !! j = Some b →
  Backend.swap ps i j !! k =
  ps !! (if decide (k = j) then i else if decide (k = i) then j else k).
Proof.
  intros Hi Hj. unfold Backend.swap. rewrite Hi, Hj.
  pose proof (lookup_lt_Some _ _ _ Hi). pose proof (lookup_lt_Some _ _ _ Hj).
  destruct (decide (k = j)) as [->|Hkj].
  - rewrite list_lookup_insert_eq by (rewrite length_insert; lia). done.
  - rewrite list_lookup_insert_ne by done.
    destruct (decide (k = i)) as [->|Hki].
    + rewrite list_lookup_insert_eq by lia. done.
    + by rewrite list_lookup_insert_ne.
Qed.

Lemma swap_length ps i j : length (Backend.swap ps i j) = length ps.
Proof.
  unfold Backend.swap. destruct (ps !! i), (ps !! j); try done.
  by rewrite !length_insert.
Qed.

Lemma swap_NoDup ps i j : NoDup ps → NoDup (Backend.swap ps i j).
Proof.
  intros Hnd. destruct (ps !! i) as [a|] eqn:Hi, (ps !! j) as [b|] eqn:Hj;
    try (unfold Backend.swap; rewrite Hi, Hj; done);
    try (unfold Backend.swap; rewrite Hi; done).
  apply NoDup_alt. intros k1 k2 x H1 H2.
  rewrite (swap_lookup _ _ _ _ _ _ Hi Hj) in H1.
  rewrite (swap_lookup _ _ _ _ _ _ Hi Hj) in H2.
  pose proof (proj1 (NoDup_alt ps) Hnd _ _ _ H1 H2) as E.
  repeat case_decide; subst; congruence.
Qed.

Lemma swap_elem_of ps i j x : x ∈ Backend.swap ps i j ↔ x ∈ ps.
Proof.
  destruct (ps !! i) as [a|] eqn:Hi, (ps !! j) as [b|] eqn:Hj;
    try (unfold Backend.swap; rewrite Hi, Hj; done);
    try (unfold Backend.swap; rewrite Hi; done).
  rewrite !list_elem_of_lookup. split; intros [k Hk].
  - rewrite (swap_lookup _ _ _ _ _ _ Hi Hj) in Hk. eauto.
  - exists (if decide (k = j) then i else if decide (k = i) then j else k).
    rewrite (swap_lookup _ _ _ _ _ _ Hi Hj), <- Hk. f_equal.
    repeat case_decide; subst; congruence.
Qed.

Lemma shuffleFrom_facts random i k ps :
  length (Backend.shuffleFrom random i k ps) = length ps ∧
  (NoDup ps → NoDup (Backend.shuffleFrom random i k ps)) ∧
  ∀ x, x ∈ Backend.shuffleFrom random i k ps ↔ x ∈ ps.
Proof.
  revert k ps. induction i as [|i IH]; intros k ps; simpl; [done|].
  destruct (IH (S k) (Backend.swap ps (S i) (Z.to_nat (randomBelow random k (Z.of_nat (S i) + 1)))))
    as (Hlen & Hnd & Hel).
  split_and!.
  - by rewrite Hlen, swap_length.
  - intros H. by apply Hnd, swap_NoDup.
  - intros x. by rewrite Hel, swap_elem_of.
Qed.

Lemma shuffle_facts random ps :
  length (Backend.shuffle random ps) = length ps ∧
  (NoDup ps → NoDup (Backend.shuffle random ps)) ∧
  ∀ x, x ∈ Backend.shuffle random ps ↔ x ∈ ps.
Proof. apply shuffleFrom_facts. Qed.

Lemma slice0_le {A} (l : list A) e :
  0 ≤ e ≤ Z.of_nat (length l) → Backend.slice0 l e = take (Z.to_nat e) l.
Proof.
  intros H. unfold Backend.slice0. destruct (Z.ltb_spec e 0); [lia|].
  by rewrite Z.min_l by lia.
Qed.

Lemma slice0_ge {A} (l : list A) e :
  Z.of_nat (length l) ≤ e → Backend.slice0 l e = l.
Proof.
  intros H. unfold Backend.slice0. destruct (Z.ltb_spec e 0); [lia|].
  rewrite Z.min_r by lia. rewrite Nat2Z.id. apply firstn_all.
Qed.

Lemma slice0_facts {A} (l : list A) e :
  (NoDup l → NoDup (Backend.slice0 l e)) ∧ (∀ x, x ∈ Backend.slice0 l e → x ∈ l).
Proof.
  unfold Backend.slice0. split.
  - intros H. eapply sublist_NoDup; [done|apply sublist_take].
  - intros x. apply subseteq_take.
Qed.

(** ** Positions and eligible cells *)

Lemma filter_bind {A B} (P : B → Prop) `{!∀ x, Decision (P x)} (f : A → list B) (l : list A) :
  filter P (l ≫= f) = l ≫= (λ x, filter P (f x)).
Proof.
  induction l as [|x l IH]; [done|].
  change ((x :: l) ≫= f) with (f x ++ (l ≫= f)).
  change ((x :: l) ≫= λ x, filter P (f x)) with (filter P (f x) ++ (l ≫= λ x, filter P (f x))).
  by rewrite filter_app, IH.
Qed.

Lemma positions_filter rows cols safeRow safeCol :
  Backend.positions rows cols safeRow safeCol =
  filter (λ p, singleCell safeRow safeCol p = false) (allPositions rows cols).
Proof.
  unfold Backend.positions, allPositions. rewrite filter_bind.
  apply list_bind_ext; [|done]. intros r. rewrite filter_bind.
  apply list_bind_ext; [|done]. intros c. unfold singleCell.
  destruct (Z.eqb_spec r safeRow) as [->|Hr]; simpl.
  - destruct (Z.eqb_spec c safeCol) as [->|Hc]; simpl.
    + rewrite filter_cons_False; [done|]. by rewrite bool_decide_eq_true_2.
    + rewrite filter_cons_True; [done|]. apply bool_decide_eq_false. congruence.
  - rewrite filter_cons_True; [done|]. apply bool_decide_eq_false. congruence.
Qed.

Lemma NoDup_eligible safe g : NoDup (eligible safe g).
Proof. apply NoDup_filter, NoDup_allPositions. Qed.

Lemma elem_of_eligible safe g r c :
  rectangular g →
  (r, c) ∈ eligible safe g ↔
  safe (r, c) = false ∧ ∃ x, getCell g r c = Some x ∧ hasMine x = false.
Proof.
  intros Hrect. unfold eligible. rewrite list_elem_of_filter, (elem_of_gridPositions g r c Hrect).
  simpl. unfold minedAt. split.
  - intros [[Hs Hm] [x Hx]]. rewrite Hx in Hm. eauto.
  - intros (Hs & x & Hx & Hm). rewrite Hx. eauto.
Qed.

Lemma eligible_free safe g :
  mineTotal g = 0%nat →
  eligible safe g = filter (λ p, safe p = false) (gridPositions g).
Proof.
  intros H. unfold eligible. apply list_filter_iff. intros [r c]. simpl.
  rewrite (mineTotal_zero g r c H). tauto.
Qed.

Lemma length_filter_remove {A} `{EqDecision A} (p : A) (l : list A) :
  NoDup l → p ∈ l → (length (filter (λ q, q ≠ p) l) + 1 = length l)%nat.
Proof.
  induction l as [|y l IH]; intros Hnd Hin; [by apply elem_of_nil in Hin|].
  apply NoDup_cons in Hnd as [Hy Hnd]. destruct (decide (y = p)) as [->|Hne].
  - rewrite filter_cons_False by (intros H; by apply H). simpl.
    assert (filter (λ q, q ≠ p) l = l) as ->; [|lia].
    clear -Hy. induction l as [|z l IH]; [done|].
    apply not_elem_of_cons in Hy as [Hz Hy].
    rewrite filter_cons_True by congruence. by rewrite IH.
  - rewrite filter_cons_True by done. simpl.
    apply elem_of_cons in Hin as [->|Hin]; [done|]. rewrite <- IH by done. lia.
Qed.

Lemma eligible_place safe g r c :
  rectangular g → (r, c) ∈ eligible safe g →
  (length (eligible safe (updCell (setHasMine true) g r c)) + 1 =
   length (eligible safe g))%nat.
Proof.
  intros Hrect Hin. pose proof Hin as Hin'.
  apply (elem_of_eligible safe g r c Hrect) in Hin' as (Hs & x & Hx & Hm).
  rewrite <- (length_filter_remove (r, c) (eligible safe g)); [|apply NoDup_eligible|done].
  f_equal. f_equal. unfold eligible.
  rewrite (gridPositions_shape g) by apply updCell_row_lengths.
  rewrite list_filter_filter. apply list_filter_iff. intros [r' c']. simpl.
  rewrite (minedAt_place _ _ _ _ r' c' Hx).
  destruct (bool_decide_reflect ((r', c') = (r, c))) as [E|E]; split; try tauto.
  intros [_ ?]. done.
Qed.

Lemma eligible_single_free g cols safeRow safeCol :
  numColsOf g = Some cols → mineTotal g = 0%nat →
  eligible (singleCell safeRow safeCol) g =
  Backend.positions (numRowsOf g) cols safeRow safeCol.
Proof.
  intros Hcols Hfree. rewrite (eligible_free _ _ Hfree), (gridPositions_eq _ _ Hcols).
  by rewrite positions_filter.
Qed.

(** ** The backend's placement *)

(** Mining the cells of a list of distinct coordinates of the grid, as
    the last loop of the backend's [placeMines] does. *)
Lemma placeAll sel g :
  NoDup sel → (∀ p, p ∈ sel → is_Some (getCell g p.1 p.2)) →
  ∃ g', forEach (λ p g,
                   match modCell (setHasMine true) g p.1 p.2 with
                   | Some g' => Done g'
                   | None => Threw g
                   end) sel g = Done g' ∧
        length <$> g' = length <$> g ∧
        (∀ r c, minedAt g' r c = if bool_decide ((r, c) ∈ sel) then true else minedAt g r c) ∧
        ((∀ p, p ∈ sel → minedAt g p.1 p.2 = false) →
         mineTotal g' = (mineTotal g + length sel)%nat).
Proof.
  revert g. induction sel as [|[r c] sel IH]; intros g Hnd Hdef; simpl.
  - exists g. split_and!; [done..|intros; lia].
  - apply NoDup_cons in Hnd as [Hnotin Hnd].
    destruct (Hdef (r, c)) as [x Hx]; [left|]. simpl in Hx.
    unfold modCell at 1. rewrite Hx.
    destruct (IH (updCell (setHasMine true) g r c) Hnd) as (g' & Hrun & Hshape & Hcells & Hcount).
    { intros [r' c'] Hin. simpl. rewrite (getCell_updCell _ _ _ _ _ r' c' Hx).
      case_bool_decide; [done|]. apply (Hdef (r', c')). by right. }
    exists g'. split_and!; [done| | |].
    + by rewrite Hshape, updCell_row_lengths.
    + intros r' c'. rewrite Hcells, (minedAt_place _ _ _ _ _ _ Hx).
      destruct (bool_decide_reflect ((r', c') = (r, c))) as [E|E].
      * rewrite E. rewrite (bool_decide_eq_true_2 ((r, c) ∈ (r, c) :: sel)) by left.
        by case_bool_decide.
      * destruct (bool_decide_reflect ((r', c') ∈ sel)) as [Hin|Hin].
        -- rewrite bool_decide_eq_true_2; [done|by right].
        -- rewrite bool_decide_eq_false_2; [done|].
           intros H. apply elem_of_cons in H as [?|?]; done.
    + intros Hfree. rewrite Hcount.
      * rewrite (mineTotal_place _ _ _ x Hx); [lia|].
        specialize (Hfree (r, c) ltac:(left)). unfold minedAt in Hfree. simpl in Hfree.
        by rewrite Hx in Hfree.
      * intros [r' c'] Hin. simpl. rewrite (minedAt_place _ _ _ _ _ _ Hx).
        rewrite bool_decide_eq_false_2; [apply (Hfree (r', c')); by right|].
        intros E. rewrite E in Hin. done.
Qed.

Lemma Backend_placeMines_run random g cols mineCount safeRow safeCol :
  rectangular g → numColsOf g = Some cols → 0 ≤ mineCount →
  let ps := Backend.positions (numRowsOf g) cols safeRow safeCol in
  ∃ g' sel,
    Backend.placeMines random g mineCount safeRow safeCol = Done g' ∧
    NoDup sel ∧
    (∀ p, p ∈ sel → p ∈ ps) ∧
    (mineCount ≤ Z.of_nat (length ps) → Z.of_nat (length sel) = mineCount) ∧
    (Z.of_nat (length ps) ≤ mineCount → ∀ p, p ∈ sel ↔ p ∈ ps) ∧
    length <$> g' = length <$> g ∧
    (∀ r c, minedAt g' r c = if bool_decide ((r, c) ∈ sel) then true else minedAt g r c) ∧
    ((∀ p, p ∈ sel → minedAt g p.1 p.2 = false) →
     mineTotal g' = (mineTotal g + length sel)%nat).
Proof.
  intros Hrect Hcols Hmc ps. unfold Backend.placeMines. rewrite Hcols. fold ps.
  destruct (shuffle_facts random ps) as (Hlen & Hnd & Hel).
  assert (NoDup ps) as Hps.
  { unfold ps. rewrite positions_filter. apply NoDup_filter, NoDup_allPositions. }
  set (sel := Backend.slice0 (Backend.shuffle random ps) mineCount).
  destruct (slice0_facts (Backend.shuffle random ps) mineCount) as [Hsnd Hsub].
  assert (Hin : ∀ p, p ∈ sel → p ∈ ps) by (intros p Hp; by apply Hel, Hsub).
  destruct (placeAll sel g) as (g' & Hrun & Hshape & Hcells & Hcount).
  { by apply Hsnd, Hnd. }
  { intros [r c] Hp. apply Hin in Hp. unfold ps in Hp.
    rewrite positions_filter in Hp. apply list_elem_of_filter in Hp as [_ Hp].
    apply elem_of_allPositions in Hp. simpl.
    apply (getCell_inBounds g cols r c Hrect Hcols), inBounds_iff. lia. }
  exists g', sel. split_and!; try done.
  - by apply Hsnd, Hnd.
  - intros Hle. unfold sel. rewrite slice0_le by lia. rewrite length_take_le by lia. lia.
  - intros Hge p. unfold sel. rewrite slice0_ge by lia. apply Hel.
Qed.

(** ** The client's placement *)

Lemma elem_of_directions9 d :
  d ∈ Client.directions9 ↔ -1 ≤ d.1 ≤ 1 ∧ -1 ≤ d.2 ≤ 1.
Proof.
  unfold Client.directions9. split.
  - intros H. repeat (apply elem_of_cons in H as [->|H]; [simpl; lia|]).
    by apply elem_of_nil in H.
  - destruct d as [a b]. simpl. intros [Ha Hb].
    assert (a = -1 ∨ a = 0 ∨ a = 1) as [->|[->| ->]] by lia;
    assert (b = -1 ∨ b = 0 ∨ b = 1) as [->|[->| ->]] by lia;
    repeat first [apply list_elem_of_here | apply list_elem_of_further].
Qed.

Lemma forbidden_fold (rows cols er ec : Z) (ds : list (Z * Z)) (s0 : gset (Z * Z))
    (p : Z * Z) :
  p ∈ foldl (λ s d,
               let r := er + d.1 in
               let c := ec + d.2 in
               if inBounds rows cols r c then {[ (r, c) ]} ∪ s else s) s0 ds ↔
  p ∈ s0 ∨ ∃ d, d ∈ ds ∧ p = (er + d.1, ec + d.2) ∧ inBounds rows cols p.1 p.2 = true.
Proof.
  revert s0. induction ds as [|d ds IH]; intros s0; simpl.
  - split; [by left|]. intros [H|(d & H & _)]; [done|by apply elem_of_nil in H].
  - rewrite IH. split.
    + intros [H|(d' & Hd' & Hp)].
      * destruct (inBounds rows cols (er + d.1) (ec + d.2)) eqn:E; [|by left].
        apply elem_of_union in H as [H|H]; [|by left].
        apply elem_of_singleton in H as ->. right. exists d. split; [left|done].
      * right. exists d'. split; [by right|done].
    + intros [H|(d' & Hd' & -> & Hb)].
      * left. destruct (inBounds rows cols (er + d.1) (ec + d.2)); [|done].
        apply elem_of_union. by right.
      * apply elem_of_cons in Hd' as [->|Hd'].
        -- left. simpl in Hb. rewrite Hb. apply elem_of_union. left.
           by apply elem_of_singleton.
        -- right. exists d'. done.
Qed.

Lemma forbidden_spec (rows cols er ec r c : Z) :
  (r, c) ∈ Client.forbidden rows cols er ec ↔
  inBounds rows cols r c = true ∧ neighbourhood er ec (r, c) = true.
Proof.
  unfold Client.forbidden. rewrite forbidden_fold. unfold neighbourhood.
  rewrite bool_decide_eq_true. simpl. split.
  - intros [H|(d & Hd & E & Hb)]; [done|]. injection E as -> ->.
    apply elem_of_directions9 in Hd. split; [done|]. lia.
  - intros [Hb Hn]. right. exists (r - er, c - ec). split_and!.
    + apply elem_of_directions9. simpl. lia.
    + simpl. f_equal; lia.
    + done.
Qed.

Section ClientPlacement.

Variable random : nat → Q.

Variables rows cols excludeRow excludeCol mineCount : Z.

Local Abbreviation forb := (Client.forbidden rows cols excludeRow excludeCol).

Local Abbreviation safe := (neighbourhood excludeRow excludeCol).

Local Abbreviation loop := (Client.placeLoop random rows cols forb mineCount).

(** Whenever the loop returns, it has mined [mineCount - placed] more
    cells, none of them forbidden. *)
Lemma placeLoop_partial fuel k placed m g' :
  0 ≤ placed ≤ mineCount → loop fuel k placed m = Done g' →
  mineTotal g' = (mineTotal m + Z.to_nat (mineCount - placed))%nat ∧
  length <$> g' = length <$> m ∧
  (∀ r c, (r, c) ∈ forb → minedAt g' r c = minedAt m r c) ∧
  (∀ r c, minedAt m r c = true → minedAt g' r c = true).
Proof.
  revert k placed m. induction fuel as [|fuel IH]; intros k placed m Hp Hrun; [done|].
  simpl in Hrun. destruct (Z.ltb_spec placed mineCount) as [Hlt|Hge].
  2:{ injection Hrun as <-. replace (mineCount - placed) with 0 by lia.
      split_and!; [simpl; lia|done..]. }
  set (row := randomBelow random k rows) in *.
  set (col := randomBelow random (S k) cols) in *.
  destruct (bool_decide_reflect ((row, col) ∈ forb)) as [Hf|Hf]; [by apply IH in Hrun|].
  destruct (getCell m row col) as [x|] eqn:Hx; [|done].
  destruct (hasMine x) eqn:Hm; [by apply IH in Hrun|].
  unfold modCell in Hrun. rewrite Hx in Hrun.
  apply IH in Hrun as (Hcount & Hshape & Hforb & Hmono); [|lia].
  split_and!.
  - rewrite Hcount, (mineTotal_place _ _ _ x Hx Hm). lia.
  - by rewrite Hshape, updCell_row_lengths.
  - intros r c Hin. rewrite (Hforb _ _ Hin), (minedAt_place _ _ _ _ r c Hx).
    rewrite bool_decide_eq_false_2; [done|]. intros E. by rewrite E in Hin.
  - intros r c Hrc. apply Hmono. rewrite (minedAt_place _ _ _ _ r c Hx).
    by case_bool_decide.
Qed.

Hypothesis random_unit : unitInterval random.

(** An iteration draws a cell of the grid. *)
Lemma placeLoop_draw k m :
  hasDims rows cols m → 0 < cols →
  ∃ x, getCell m (randomBelow random k rows) (randomBelow random (S k) cols) = Some x.
Proof.
  intros Hm Hcols. apply (hasDims_getCell rows cols m _ _ Hm).
  split; apply randomBelow_range; try done. by eapply hasDims_rows_pos.
Qed.

(** A drawn cell that is neither forbidden nor mined is eligible. *)
Lemma placeLoop_eligible m r c x :
  hasDims rows cols m → (r, c) ∉ forb → getCell m r c = Some x → hasMine x = false →
  (r, c) ∈ eligible safe m.
Proof.
  intros Hm Hf Hx Hmine. apply elem_of_eligible; [apply Hm|]. split; [|eauto].
  destruct (safe (r, c)) eqn:Hs; [|done]. exfalso. apply Hf.
  apply forbidden_spec. split; [|done]. apply inBounds_iff.
  apply (hasDims_getCell rows cols m r c Hm). eauto.
Qed.

(** With more mines asked for than there are eligible cells, the loop
    never ends. *)
Lemma placeLoop_diverges fuel k placed m :
  0 < cols → hasDims rows cols m →
  placed + Z.of_nat (length (eligible safe m)) < mineCount →
  loop fuel k placed m = OutOfFuel.
Proof.
  intros Hcols. revert k placed m.
  induction fuel as [|fuel IH]; intros k placed m Hm Hlt; [done|].
  simpl. destruct (Z.ltb_spec placed mineCount) as [_|Hge]; [|lia].
  destruct (placeLoop_draw k m Hm Hcols) as [x Hx].
  set (row := randomBelow random k rows) in *.
  set (col := randomBelow random (S k) cols) in *.
  destruct (bool_decide_reflect ((row, col) ∈ forb)) as [Hf|Hf]; [by apply IH|].
  rewrite Hx. destruct (hasMine x) eqn:Hmine; [by apply IH|].
  unfold modCell. rewrite Hx. apply IH.
  - eapply hasDims_shape; [apply updCell_row_lengths|done].
  - pose proof (eligible_place safe m row col (proj1 Hm)
                  (placeLoop_eligible m row col x Hm Hf Hx Hmine)). lia.
Qed.

Hypothesis random_fair : fairDraws random rows cols.

(** With a fair source and enough eligible cells, the loop ends. *)
Lemma placeLoop_ends rem : ∀ placed m n,
  hasDims rows cols m → Z.of_nat rem = mineCount - placed →
  (rem ≤ length (eligible safe m))%nat →
  ∃ fuel g', loop fuel (2 * n) placed m = Done g'.
Proof.
  induction rem as [|rem IH]; intros placed m n Hm Hrem Hle.
  { exists 1%nat, m. simpl. destruct (Z.ltb_spec placed mineCount); [lia|done]. }
  destruct (eligible safe m) as [|[r0 c0] l] eqn:E; [simpl in Hle; lia|].
  assert ((r0, c0) ∈ eligible safe m) as Hin0 by (rewrite E; left).
  pose proof Hin0 as Hin0'.
  apply (elem_of_eligible safe m r0 c0 (proj1 Hm)) in Hin0' as (Hs0 & x0 & Hx0 & Hmine0).
  assert (0 ≤ r0 < rows ∧ 0 ≤ c0 < cols) as [Hr0 Hc0]
    by (apply (hasDims_getCell rows cols m r0 c0 Hm); eauto).
  assert (Hplace : ∀ k r c x, (r, c) ∉ forb → getCell m r c = Some x → hasMine x = false →
            ∃ fuel g', loop fuel (2 * k) (placed + 1) (updCell (setHasMine true) m r c) = Done g').
  { intros k r c x Hf Hx Hmine. apply IH.
    - eapply hasDims_shape; [apply updCell_row_lengths|done].
    - lia.
    - pose proof (eligible_place safe m r c (proj1 Hm)
                    (placeLoop_eligible m r c x Hm Hf Hx Hmine)).
      rewrite E in *. simpl in *. lia. }
  destruct (random_fair n r0 c0 Hr0 Hc0) as (n' & Hn' & Hdr & Hdc).
  assert (Hgo : ∀ d i, n' = (i + d)%nat → ∃ fuel g', loop fuel (2 * i) placed m = Done g').
  { induction d as [|d IHd]; intros i Hi.
    - assert (i = n') as -> by lia.
      destruct (Hplace (S n') r0 c0 x0) as (fuel & g' & Hrun); [|done..|].
      { intros Hf. apply forbidden_spec in Hf as [_ Hf]. congruence. }
      exists (S fuel), g'. cbn [Client.placeLoop].
      destruct (Z.ltb_spec placed mineCount); [|lia].
      rewrite Hdr, Hdc. rewrite bool_decide_eq_false_2.
      2:{ intros Hf. apply forbidden_spec in Hf as [_ Hf]. congruence. }
      rewrite Hx0, Hmine0. unfold modCell. rewrite Hx0.
      replace (S (S (2 * n'))) with (2 * S n')%nat by lia. done.
    - destruct (placeLoop_draw (2 * i) m Hm ltac:(lia)) as [x Hx].
      destruct (IHd (S i) ltac:(lia)) as (fuel1 & g1 & Hrun1).
      replace (2 * S i)%nat with (S (S (2 * i))) in Hrun1 by lia.
      destruct (bool_decide_reflect
        ((randomBelow random (2 * i) rows, randomBelow random (S (2 * i)) cols) ∈ forb))
        as [Hf|Hf].
      { exists (S fuel1), g1. cbn [Client.placeLoop].
        destruct (Z.ltb_spec placed mineCount); [|lia].
        by rewrite bool_decide_eq_true_2. }
      destruct (hasMine x) eqn:Hmine.
      { exists (S fuel1), g1. cbn [Client.placeLoop].
        destruct (Z.ltb_spec placed mineCount); [|lia].
        rewrite bool_decide_eq_false_2 by done. by rewrite Hx, Hmine. }
      destruct (Hplace (S i) _ _ x Hf Hx Hmine) as (fuel & g' & Hrun).
      replace (2 * S i)%nat with (S (S (2 * i))) in Hrun by lia.
      exists (S fuel), g'. cbn [Client.placeLoop].
      destruct (Z.ltb_spec placed mineCount); [|lia].
      rewrite bool_decide_eq_false_2 by done. rewrite Hx, Hmine.
      unfold modCell. by rewrite Hx. }
  apply (Hgo (n' - n)%nat n). lia.
Qed.

End ClientPlacement.

(** ** The claims on placement *)

Lemma stripFree_rectangular : rectangular stripFree.
Proof. repeat constructor. Qed.

(** C3, as amended: on a rectangular grid with at least one row and no
    mine, for [0 <= mineCount] not above the number of eligible cells,
    [placeMines] leaves exactly [mineCount] mined cells and none in the
    safe zone.  The backend's placement (shuffle, the clicked cell is
    safe) always returns.  The client's placement (rejection sampling, the
    clicked cell and its neighbours are safe) satisfies this whenever it
    returns, and it returns when the random source keeps drawing every
    cell. *)
Theorem placeMines_exact (random : nat → Q) (g : Grid) (mineCount safeRow safeCol : Z) :
  unitInterval random → rectangular g → g ≠ [] → mineTotal g = 0%nat →
  (0 ≤ mineCount ≤ Z.of_nat (length (eligible (singleCell safeRow safeCol) g)) →
   ∃ g', Backend.placeMines random g mineCount safeRow safeCol = Done g' ∧
         Z.of_nat (mineTotal g') = mineCount ∧
         ∀ r c, singleCell safeRow safeCol (r, c) = true → minedAt g' r c = false) ∧
  (0 ≤ mineCount ≤ Z.of_nat (length (eligible (neighbourhood safeRow safeCol) g)) →
   (∀ fuel g', Client.placeMines fuel random g mineCount safeRow safeCol = Done g' →
      Z.of_nat (mineTotal g') = mineCount ∧
      ∀ r c, neighbourhood safeRow safeCol (r, c) = true → minedAt g' r c = false) ∧
   (fairDraws random (numRowsOf g) (default 0 (numColsOf g)) →
    ∃ fuel g', Client.placeMines fuel random g mineCount safeRow safeCol = Done g')).
Proof.
  intros Hunit Hrect Hne Hfree.
  destruct (numColsOf_nonempty g Hne) as [cols Hcols]. split.
  - intros [Hlo Hhi].
    rewrite (eligible_single_free g cols _ _ Hcols Hfree) in Hhi.
    destruct (Backend_placeMines_run random g cols mineCount safeRow safeCol
                Hrect Hcols Hlo)
      as (g' & sel & Hrun & Hnd & Hsub & Hlen & _ & Hshape & Hcells & Hcount).
    exists g'. split_and!; [done| |].
    + rewrite Hcount, Hfree; [|intros; by apply mineTotal_zero]. simpl.
      by apply Hlen.
    + intros r c Hs. rewrite Hcells, (mineTotal_zero g r c Hfree).
      rewrite bool_decide_eq_false_2; [done|]. intros Hin. apply Hsub in Hin.
      rewrite positions_filter in Hin. apply list_elem_of_filter in Hin as [Hin _].
      congruence.
  - intros [Hlo Hhi]. unfold Client.placeMines. rewrite Hcols. simpl. split.
    + intros fuel g' Hrun.
      apply placeLoop_partial in Hrun as (Hcount & Hshape & Hforb & _); [|lia].
      split; [rewrite Hcount, Hfree; lia|]. intros r c Hs.
      destruct (getCell g r c) as [x|] eqn:Hx.
      * rewrite Hforb; [by apply mineTotal_zero|]. apply forbidden_spec.
        split; [|done]. apply (getCell_inBounds g cols r c Hrect Hcols). eauto.
      * by apply (minedAt_shape_None g g').
    + intros Hfair.
      apply (placeLoop_ends random (numRowsOf g) cols safeRow safeCol mineCount Hunit Hfair
               (Z.to_nat mineCount) 0 g 0); [done|lia|lia].
Qed.

Lemma placeMines_exact_witness :
  (∃ g', Backend.placeMines cycling stripFree 1 0 3 = Done g' ∧
         Z.of_nat (mineTotal g') = 1 ∧
         ∀ r c, singleCell 0 3 (r, c) = true → minedAt g' r c = false) ∧
  (∀ fuel g', Client.placeMines fuel cycling stripFree 1 0 3 = Done g' →
      Z.of_nat (mineTotal g') = 1 ∧
      ∀ r c, neighbourhood 0 3 (r, c) = true → minedAt g' r c = false) ∧
  (∃ fuel g', Client.placeMines fuel cycling stripFree 1 0 3 = Done g').
Proof.
  destruct (placeMines_exact cycling stripFree 1 0 3) as [Hbackend Hclient].
  - apply cycling_unit.
  - apply stripFree_rectangular.
  - discriminate.
  - reflexivity.
  - destruct Hclient as [Hpartial Hends]; [by vm_compute|].
    split_and!.
    + apply Hbackend. by vm_compute.
    + apply Hpartial.
    + apply Hends. apply cycling_fair.
Defined.

(** On a grid that already holds a mine, [placeMines] does not leave
    [mineCount] mines: here one is asked for, one cell is eligible at
    least, and two cells are mined in the end, with either copy. *)
Lemma placeMines_exact_counterexample :
  unitInterval quarter ∧ rectangular stripMined ∧
  0 ≤ 1 ≤ Z.of_nat (length (eligible (singleCell 0 3) stripMined)) ∧
  0 ≤ 1 ≤ Z.of_nat (length (eligible (neighbourhood 0 3) stripMined)) ∧
  (∃ g', Backend.placeMines quarter stripMined 1 0 3 = Done g' ∧ mineTotal g' = 2%nat) ∧
  (∃ g', Client.placeMines 2 quarter stripMined 1 0 3 = Done g' ∧ mineTotal g' = 2%nat).
Proof.
  split_and!.
  - apply quarter_unit.
  - repeat constructor.
  - by vm_compute.
  - by vm_compute.
  - by vm_compute.
  - by vm_compute.
  - eexists. split; by vm_compute.
  - eexists. split; by vm_compute.
Qed.

(** C7, as amended: when [mineCount] exceeds the number of eligible cells
    of a rectangular grid with at least one column, [placeMines] signals
    nothing.  The backend's (shuffle) returns normally with every
    eligible cell mined, that is with fewer than [mineCount] mines; the
    client's (rejection sampling) never returns. *)
Theorem placeMines_overconstrained (random : nat → Q) (g : Grid)
    (cols mineCount safeRow safeCol : Z) :
  unitInterval random → rectangular g → numColsOf g = Some cols → 0 < cols →
  (mineTotal g = 0%nat →
   Z.of_nat (length (eligible (singleCell safeRow safeCol) g)) < mineCount →
   ∃ g', Backend.placeMines random g mineCount safeRow safeCol = Done g' ∧
         mineTotal g' = length (eligible (singleCell safeRow safeCol) g) ∧
         ∀ r c, (r, c) ∈ eligible (singleCell safeRow safeCol) g → minedAt g' r c = true) ∧
  (Z.of_nat (length (eligible (neighbourhood safeRow safeCol) g)) < mineCount →
   ∀ fuel, Client.placeMines fuel random g mineCount safeRow safeCol = OutOfFuel).
Proof.
  intros Hunit Hrect Hcols Hpos. split.
  - intros Hfree Hlt.
    rewrite (eligible_single_free g cols _ _ Hcols Hfree) in *.
    destruct (Backend_placeMines_run random g cols mineCount safeRow safeCol
                Hrect Hcols ltac:(lia))
      as (g' & sel & Hrun & Hnd & Hsub & _ & Hall & Hshape & Hcells & Hcount).
    specialize (Hall ltac:(lia)).
    exists g'. split_and!; [done| |].
    + rewrite Hcount, Hfree; [|intros; by apply mineTotal_zero]. simpl.
      apply Permutation_length, NoDup_Permutation; [done| |done].
      rewrite positions_filter. apply NoDup_filter, NoDup_allPositions.
    + intros r c Hin. rewrite Hcells. rewrite bool_decide_eq_true_2; [done|].
      by apply Hall.
  - intros Hlt fuel. unfold Client.placeMines. rewrite Hcols.
    apply placeLoop_diverges; [done..|lia].
Qed.

Lemma placeMines_overconstrained_witness :
  (∃ g', Backend.placeMines quarter stripFree 9 0 3 = Done g' ∧
         mineTotal g' = length (eligible (singleCell 0 3) stripFree) ∧
         ∀ r c, (r, c) ∈ eligible (singleCell 0 3) stripFree → minedAt g' r c = true) ∧
  (∀ fuel, Client.placeMines fuel quarter stripFree 9 0 3 = OutOfFuel).
Proof.
  destruct (placeMines_overconstrained quarter stripFree 4 9 0 3) as [Hbackend Hclient].
  - apply quarter_unit.
  - apply stripFree_rectangular.
  - reflexivity.
  - lia.
  - split.
    + apply Hbackend; by vm_compute.
    + apply Hclient. by vm_compute.
Defined.

(** Nine mines asked of a strip of four cells: the backend returns as if
    nothing were wrong, with three mines; the client never returns. *)
Lemma placeMines_overconstrained_counterexample :
  Backend.placeMines quarter stripFree 9 0 3 =
    Done [[mineCell; mineCell; mineCell; hiddenCell 0]] ∧
  (∀ fuel, Client.placeMines fuel quarter stripFree 9 0 3 = OutOfFuel).
Proof.
  split; [by vm_compute|].
  intros fuel.
  change (Client.placeMines fuel quarter stripFree 9 0 3)
    with (Client.placeLoop quarter 1 4 (Client.forbidden 1 4 0 3) 9 fuel 0 0 stripFree).
  apply placeLoop_diverges.
  - apply quarter_unit.
  - lia.
  - split_and!; [apply stripFree_rectangular|reflexivity..].
  - by vm_compute.
Qed.

(** * The [/reveal] handler *)

(** ** The flood on the store *)

Lemma locAt_Some (g : list (list positive)) r c l :
  Server.locAt g r c = Some l ↔
  0 ≤ r ∧ 0 ≤ c ∧ ∃ row, g !! Z.to_nat r = Some row ∧ row !! Z.to_nat c = Some l.
Proof.
  unfold Server.locAt. split.
  - intros H. apply bind_Some in H as (row & Hr & Hc).
    apply idx_Some in Hr as [? ?]. apply idx_Some in Hc as [? ?]. eauto 6.
  - intros (? & ? & row & Hr & Hc). apply bind_Some. exists row.
    split; apply idx_Some; done.
Qed.

Lemma locAt_concat (g : list (list positive)) r c l :
  Server.locAt g r c = Some l → l ∈ mjoin g.
Proof.
  intros H. apply locAt_Some in H as (_ & _ & row & Hrow & Hl).
  apply list_elem_of_join. exists row. split; apply list_elem_of_lookup; eauto.
Qed.

Lemma cellAt_nonempty g h row col x :
  Server.cellAt g h row col = Some x → length g ≠ 0%nat.
Proof.
  unfold Server.cellAt. intros Hx. apply bind_Some in Hx as (l & Hl & _).
  apply locAt_Some in Hl as (_ & _ & row0 & Hrow & _).
  apply lookup_lt_Some in Hrow. lia.
Qed.

Lemma hiddenObjects_markRevealed (h : gmap positive Cell) l x :
  h !! l = Some x → revealed x = false →
  (Server.hiddenObjects (alter (setRevealed true) l h) < Server.hiddenObjects h)%nat.
Proof.
  intros Hl Hrev. unfold Server.hiddenObjects.
  assert (alter (setRevealed true) l h = <[l := setRevealed true x]> h) as ->.
  { apply map_eq. intros j. destruct (decide (j = l)) as [->|Hne].
    - by rewrite lookup_alter_eq, lookup_insert_eq, Hl.
    - by rewrite lookup_alter_ne, lookup_insert_ne. }
  rewrite map_filter_insert_False by done.
  rewrite map_filter_delete.
  assert (filter (λ kv : positive * Cell, revealed kv.2 = false) h !! l = Some x) as Hf
    by (by apply map_lookup_filter_Some_2).
  rewrite map_size_delete, Hf.
  assert (size (filter (λ kv : positive * Cell, revealed kv.2 = false) h) ≠ 0%nat) as Hne.
  { intros H0. apply map_size_empty_iff in H0. rewrite H0 in Hf. by rewrite lookup_empty in Hf. }
  simpl. lia.
Qed.

Lemma Server_isSafe_true rows cols g h v r c :
  Server.isSafe rows cols g h v r c = Some true →
  ∃ x, Server.cellAt g h r c = Some x ∧ revealed x = false.
Proof.
  unfold Server.isSafe. destruct (inBounds rows cols r c); [|done].
  destruct (Server.cellAt g h r c) as [x|]; [|done].
  destruct (revealed x) eqn:E; [done|]. eauto.
Qed.

Lemma Server_markRevealed_hidden g (h : gmap positive Cell) r c x :
  Server.cellAt g h r c = Some x → revealed x = false →
  (Server.hiddenObjects (Server.markRevealed g h r c) < Server.hiddenObjects h)%nat.
Proof.
  unfold Server.cellAt, Server.markRevealed. intros Hx Hrev.
  destruct (Server.locAt g r c) as [l|]; [|done]. simpl in Hx.
  by eapply hiddenObjects_markRevealed.
Qed.

(** The flood on the store always ends. *)
Lemma Server_revealCellsDFS_ends g h row col :
  Server.revealCellsDFS g h row col ≠ OutOfFuel.
Proof.
  unfold Server.revealCellsDFS. destruct (g !! 0%nat) as [row0|]; [|done].
  apply (floodLoop_terminates _ _ _ Server.hiddenObjects).
  - intros m v r c. apply Server_isSafe_true.
  - intros m r c x. apply Server_markRevealed_hidden.
  - unfold floodFuel. simpl. lia.
Qed.

(** The flood writes to the cell objects of the grid it is given, and to
    no other object of the store. *)
Lemma Server_revealCellsDFS_frame g (h : gmap positive Cell) row col :
  match Server.revealCellsDFS g h row col with
  | Done h' => ∀ l, (∀ r c, Server.locAt g r c ≠ Some l) → h' !! l = h !! l
  | Threw h' => ∀ l, (∀ r c, Server.locAt g r c ≠ Some l) → h' !! l = h !! l
  | OutOfFuel => True
  end.
Proof.
  unfold Server.revealCellsDFS. destruct (g !! 0%nat) as [row0|]; [|done].
  set (P := λ h' : gmap positive Cell,
              ∀ l, (∀ r c, Server.locAt g r c ≠ Some l) → h' !! l = h !! l).
  apply (floodLoop_invariant _ _ _ (λ m _ _, P m) P P); [|done].
  intros m s v Hm. unfold floodStep. destruct s as [|[r c] rest]; [done|].
  destruct (Server.isSafe _ _ g m v r c) as [[]|]; [|done..].
  assert (P (Server.markRevealed g m r c)) as Hm'.
  { intros l Hl. rewrite <- (Hm l Hl). unfold Server.markRevealed.
    destruct (Server.locAt g r c) as [l'|] eqn:E; [|done].
    apply lookup_alter_ne. intros ->. by apply (Hl r c). }
  destruct (Server.cellAt g _ r c); [|done]. by destruct (_ && _).
Qed.

(** ** The deep copy *)

Lemma copyCell_spec (h : gmap positive Cell) l h1 l' :
  Server.copyCell h l = (h1, l') →
  (l' ∉ dom h) ∧ h1 = <[l' := default (mkCell false 0 false false) (h !! l)]> h.
Proof.
  unfold Server.copyCell. intros [= <- <-]. split; [apply is_fresh|done].
Qed.

Lemma copyRow_spec (h : gmap positive Cell) row h2 row' :
  Server.copyRow h row = (h2, row') →
  h ⊆ h2 ∧ length row' = length row ∧ NoDup row' ∧
  (∀ l', l' ∈ row' → (l' ∉ dom h) ∧ l' ∈ dom h2) ∧
  (∀ i l x, row !! i = Some l → h !! l = Some x →
            ∃ l', row' !! i = Some l' ∧ h2 !! l' = Some x).
Proof.
  revert h h2 row'. induction row as [|l row IH]; intros h h2 row'; cbn [Server.copyRow].
  - intros [= <- <-]. split_and!; [done|done|constructor| |done].
    intros l' H. by apply elem_of_nil in H.
  - destruct (Server.copyCell h l) as [h1 l1] eqn:Hc.
    destruct (Server.copyRow h1 row) as [h2' rest] eqn:Hr. intros [= <- <-].
    apply copyCell_spec in Hc as [Hfresh ->].
    destruct (IH _ _ _ Hr) as (Hsub & Hlen & Hnd & Hnew & Hcont).
    assert (h ⊆ <[l1 := default (mkCell false 0 false false) (h !! l)]> h) as Hsub1.
    { apply insert_subseteq. by apply not_elem_of_dom. }
    assert (l1 ∈ dom h2') as Hl1.
    { apply elem_of_dom. eapply lookup_weaken_is_Some; [|exact Hsub].
      rewrite lookup_insert_eq. eauto. }
    split_and!.
    + by etrans.
    + simpl. by rewrite Hlen.
    + constructor; [|done]. intros Hin. apply Hnew in Hin as [Hin _].
      apply Hin. rewrite dom_insert_L. apply elem_of_union. left.
      by apply elem_of_singleton.
    + intros l' Hin. apply elem_of_cons in Hin as [->|Hin]; [done|].
      apply Hnew in Hin as [Hin1 Hin2]. split; [|done].
      intros H. apply Hin1. rewrite dom_insert_L. apply elem_of_union. by right.
    + intros [|i] l0 x Hl0 Hx; simpl in *.
      * injection Hl0 as ->. exists l1. split; [done|].
        eapply lookup_weaken; [|exact Hsub]. by rewrite lookup_insert_eq, Hx.
      * apply (Hcont i l0 x Hl0). eapply lookup_weaken; [exact Hx|done].
Qed.

Lemma copyGrid_spec (h : gmap positive Cell) g h2 g' :
  Server.copyGrid h g = (h2, g') →
  h ⊆ h2 ∧ length <$> g' = length <$> g ∧ NoDup (mjoin g') ∧
  (∀ l', l' ∈ mjoin g' → (l' ∉ dom h) ∧ l' ∈ dom h2) ∧
  (∀ i j row l x, g !! i = Some row → row !! j = Some l → h !! l = Some x →
     ∃ row' l', g' !! i = Some row' ∧ row' !! j = Some l' ∧ h2 !! l' = Some x).
Proof.
  revert h h2 g'. induction g as [|row g IH]; intros h h2 g'; cbn [Server.copyGrid].
  - intros [= <- <-]. split_and!; [done|done|constructor| |done].
    intros l' H. by apply elem_of_nil in H.
  - destruct (Server.copyRow h row) as [h1 row1] eqn:Hc.
    destruct (Server.copyGrid h1 g) as [h2' rest] eqn:Hr. intros [= <- <-].
    apply copyRow_spec in Hc as (Hsub1 & Hlen1 & Hnd1 & Hnew1 & Hcont1).
    destruct (IH _ _ _ Hr) as (Hsub & Hshape & Hnd & Hnew & Hcont).
    split_and!.
    + by etrans.
    + rewrite !fmap_cons. by rewrite Hshape, Hlen1.
    + simpl. apply NoDup_app. split_and!; [done| |done].
      intros l' Hin1 Hin2. apply Hnew in Hin2 as [Hin2 _].
      apply Hnew1 in Hin1 as [_ Hin1]. done.
    + intros l' Hin. simpl in Hin. apply elem_of_app in Hin as [Hin|Hin].
      * apply Hnew1 in Hin as [Ha Hb]. split; [done|].
        apply elem_of_dom. eapply lookup_weaken_is_Some; [|exact Hsub].
        by apply elem_of_dom.
      * apply Hnew in Hin as [Ha Hb]. split; [|done].
        intros H. apply Ha. apply elem_of_dom.
        eapply lookup_weaken_is_Some; [|exact Hsub1]. by apply elem_of_dom.
    + intros [|i] j row0 l x Hrow Hl Hx; simpl in *.
      * injection Hrow as ->. destruct (Hcont1 j l x Hl Hx) as (l' & Hl' & Hx').
        exists row1, l'. split_and!; [done..|]. eapply lookup_weaken; [exact Hx'|done].
      * apply (Hcont i j row0 l x Hrow Hl). eapply lookup_weaken; [exact Hx|done].
Qed.

(** Past the entry check, the handler floods a copy. *)
Lemma reveal_floods_copy h g row col x :
  Server.cellAt g h row col = Some x → revealed x = false → flagged x = false →
  Server.reveal h (Some g) row col =
  match Server.revealCellsDFS (Server.copyGrid h g).2 (Server.copyGrid h g).1 row col with
  | Done h2 => Done (h2, Server.Json (Server.copyGrid h g).2)
  | Threw h2 => Threw h2
  | OutOfFuel => OutOfFuel
  end.
Proof.
  intros Hx Hrev Hflag. unfold Server.reveal.
  rewrite bool_decide_eq_false_2 by (by eapply cellAt_nonempty).
  rewrite Hx, Hrev, Hflag. simpl. by destruct (Server.copyGrid h g).
Qed.

(** The flood of a copy leaves the objects that were there alone. *)
Lemma copy_flood_frame (h : gmap positive Cell) g row col :
  match Server.revealCellsDFS (Server.copyGrid h g).2 (Server.copyGrid h g).1 row col with
  | Done h2 => h ⊆ h2
  | Threw h2 => h ⊆ h2
  | OutOfFuel => False
  end.
Proof.
  destruct (Server.copyGrid h g) as [h1 copiedGrid] eqn:Hcopy. simpl.
  apply copyGrid_spec in Hcopy as (Hsub & _ & _ & Hnew & _).
  pose proof (Server_revealCellsDFS_ends copiedGrid h1 row col) as Hends.
  pose proof (Server_revealCellsDFS_frame copiedGrid h1 row col) as Hframe.
  assert (Hkeep : ∀ h2 : gmap positive Cell,
            (∀ l, (∀ r c, Server.locAt copiedGrid r c ≠ Some l) → h2 !! l = h1 !! l) →
            h ⊆ h2).
  { intros h2 H2. apply map_subseteq_spec. intros l y Hl. rewrite H2.
    - eapply lookup_weaken; [exact Hl|done].
    - intros r c Hloc. apply locAt_concat, Hnew in Hloc as [Hloc _].
      apply Hloc. apply elem_of_dom. eauto. }
  destruct (Server.revealCellsDFS copiedGrid h1 row col); [by apply Hkeep..|done].
Qed.

(** ** The claims on the handler *)

(** C9: the reveal operation never mutates the caller-supplied grid.  When
    the target cell is neither revealed nor flagged, the handler floods a
    deep copy: whether it answers or raises, every cell object that was in
    the store is there unchanged, so every cell of the caller's grid reads
    as before, and the grid it answers with is made of new objects.  The
    handler always ends, and never answers 400 here. *)
Theorem reveal_never_mutates_input (h : gmap positive Cell) (g : list (list positive))
    (row col : Z) (x : Cell) :
  Server.cellAt g h row col = Some x → revealed x = false → flagged x = false →
  match Server.reveal h (Some g) row col with
  | Done (h', Server.Json g') =>
      h ⊆ h' ∧
      (∀ r c y, Server.cellAt g h r c = Some y → Server.cellAt g h' r c = Some y) ∧
      (∀ r c l, Server.locAt g' r c = Some l → l ∉ dom h)
  | Done (_, Server.BadRequest) => False
  | Threw h' =>
      h ⊆ h' ∧
      (∀ r c y, Server.cellAt g h r c = Some y → Server.cellAt g h' r c = Some y)
  | OutOfFuel => False
  end.
Proof.
  intros Hx Hrev Hflag.
  rewrite (reveal_floods_copy h g row col x Hx Hrev Hflag).
  pose proof (copy_flood_frame h g row col) as Hframe.
  assert (Hfresh : ∀ r c l,
            Server.locAt (Server.copyGrid h g).2 r c = Some l → l ∉ dom h).
  { destruct (Server.copyGrid h g) as [h1 copiedGrid] eqn:Hcopy. simpl.
    apply copyGrid_spec in Hcopy as (_ & _ & _ & Hnew & _).
    intros r c l Hloc. by apply locAt_concat, Hnew in Hloc as [Hloc _]. }
  assert (Hread : ∀ h2 : gmap positive Cell, h ⊆ h2 →
            ∀ r c y, Server.cellAt g h r c = Some y → Server.cellAt g h2 r c = Some y).
  { intros h2 Hsub r c y. unfold Server.cellAt. intros Hy.
    apply bind_Some in Hy as (l & -> & Hy). simpl.
    eapply lookup_weaken; [exact Hy|done]. }
  destruct (Server.revealCellsDFS _ _ row col) as [h2|h2|]; [| |done].
  - split_and!; [done|by apply Hread|done].
  - split; [done|by apply Hread].
Qed.

Lemma reveal_never_mutates_input_witness :
  match Server.reveal threeCells (Some raggedLong) 0 0 with
  | Done (h', Server.Json g') =>
      threeCells ⊆ h' ∧
      (∀ r c y, Server.cellAt raggedLong threeCells r c = Some y →
                Server.cellAt raggedLong h' r c = Some y) ∧
      (∀ r c l, Server.locAt g' r c = Some l → l ∉ dom threeCells)
  | Done (_, Server.BadRequest) => False
  | Threw h' =>
      threeCells ⊆ h' ∧
      (∀ r c y, Server.cellAt raggedLong threeCells r c = Some y →
                Server.cellAt raggedLong h' r c = Some y)
  | OutOfFuel => False
  end.
Proof.
  apply (reveal_never_mutates_input threeCells raggedLong 0 0 (hiddenCell 0));
    reflexivity.
Defined.

(** C8, as amended: on the reveal boundary only a missing or empty grid is
    rejected by validation (status 400), before any indexing.  Coordinates
    outside the grid are not validated: reading [grid[row][col]] raises an
    exception that leaves the handler, before any copy or mutation.  (And
    a ragged grid is not rejected at all.) *)
Theorem reveal_rejections (h : gmap positive Cell) (g : list (list positive))
    (row col : Z) :
  Server.reveal h None row col = Done (h, Server.BadRequest) ∧
  Server.reveal h (Some []) row col = Done (h, Server.BadRequest) ∧
  (g ≠ [] → Server.locAt g row col = None →
   Server.reveal h (Some g) row col = Threw h).
Proof.
  split_and!; [done..|].
  intros Hne Hloc. unfold Server.reveal.
  rewrite bool_decide_eq_false_2 by (by destruct g).
  unfold Server.cellAt. by rewrite Hloc.
Qed.

Lemma reveal_rejections_witness :
  Server.reveal threeCells None 5 0 = Done (threeCells, Server.BadRequest) ∧
  Server.reveal threeCells (Some []) 5 0 = Done (threeCells, Server.BadRequest) ∧
  Server.reveal threeCells (Some raggedLong) 5 0 = Threw threeCells.
Proof.
  destruct (reveal_rejections threeCells raggedLong 5 0) as (H1 & H2 & H3).
  split_and!; [exact H1|exact H2|].
  apply H3; [discriminate|reflexivity].
Defined.

(** Ragged grids are not rejected.  With a second row longer than the
    first, the handler answers with the flooded copy; with a second row
    shorter, it floods the copy until it reaches the missing cell and
    raises there, a cell of the copy already revealed. *)
Lemma reveal_rejections_counterexample :
  match Server.reveal threeCells (Some raggedLong) 0 0 with
  | Done (h', Server.Json g') =>
      Server.snapshot h' g' =
        [[Some (shownCell 0)]; [Some (shownCell 0); Some (flaggedCell 0)]]
  | _ => False
  end ∧
  match Server.reveal threeCells (Some raggedShort) 0 0 with
  | Threw h' => ∃ l, threeCells !! l = None ∧ h' !! l = Some (shownCell 0)
  | _ => False
  end.
Proof.
  split.
  - by vm_compute.
  - vm_compute. exists 4%positive. by vm_compute.
Qed.

(** C5: the flag gates the entry point only.  The handler answers with
    the grid it was given, untouched, when the target cell is revealed or
    flagged: a plain answer, not an error.  The flood itself never reads
    [flagged]: on grids that differ in their flags only it reveals the
    same cells, flagged or not.  And it reveals through flags: on a
    rectangular grid it returns with its seed revealed, and every cell
    beside a zero that it opened ends revealed, its flag still on it,
    whether it carried one or not; a flagged zero that it reaches is
    opened and expanded like any other.  (Both copies of the engine.) *)
Theorem reveal_gate_only (h : gmap positive Cell) (g : list (list positive))
    (row col : Z) (x : Cell) (e : engine) (g1 g2 : Grid) (seedRow seedCol : Z) :
  Server.cellAt g h row col = Some x → revealed x = true ∨ flagged x = true →
  sameButFlags g1 g2 →
  Server.reveal h (Some g) row col = Done (h, Server.Json g) ∧
  match revealCellsDFS e g1 seedRow seedCol, revealCellsDFS e g2 seedRow seedCol with
  | Done a, Done b => sameButFlags a b
  | Threw a, Threw b => sameButFlags a b
  | _, _ => False
  end ∧
  (rectangular g1 → is_Some (getCell g1 seedRow seedCol) →
   ∃ g1', revealCellsDFS e g1 seedRow seedCol = Done g1' ∧
          (∃ y, getCell g1' seedRow seedCol = Some y ∧ revealed y = true) ∧
          ∀ r c d z, openedZero g1 g1' r c → d ∈ directions →
            getCell g1 (r + d.1) (c + d.2) = Some z →
            ∃ z', getCell g1' (r + d.1) (c + d.2) = Some z' ∧
                  revealed z' = true ∧ flagged z' = flagged z).
Proof.
  intros Hx Hgate Hsame. split_and!; [|by apply revealCellsDFS_ignores_flags|].
  - unfold Server.reveal.
    rewrite bool_decide_eq_false_2 by (by eapply cellAt_nonempty). rewrite Hx.
    destruct Hgate as [-> | ->]; [done|]. by rewrite orb_true_r.
  - intros Hrect [seed Hseed].
    destruct (revealCellsDFS_closure e g1 seedRow seedCol seed Hrect Hseed)
      as (g1' & Hrun & Hshown & Hclose).
    exists g1'. split_and!; [done|done|]. intros r c d z Hz Hd Hn.
    pose proof (revealCellsDFS_frame e g1 seedRow seedCol) as Hframe.
    rewrite Hrun in Hframe.
    destruct (onlyReveals_getCell _ _ _ _ _ Hframe Hn) as (z' & Hz' & _ & _ & Hf & _).
    exists z'. split_and!; [done| |done]. by apply (Hclose r c d z' Hz Hd).
Qed.

Lemma reveal_gate_only_witness :
  Server.reveal threeCells (Some oneFlagged) 0 0 =
    Done (threeCells, Server.Json oneFlagged) ∧
  match revealCellsDFS backend [[hiddenCell 0; flaggedCell 0]] 0 0,
        revealCellsDFS backend [[hiddenCell 0; hiddenCell 0]] 0 0 with
  | Done a, Done b => sameButFlags a b
  | Threw a, Threw b => sameButFlags a b
  | _, _ => False
  end ∧
  ∃ g1', revealCellsDFS backend [[hiddenCell 0; flaggedCell 0]] 0 0 = Done g1' ∧
         (∃ y, getCell g1' 0 0 = Some y ∧ revealed y = true) ∧
         ∃ z', getCell g1' 0 1 = Some z' ∧ revealed z' = true ∧ flagged z' = true.
Proof.
  destruct (reveal_gate_only threeCells oneFlagged 0 0 (flaggedCell 0) backend
              [[hiddenCell 0; flaggedCell 0]] [[hiddenCell 0; hiddenCell 0]] 0 0)
    as (Hgate & Hsame & Hthrough).
  - reflexivity.
  - right. reflexivity.
  - repeat constructor.
  - split_and!; [exact Hgate|exact Hsame|].
    destruct Hthrough as (g1' & Hrun & Hseed & Hbeside).
    + repeat constructor.
    + by eexists.
    + exists g1'. split_and!; [exact Hrun|exact Hseed|].
      apply (Hbeside 0 0 (0, 1) (flaggedCell 0)).
      * vm_compute in Hrun. injection Hrun as <-.
        exists (hiddenCell 0), (shownCell 0). by vm_compute.
      * unfold directions. do 4 apply list_elem_of_further. apply list_elem_of_here.
      * reflexivity.
Defined.

(** ** The flood on the store is the flood on values *)

Lemma viewOf_cellAt g h m r c :
  viewOf g h m → Server.cellAt g h r c = getCell m r c.
Proof.
  intros H. unfold Server.cellAt.
  destruct (Server.locAt g r c) as [l|] eqn:Hl; simpl.
  - apply locAt_Some in Hl as (Hr & Hc & row & Hrow & Hl).
    destruct (Forall2_lookup_l _ _ _ _ _ H Hrow) as (row' & Hrow' & Hrows).
    destruct (Forall2_lookup_l _ _ _ _ _ Hrows Hl) as (x & Hx & ->).
    symmetry. apply getCell_Some. eauto 6.
  - destruct (getCell m r c) as [x|] eqn:Hx; [|done].
    apply getCell_Some in Hx as (Hr & Hc & row' & Hrow' & Hx).
    destruct (Forall2_lookup_r _ _ _ _ _ H Hrow') as (row & Hrow & Hrows).
    destruct (Forall2_lookup_r _ _ _ _ _ Hrows Hx) as (l & Hl' & _).
    assert (Server.locAt g r c = Some l) by (apply locAt_Some; eauto 6). congruence.
Qed.

Lemma NoDup_join_lookup {A} (g : list (list A)) i j i' j' row row' (l : A) :
  NoDup (mjoin g) →
  g !! i = Some row → row !! j = Some l →
  g !! i' = Some row' → row' !! j' = Some l →
  i = i' ∧ j = j'.
Proof.
  revert i i'. induction g as [|row0 g IH]; intros i i' Hnd Hi Hj Hi' Hj'; [done|].
  simpl in Hnd. apply NoDup_app in Hnd as (Hnd0 & Hdisj & Hnd).
  assert (Hin : ∀ k r, g !! k = Some r → l ∈ r → l ∈ mjoin g).
  { intros k r Hk Hl. apply list_elem_of_join. exists r. split; [done|].
    apply list_elem_of_lookup. eauto. }
  destruct i as [|i], i' as [|i']; simpl in Hi, Hi'.
  - injection Hi as <-. injection Hi' as <-. split; [done|].
    exact (NoDup_lookup _ _ _ _ Hnd0 Hj Hj').
  - injection Hi as <-. exfalso. apply (Hdisj l).
    + apply list_elem_of_lookup. eauto.
    + apply (Hin i' row' Hi'). apply list_elem_of_lookup. eauto.
  - injection Hi' as <-. exfalso. apply (Hdisj l).
    + apply list_elem_of_lookup. eauto.
    + apply (Hin i row Hi). apply list_elem_of_lookup. eauto.
  - destruct (IH i i' Hnd Hi Hj Hi' Hj') as [-> ->]. done.
Qed.

Lemma viewOf_markRevealed g h m r c x :
  NoDup (mjoin g) → viewOf g h m → Server.cellAt g h r c = Some x →
  viewOf g (Server.markRevealed g h r c) (markRevealed m r c).
Proof.
  intros Hnd H Hx. unfold Server.markRevealed, Server.cellAt in *.
  destruct (Server.locAt g r c) as [l|] eqn:Hl; [|done]. simpl in Hx.
  apply locAt_Some in Hl as (Hr & Hc & row & Hrow & Hl).
  unfold viewOf, markRevealed, updCell. apply Forall2_same_length_lookup. split.
  { rewrite length_alter. by eapply Forall2_length. }
  intros i row1 row1' Hrow1 Hrow1'. apply Forall2_same_length_lookup.
  destruct (Forall2_lookup_l _ _ _ _ _ H Hrow1) as (mrow & Hmrow & Hrows).
  assert (Hlookup : ∀ j l1, row1 !! j = Some l1 →
            alter (setRevealed true) l h !! l1 =
            (if decide (i = Z.to_nat r ∧ j = Z.to_nat c) then setRevealed true else id)
              <$> h !! l1).
  { intros j l1 Hl1. case_decide as E.
    - destruct E as [-> ->]. assert (l1 = l) as -> by congruence.
      by rewrite lookup_alter_eq.
    - rewrite lookup_alter_ne; [by destruct (h !! l1)|]. intros ->. apply E.
      eapply (NoDup_join_lookup g i j (Z.to_nat r) (Z.to_nat c)); eauto. }
  destruct (decide (i = Z.to_nat r)) as [->|Hne].
  - rewrite list_lookup_alter_eq, Hmrow in Hrow1'. simpl in Hrow1'. injection Hrow1' as <-.
    split; [rewrite length_alter; by eapply Forall2_length|].
    intros j l1 y Hl1 Hy. rewrite (Hlookup j l1 Hl1).
    destruct (Forall2_lookup_l _ _ _ _ _ Hrows Hl1) as (y0 & Hy0 & ->).
    destruct (decide (j = Z.to_nat c)) as [->|Hnej].
    + rewrite list_lookup_alter_eq, Hy0 in Hy. simpl in Hy. injection Hy as <-.
      by rewrite decide_True.
    + rewrite list_lookup_alter_ne, Hy0 in Hy by done. injection Hy as <-.
      rewrite decide_False by tauto. done.
  - rewrite list_lookup_alter_ne, Hmrow in Hrow1' by done. injection Hrow1' as <-.
    split; [by eapply Forall2_length|].
    intros j l1 y Hl1 Hy. rewrite (Hlookup j l1 Hl1).
    destruct (Forall2_lookup_l _ _ _ _ _ Hrows Hl1) as (y0 & Hy0 & ->).
    rewrite decide_False by tauto. simpl. congruence.
Qed.

(** On a grid of the store whose cell objects are pairwise distinct, the
    flood does to the store what the backend's [revealCellsDFS] does to the
    grid value. *)
Lemma Server_revealCellsDFS_refines g h m row col :
  NoDup (mjoin g) → viewOf g h m →
  match Server.revealCellsDFS g h row col, Backend.revealCellsDFS m row col with
  | Done h', Done m' => viewOf g h' m'
  | Threw h', Threw m' => viewOf g h' m'
  | _, _ => False
  end.
Proof.
  intros Hnd H.
  pose proof (Server_revealCellsDFS_ends g h row col) as HendS.
  pose proof (Backend_revealCellsDFS_ends m row col) as HendB.
  destruct (g !! 0%nat) as [row0|] eqn:Hrow0.
  2:{ unfold Server.revealCellsDFS, Backend.revealCellsDFS, numColsOf. rewrite Hrow0.
      destruct (m !! 0%nat) as [mrow0|] eqn:Hm0; [|done].
      destruct (Forall2_lookup_r _ _ _ _ _ H Hm0) as (? & ? & _). congruence. }
  destruct (Forall2_lookup_l _ _ _ _ _ H Hrow0) as (mrow0 & Hm0 & Hrows0).
  set (rows := Z.of_nat (length g)). set (cols := Z.of_nat (length row0)).
  assert (Server.revealCellsDFS g h row col =
          floodLoop (Server.cellAt g) (Server.markRevealed g) (Server.isSafe rows cols g)
            (floodFuel (Server.hiddenObjects h)) h [(row, col)] ∅) as HS.
  { unfold Server.revealCellsDFS. by rewrite Hrow0. }
  assert (Backend.revealCellsDFS m row col =
          floodLoop getCell markRevealed (Backend.isSafe rows cols)
            (floodFuel (hiddenCells m)) m [(row, col)] ∅) as HB.
  { unfold Backend.revealCellsDFS, numColsOf, numRowsOf. rewrite Hm0. simpl.
    unfold rows, cols.
    by rewrite (Forall2_length _ _ _ H), (Forall2_length _ _ _ Hrows0). }
  rewrite HS, HB in *.
  set (fuel := (floodFuel (Server.hiddenObjects h) + floodFuel (hiddenCells m))%nat).
  pose proof (floodLoop_fuel_mono _ _ _ _ fuel _ _ _ HendS ltac:(unfold fuel; lia)) as ES.
  pose proof (floodLoop_fuel_mono _ _ _ _ fuel _ _ _ HendB ltac:(unfold fuel; lia)) as EB.
  rewrite <- ES, <- EB in *. clear ES EB HS HB.
  pose proof (floodLoop_sim
    (Server.cellAt g) (Server.markRevealed g) (Server.isSafe rows cols g)
    getCell markRevealed (Backend.isSafe rows cols)
    (λ h' m' _, viewOf g h' m')) as Hsim.
  specialize (Hsim ltac:(
    intros h1 m1 v r c H1; unfold Server.isSafe, Backend.isSafe;
    by rewrite (viewOf_cellAt g h1 m1 r c H1))).
  specialize (Hsim ltac:(
    intros h1 m1 v r c H1 Ht; apply Server_isSafe_true in Ht as (x & Hx & _);
    by eapply viewOf_markRevealed)).
  specialize (Hsim ltac:(
    intros h1 m1 v r c H1; rewrite (viewOf_cellAt g h1 m1 r c H1);
    by destruct (getCell m1 r c))).
  specialize (Hsim fuel h m [(row, col)] ∅ H). unfold sameOutcome in Hsim.
  destruct (floodLoop (Server.cellAt g) _ _ fuel _ _ _),
           (floodLoop getCell _ _ fuel _ _ _); try done;
    by destruct Hsim.
Qed.

Lemma viewOf_weaken g (h h' : gmap positive Cell) m :
  h ⊆ h' → viewOf g h m → viewOf g h' m.
Proof.
  intros Hsub H. eapply Forall2_impl; [exact H|]. intros row mrow Hrow.
  eapply Forall2_impl; [exact Hrow|]. intros l x Hl. simpl in *.
  eapply lookup_weaken; [exact Hl|done].
Qed.

Lemma viewOf_copy (h : gmap positive Cell) g m :
  viewOf g h m → viewOf (Server.copyGrid h g).2 (Server.copyGrid h g).1 m.
Proof.
  intros H. destruct (Server.copyGrid h g) as [h1 copiedGrid] eqn:Hcopy. simpl.
  apply copyGrid_spec in Hcopy as (_ & Hshape & _ & _ & Hcont).
  assert (Hlens : ∀ i, length <$> (copiedGrid !! i) = length <$> (g !! i)).
  { intros i. rewrite <- !list_lookup_fmap. by rewrite Hshape. }
  apply Forall2_same_length_lookup. split.
  { rewrite <- (Forall2_length _ _ _ H).
    rewrite <- (length_fmap length copiedGrid), Hshape. apply length_fmap. }
  intros i row' mrow Hrow' Hmrow.
  destruct (Forall2_lookup_r _ _ _ _ _ H Hmrow) as (row & Hrow & Hrows).
  pose proof (Hlens i) as Hlen. rewrite Hrow', Hrow in Hlen. simpl in Hlen.
  injection Hlen as Hlen.
  apply Forall2_same_length_lookup. split.
  { rewrite Hlen. by eapply Forall2_length. }
  intros j l' y Hl' Hy.
  destruct (Forall2_lookup_r _ _ _ _ _ Hrows Hy) as (l & Hl & Hly).
  destruct (Hcont i j row l y Hrow Hl Hly) as (row'' & l'' & Hrow'' & Hl'' & Hy'').
  congruence.
Qed.

(** On a request whose grid is [m] in the store, the handler answers with
    a grid of new objects that is [revealCellsDFS m row col], and leaves the
    request's grid as it was. *)
Lemma reveal_refines (h : gmap positive Cell) g m row col x :
  viewOf g h m → getCell m row col = Some x → revealed x = false → flagged x = false →
  match Server.reveal h (Some g) row col, Backend.revealCellsDFS m row col with
  | Done (h', Server.Json g'), Done m' => viewOf g' h' m' ∧ viewOf g h' m
  | Threw h', Threw _ => viewOf g h' m
  | _, _ => False
  end.
Proof.
  intros H Hx Hrev Hflag.
  rewrite (reveal_floods_copy h g row col x); [|by rewrite (viewOf_cellAt g h m)|done..].
  pose proof (copy_flood_frame h g row col) as Hframe.
  pose proof (Server_revealCellsDFS_refines (Server.copyGrid h g).2 (Server.copyGrid h g).1
                m row col) as Href.
  specialize (Href ltac:(
    destruct (Server.copyGrid h g) as [h1 copiedGrid] eqn:Hcopy;
    by apply copyGrid_spec in Hcopy as (_ & _ & ? & _)) (viewOf_copy h g m H)).
  destruct (Server.revealCellsDFS _ _ row col), (Backend.revealCellsDFS m row col);
    try done.
  - split; [done|]. by eapply viewOf_weaken.
  - by eapply viewOf_weaken.
Qed.

(** * The scenarios of the specification *)

(** One cell, no mine: revealing it wins. *)
Example scenario_one_cell :
  countAdjacentMines backend [[hiddenCell 0]] = Done [[hiddenCell 0]] ∧
  revealCellsDFS backend [[hiddenCell 0]] 0 0 = Done [[shownCell 0]] ∧
  App.checkWin [[shownCell 0]] = Some true.
Proof. by vm_compute. Qed.

(** Three by three with a mine in the corner (2, 2): the flood from (0, 0)
    reveals the eight other cells, and the game is won with the mine
    hidden. *)
Example scenario_corner_mine :
  countAdjacentMines backend cornerMine = Done cornerMineCounted ∧
  revealCellsDFS backend cornerMineCounted 0 0 = Done cornerMineWon ∧
  revealCellsDFS client cornerMineCounted 0 0 = Done cornerMineWon ∧
  App.checkWin cornerMineWon = Some true ∧
  App.checkWin cornerMineCounted = Some false.
Proof. by vm_compute. Qed.

(** A flagged cell in the way of the flood is revealed like any other. *)
Example scenario_flood_through_flag :
  revealCellsDFS backend [[hiddenCell 0; flaggedCell 0]] 0 0 =
    Done [[shownCell 0; mkCell false 0 true true]] ∧
  revealCellsDFS client [[hiddenCell 0; flaggedCell 0]] 0 0 =
    Done [[shownCell 0; mkCell false 0 true true]].
Proof. by vm_compute. Qed.

(** * More on the engine *)

(** ** Lists and grids *)

Lemma filter_none {A} (P : A → Prop) `{!∀ x, Decision (P x)} (l : list A) :
  (∀ x, x ∈ l → ¬ P x) → filter P l = [].
Proof.
  induction l as [|x l IH]; intros Hl; [done|].
  rewrite filter_cons_False by (apply Hl; left). apply IH. intros y Hy. apply Hl. by right.
Qed.

Lemma filter_all {A} (P : A → Prop) `{!∀ x, Decision (P x)} (l : list A) :
  (∀ x, x ∈ l → P x) → filter P l = l.
Proof.
  induction l as [|x l IH]; intros Hl; [done|].
  rewrite filter_cons_True by (apply Hl; left). f_equal. apply IH.
  intros y Hy. apply Hl. by right.
Qed.

Lemma length_bind_const {A B} (f : A → list B) (l : list A) n :
  (∀ x, length (f x) = n) → length (l ≫= f) = (length l * n)%nat.
Proof.
  intros H. induction l as [|x l IH]; [done|].
  rewrite bind_cons, length_app, IH, H. simpl. lia.
Qed.

Lemma filter_cons_bool {A} (f : A → bool) (x : A) (l : list A) :
  filter (λ y, f y = true) (x :: l) =
  if f x then x :: filter (λ y, f y = true) l else filter (λ y, f y = true) l.
Proof.
  destruct (f x) eqn:E; [by rewrite filter_cons_True|].
  rewrite filter_cons_False; [done|congruence].
Qed.



Lemma idx_fmap {A B} (f : A → B) (l : list A) i : idx (f <$> l) i = f <$> idx l i.
Proof. unfold idx. case_bool_decide; [apply list_lookup_fmap|done]. Qed.

Lemma getCell_showMines g r c :
  getCell (Handlers.showMines g) r c =
  (λ x, if hasMine x then setRevealed true x else x) <$> getCell g r c.
Proof.
  unfold getCell, Handlers.showMines. rewrite idx_fmap.
  destruct (idx g r) as [row|]; simpl; [|done]. apply idx_fmap.
Qed.

Lemma grid_ext (g g' : Grid) :
  length <$> g' = length <$> g →
  (∀ r c x, getCell g r c = Some x → getCell g' r c = Some x) → g' = g.
Proof.
  intros Hshape H. symmetry.
  assert (Forall2 (Forall2 eq) g g') as HF.
  { apply Forall2_grid; [done|]. intros r c x y Hx Hy. apply H in Hx. congruence. }
  apply list_eq_Forall2. eapply Forall2_impl; [exact HF|].
  intros row row' Hrow. by apply list_eq_Forall2.
Qed.

Lemma countCells_none p g :
  (∀ r c x, getCell g r c = Some x → p x = false) → countCells p g = 0%nat.
Proof.
  intros H. unfold countCells.
  assert (Hrows : ∀ i row j x, g !! i = Some row → row !! j = Some x → p x = false).
  { intros i row j x Hrow Hx. apply (H (Z.of_nat i) (Z.of_nat j)).
    by rewrite getCell_nat, Hrow. }
  clear H. induction g as [|row g IH]; [done|].
  rewrite fmap_cons. simpl. rewrite IH.
  - assert (filter (λ x, p x = true) row = []) as ->; [|done].
    apply filter_none. intros x Hin.
    apply list_elem_of_lookup in Hin as [j Hj].
    rewrite (Hrows 0%nat row j x eq_refl Hj). done.
  - intros i row' j x Hrow Hx. apply (Hrows (S i) row' j x Hrow Hx).
Qed.

(** ** Fresh grids *)

Lemma getCell_emptyGrid rows cols r c :
  getCell (emptyGrid rows cols) r c =
  if inBounds rows cols r c then Some emptyCell else None.
Proof.
  unfold getCell, emptyGrid, emptyCell, idx, inBounds.
  destruct (bool_decide_reflect (0 ≤ r)) as [Hr|Hr]; simpl.
  2:{ destruct (Z.leb_spec 0 r); [lia|done]. }
  destruct (Z.leb_spec 0 r); [|lia]. simpl.
  destruct (Z.ltb_spec r rows) as [Hlt|Hge]; simpl.
  - rewrite lookup_replicate_2 by lia. simpl.
    destruct (bool_decide_reflect (0 ≤ c)) as [Hc|Hc].
    + destruct (Z.leb_spec 0 c); [|lia]. simpl.
      destruct (Z.ltb_spec c cols).
      * by rewrite lookup_replicate_2 by lia.
      * apply lookup_replicate_None. lia.
    + destruct (Z.leb_spec 0 c); [lia|done].
  - assert (replicate (Z.to_nat rows) (replicate (Z.to_nat cols) (mkCell false 0 false false))
              !! Z.to_nat r = None) as -> by (apply lookup_replicate_None; lia).
    done.
Qed.

Lemma emptyGrid_rectangular rows cols : rectangular (emptyGrid rows cols).
Proof.
  unfold emptyGrid.
  destruct (Z.to_nat rows) as [|n]; [done|]. simpl.
  constructor; [done|]. apply Forall_replicate. done.
Qed.

(** [Array.from] raises from 2^32 on, and makes the list below it. *)
Lemma Array_from_Some {A} (len : Z) (x : A) :
  len < 2 ^ 32 → Array_from len (Some x) = Some (replicate (Z.to_nat len) x).
Proof.
  intros Hlen. unfold Array_from.
  destruct (Z.leb_spec (2 ^ 32) len); [lia|].
  by destruct (Z.to_nat len).
Qed.

Lemma Array_from_large {A} (len : Z) (mapFn : option A) :
  2 ^ 32 ≤ len → Array_from len mapFn = None.
Proof.
  intros Hlen. unfold Array_from. by destruct (Z.leb_spec (2 ^ 32) len); [|lia].
Qed.

Lemma Array_from_empty {A} (len : Z) (mapFn : option A) :
  len ≤ 0 → Array_from len mapFn = Some [].
Proof.
  intros Hlen. unfold Array_from.
  destruct (Z.leb_spec (2 ^ 32) len); [lia|].
  by replace (Z.to_nat len) with 0%nat by lia.
Qed.

Lemma Array_from_raises {A} (len : Z) :
  0 < len → Array_from len (@None A) = None.
Proof.
  intros Hlen. unfold Array_from.
  destruct (2 ^ 32 <=? len); [done|].
  destruct (Z.to_nat len) eqn:E; [lia|done].
Qed.

(** [createEmptyGrid] within the lengths an array can have. *)
Lemma createEmptyGrid_within rows cols :
  rows < 2 ^ 32 → (0 < rows → cols < 2 ^ 32) →
  Backend.createEmptyGrid rows cols = Some (emptyGrid rows cols).
Proof.
  intros Hrows Hcols. unfold Backend.createEmptyGrid, emptyGrid.
  destruct (Z.le_gt_cases rows 0) as [Hle|Hgt].
  - rewrite Array_from_empty by done. by replace (Z.to_nat rows) with 0%nat by lia.
  - rewrite (Array_from_Some cols) by auto. by rewrite Array_from_Some by done.
Qed.

(** [createEmptyGrid] beyond them: the [RangeError] of [Array.from]. *)
Lemma createEmptyGrid_beyond rows cols :
  2 ^ 32 ≤ rows ∨ (0 < rows ∧ 2 ^ 32 ≤ cols) →
  Backend.createEmptyGrid rows cols = None.
Proof.
  intros [Hrows|[Hrows Hcols]]; unfold Backend.createEmptyGrid.
  - by apply Array_from_large.
  - rewrite (Array_from_large cols) by done.
    destruct (Z.le_gt_cases (2 ^ 32) rows); [by apply Array_from_large|].
    by apply Array_from_raises.
Qed.

Lemma Client_createEmptyGrid rows cols :
  Client.createEmptyGrid rows cols = Backend.createEmptyGrid rows cols.
Proof. reflexivity. Qed.

Lemma checkWin_emptyGrid rows cols :
  App.checkWin (emptyGrid rows cols) = Some (negb ((0 <? rows) && (0 <? cols))).
Proof.
  destruct (checkWin_spec _ (emptyGrid_rectangular rows cols)) as (b & -> & Hiff).
  f_equal. destruct ((0 <? rows) && (0 <? cols)) eqn:E; simpl.
  - apply andb_true_iff in E as [Hr Hc]. apply Z.ltb_lt in Hr, Hc.
    destruct b; [|done]. destruct Hiff as [Hiff _].
    specialize (Hiff eq_refl 0 0 emptyCell).
    rewrite getCell_emptyGrid in Hiff. unfold inBounds in Hiff.
    destruct (Z.ltb_spec 0 rows); [|lia]. destruct (Z.ltb_spec 0 cols); [|lia].
    simpl in Hiff. by specialize (Hiff eq_refl eq_refl).
  - apply Hiff. intros r c x. rewrite getCell_emptyGrid.
    destruct (inBounds rows cols r c) eqn:Hb; [|done].
    apply inBounds_iff in Hb. apply andb_false_iff in E as [E|E]; apply Z.ltb_ge in E; lia.
Qed.

(** X1: [createEmptyGrid(rows, cols)], which both copies of the engine
    define alike.  It raises, with the [RangeError] of [Array.from], exactly
    when [rows] is 2^32 or more, or [rows] is positive and [cols] is 2^32
    or more.  Otherwise it makes a rectangular grid whose cells, at the
    coordinates within [rows] by [cols], are all hidden, free, unflagged
    and count 0; dimensions that are zero or negative give a grid without
    cells.  Such a grid is not won as long as it has a cell, and [checkWin]
    reports a win on the grid without cells. *)
Theorem createEmptyGrid_fresh (rows cols : Z) :
  Client.createEmptyGrid rows cols = Backend.createEmptyGrid rows cols ∧
  match Backend.createEmptyGrid rows cols with
  | None => 2 ^ 32 ≤ rows ∨ (0 < rows ∧ 2 ^ 32 ≤ cols)
  | Some g =>
      rows < 2 ^ 32 ∧ (0 < rows → cols < 2 ^ 32) ∧
      rectangular g ∧
      (∀ r c, getCell g r c = if inBounds rows cols r c then Some emptyCell else None) ∧
      App.checkWin g = Some (negb ((0 <? rows) && (0 <? cols)))
  end.
Proof.
  split; [done|].
  destruct (Z.le_gt_cases (2 ^ 32) rows) as [Hrows|Hrows].
  { rewrite createEmptyGrid_beyond by auto. by left. }
  destruct (Z.le_gt_cases rows 0) as [Hle|Hgt].
  { rewrite createEmptyGrid_within by lia.
    split_and!; [lia|lia|apply emptyGrid_rectangular|apply getCell_emptyGrid|
                 apply checkWin_emptyGrid]. }
  destruct (Z.le_gt_cases (2 ^ 32) cols) as [Hcols|Hcols].
  { rewrite createEmptyGrid_beyond by auto. by right. }
  rewrite createEmptyGrid_within by lia.
  split_and!; [lia|lia|apply emptyGrid_rectangular|apply getCell_emptyGrid|
               apply checkWin_emptyGrid].
Qed.

(** ** More on the adjacency counts *)

Lemma mooreMines_range g r c : 0 ≤ mooreMines g r c ≤ 8.
Proof.
  unfold mooreMines. split; [lia|].
  pose proof (length_filter (λ d, minedAt g (r + d.1) (c + d.2) = true) directions) as H.
  simpl in H. lia.
Qed.

(** X2: what [countAdjacentMines] writes.  On a rectangular grid, a cell
    that is not mined ends with a count between 0 and 8; a mined cell
    keeps the count it had with the backend's copy and gets the sentinel
    -1 from the client's.  So the two copies leave grids that differ in
    the counts of mined cells only. *)
Theorem countAdjacentMines_values (e : engine) (g g' : Grid) (r c : Z) (x : Cell) :
  rectangular g → countAdjacentMines e g = Done g' → getCell g r c = Some x →
  ∃ y, getCell g' r c = Some y ∧
       (hasMine x = false → 0 ≤ adjacentMines y ≤ 8 ∧
          ∀ e' g'', countAdjacentMines e' g = Done g'' → getCell g'' r c = Some y) ∧
       (hasMine x = true →
          adjacentMines y = match e with backend => adjacentMines x | client => -1 end).
Proof.
  intros Hrect Hrun Hx.
  assert (g ≠ []) as Hne.
  { intros ->. apply getCell_Some in Hx as (_ & _ & ? & ? & _). done. }
  destruct (countAdjacentMines_counted e g Hrect Hne) as (g1 & Hrun1 & _ & _ & Hsome).
  rewrite Hrun in Hrun1. injection Hrun1 as <-.
  destruct (Hsome _ _ _ Hx) as [_ Hy]. specialize (Hy I).
  exists (counted e (mooreMines g r c) x). split; [done|]. split.
  - intros Hfree. unfold counted. rewrite Hfree. simpl.
    split; [apply mooreMines_range|].
    intros e' g'' Hrun'.
    destruct (countAdjacentMines_counted e' g Hrect Hne) as (g2 & Hrun2 & _ & _ & Hsome2).
    rewrite Hrun' in Hrun2. injection Hrun2 as <-.
    destruct (Hsome2 _ _ _ Hx) as [_ Hy2]. specialize (Hy2 I).
    rewrite Hy2. unfold counted. by rewrite Hfree.
  - intros Hmine. unfold counted. rewrite Hmine. by destruct e.
Qed.

Lemma countAdjacentMines_values_witness :
  ∃ y, getCell cornerMineCounted 1 1 = Some y ∧ 0 ≤ adjacentMines y ≤ 8 ∧
       ∀ e' g'', countAdjacentMines e' cornerMine = Done g'' → getCell g'' 1 1 = Some y.
Proof.
  destruct (countAdjacentMines_values backend cornerMine cornerMineCounted 1 1 (hiddenCell 0))
    as (y & Hy & Hfree & _).
  - apply cornerMine_rectangular.
  - reflexivity.
  - reflexivity.
  - exists y. split; [exact Hy|]. apply Hfree. reflexivity.
Defined.

(** X3: [countAdjacentMines] is idempotent: on the grid a first call
    returned, a second call returns the same grid (each copy of the
    engine, on a rectangular grid). *)
Theorem countAdjacentMines_idempotent (e : engine) (g g1 : Grid) :
  rectangular g → countAdjacentMines e g = Done g1 → countAdjacentMines e g1 = Done g1.
Proof.
  intros Hrect Hrun.
  assert (g ≠ []) as Hne.
  { intros ->. by destruct e. }
  destruct (countAdjacentMines_counted e g Hrect Hne) as (g' & Hrun' & Hg1).
  rewrite Hrun in Hrun'. injection Hrun' as <-.
  pose proof Hg1 as (Hshape & Hnone & Hsome).
  assert (rectangular g1) as Hrect1 by (by apply (rectangular_shape g g1)).
  assert (g1 ≠ []) as Hne1.
  { intros ->. destruct g; [done|]. done. }
  destruct (countAdjacentMines_counted e g1 Hrect1 Hne1) as (g2 & Hrun2 & Hg2).
  rewrite Hrun2. f_equal.
  destruct Hg2 as (Hshape2 & _ & Hsome2).
  apply grid_ext; [done|]. intros r c y Hy.
  destruct (Hsome2 _ _ _ Hy) as [_ Hz]. rewrite (Hz I).
  destruct (getCell g r c) as [x|] eqn:Hx; [|by rewrite (Hnone _ _ Hx) in Hy].
  destruct (Hsome _ _ _ Hx) as [_ Hy']. rewrite (Hy' I) in Hy. injection Hy as <-.
  rewrite (countedUpTo_mooreMines e g _ g1 r c Hg1). by rewrite counted_idem.
Qed.

Lemma countAdjacentMines_idempotent_witness :
  countAdjacentMines backend cornerMineCounted = Done cornerMineCounted.
Proof.
  apply (countAdjacentMines_idempotent backend cornerMine cornerMineCounted).
  - apply cornerMine_rectangular.
  - reflexivity.
Defined.

(** ** More on the flood *)

(** X4: the two copies of [revealCellsDFS] compute the same thing on
    every grid and seed, ragged grids and seeds outside the grid
    included: they end the same way and leave the same grid. *)
Theorem revealCellsDFS_copies_agree (e e' : engine) (g : Grid) (row col : Z) :
  revealCellsDFS e g row col = revealCellsDFS e' g row col.
Proof. destruct e, e'; simpl; by rewrite ?Client_revealCellsDFS_Backend. Qed.

Lemma floodGuard_outside e rows cols g v r c :
  inBounds rows cols r c = false → floodGuard e rows cols g v r c = Some false.
Proof. intros H. destruct e; simpl; unfold Backend.isSafe, Client.mayVisit; by rewrite H. Qed.

Lemma floodGuard_revealed e rows cols g v r c x :
  getCell g r c = Some x → revealed x = true →
  floodGuard e rows cols g v r c = Some false.
Proof.
  intros Hx Hrev. destruct e; simpl; unfold Backend.isSafe, Client.mayVisit;
    destruct (inBounds rows cols r c); try done; rewrite Hx, Hrev; [done|].
  by case_bool_decide.
Qed.

Lemma floodFuel_two hidden : ∃ n, floodFuel hidden = S (S n).
Proof. by exists (9 * hidden)%nat. Qed.

Lemma revealCellsDFS_outside e g cols row col :
  numColsOf g = Some cols → inBounds (numRowsOf g) cols row col = false →
  revealCellsDFS e g row col = Done g.
Proof.
  intros Hcols Hout. rewrite revealCellsDFS_unfold, Hcols.
  destruct (floodFuel_two (hiddenCells g)) as [n ->].
  cbn [floodLoop floodStep]. by rewrite floodGuard_outside.
Qed.

Lemma revealCellsDFS_shown e g cols row col x :
  numColsOf g = Some cols → getCell g row col = Some x → revealed x = true →
  revealCellsDFS e g row col = Done g.
Proof.
  intros Hcols Hx Hrev. rewrite revealCellsDFS_unfold, Hcols.
  destruct (floodFuel_two (hiddenCells g)) as [n ->].
  cbn [floodLoop floodStep]. by rewrite (floodGuard_revealed _ _ _ _ _ _ _ x).
Qed.

Lemma revealCellsDFS_single e g cols row col x :
  numColsOf g = Some cols → inBounds (numRowsOf g) cols row col = true →
  getCell g row col = Some x → revealed x = false →
  adjacentMines x ≠ 0 ∨ hasMine x = true →
  revealCellsDFS e g row col = Done (markRevealed g row col).
Proof.
  intros Hcols Hb Hx Hrev Hnz. rewrite revealCellsDFS_unfold, Hcols.
  destruct (floodFuel_two (hiddenCells g)) as [n ->].
  cbn [floodLoop floodStep].
  assert (floodGuard e (numRowsOf g) cols g ∅ row col = Some true) as ->.
  { apply floodGuard_true. split_and!; [done|apply not_elem_of_empty|eauto]. }
  rewrite (getCell_markRevealed _ _ _ _ row col Hx), bool_decide_eq_true_2 by done.
  simpl. destruct Hnz as [Hn|Hm].
  - by destruct (Z.eqb_spec (adjacentMines x) 0).
  - by rewrite Hm, andb_false_r.
Qed.

(** X5: the seeds that do not flood.  On a grid with a first row,
    [revealCellsDFS] returns the grid as it is when the seed is outside
    [grid.length] by [grid[0].length] or is a revealed cell, and reveals
    the seed and nothing else when the seed is a hidden cell that is mined
    or has a count other than 0. *)
Theorem revealCellsDFS_seed (e : engine) (g : Grid) (cols row col : Z) :
  numColsOf g = Some cols →
  (inBounds (numRowsOf g) cols row col = false → revealCellsDFS e g row col = Done g) ∧
  (∀ x, inBounds (numRowsOf g) cols row col = true → getCell g row col = Some x →
     (revealed x = true → revealCellsDFS e g row col = Done g) ∧
     (revealed x = false → adjacentMines x ≠ 0 ∨ hasMine x = true →
      revealCellsDFS e g row col = Done (markRevealed g row col))).
Proof.
  intros Hcols. split; [by apply revealCellsDFS_outside|]. intros x Hb Hx. split.
  - by apply (revealCellsDFS_shown e g cols row col x).
  - by apply (revealCellsDFS_single e g cols row col x).
Qed.

Lemma revealCellsDFS_seed_witness :
  revealCellsDFS client cornerMineCounted 7 0 = Done cornerMineCounted ∧
  revealCellsDFS client cornerMineWon 0 0 = Done cornerMineWon ∧
  revealCellsDFS client cornerMineCounted 2 2 = Done (markRevealed cornerMineCounted 2 2).
Proof.
  split_and!.
  - apply (revealCellsDFS_seed client cornerMineCounted 3 7 0); reflexivity.
  - destruct (revealCellsDFS_seed client cornerMineWon 3 0 0 eq_refl) as [_ H].
    destruct (H (shownCell 0) eq_refl eq_refl) as [Hshown _]. apply Hshown. reflexivity.
  - destruct (revealCellsDFS_seed client cornerMineCounted 3 2 2 eq_refl) as [_ H].
    destruct (H mineCell eq_refl eq_refl) as [_ Hhidden].
    apply Hhidden; [reflexivity|right; reflexivity].
Defined.

(** X6: the flood opens the whole region.  On a rectangular grid, seeded
    on a cell of the grid that is hidden, [revealCellsDFS] returns with
    the seed revealed, and every neighbour of every cell it opened that is
    free with count 0 is revealed: the flood stops at numbered cells only,
    never short of them. *)
Theorem revealCellsDFS_opens_region (e : engine) (g : Grid) (row col : Z) (seed : Cell) :
  rectangular g → getCell g row col = Some seed →
  ∃ g', revealCellsDFS e g row col = Done g' ∧
        (∃ y, getCell g' row col = Some y ∧ revealed y = true) ∧
        ∀ r c d z, openedZero g g' r c → d ∈ directions →
          getCell g' (r + d.1) (c + d.2) = Some z → revealed z = true.
Proof.
  intros Hrect Hseed.
  assert (g ≠ []) as Hne.
  { intros ->. apply getCell_Some in Hseed as (_ & _ & ? & ? & _). done. }
  destruct (revealCellsDFS_total e g row col Hrect Hne) as [g' Hrun].
  exists g'. split; [done|].
  rewrite revealCellsDFS_unfold in Hrun.
  destruct (numColsOf_nonempty g Hne) as [cols Hcols]. rewrite Hcols in Hrun.
  pose proof (floodLoop_closure e g cols row col (floodFuel (hiddenCells g)) g
                [(row, col)] ∅ Hrect Hcols ltac:(eauto) (onlyReveals_refl g)) as H.
  rewrite Hrun in H. apply H.
  - intros r c Hin. by apply not_elem_of_empty in Hin.
  - left. apply list_elem_of_here.
  - intros r c d z (x0 & y0 & H0 & Hh & Hy & Hr & _). congruence.
Qed.

Lemma revealCellsDFS_opens_region_witness :
  ∃ g', revealCellsDFS backend cornerMineCounted 0 0 = Done g' ∧
        (∃ y, getCell g' 0 0 = Some y ∧ revealed y = true) ∧
        ∀ r c d z, openedZero cornerMineCounted g' r c → d ∈ directions →
          getCell g' (r + d.1) (c + d.2) = Some z → revealed z = true.
Proof.
  apply (revealCellsDFS_opens_region backend cornerMineCounted 0 0 (hiddenCell 0)).
  - apply cornerMineCounted_rectangular.
  - reflexivity.
Defined.

(** ** More on mine placement *)

Lemma onlyMines_refl g : onlyMines g g.
Proof.
  unfold onlyMines. apply Forall_Forall2_diag, Forall_forall. intros row _.
  apply Forall_Forall2_diag, Forall_forall. intros x _. done.
Qed.

Lemma onlyMines_place g g' r c :
  onlyMines g g' → onlyMines g (updCell (setHasMine true) g' r c).
Proof.
  unfold onlyMines, updCell. intros H.
  apply Forall2_alter_r; [done|]. intros row row' _ _ Hrow.
  apply Forall2_alter_r; [done|]. intros x y _ _ (? & ? & ? & ?). done.
Qed.

(** The last loop of the backend's [placeMines], on coordinates other
    than [p0]: whether it ends or raises, it has changed nothing but
    [hasMine], and not at [p0]. *)
Lemma placeEach_frame (p0 : Z * Z) g0 sel g :
  p0 ∉ sel → onlyMines g0 g →
  match forEach (λ p g,
                   match modCell (setHasMine true) g p.1 p.2 with
                   | Some g' => Done g'
                   | None => Threw g
                   end) sel g with
  | Done g' | Threw g' => onlyMines g0 g' ∧ minedAt g' p0.1 p0.2 = minedAt g p0.1 p0.2
  | OutOfFuel => False
  end.
Proof.
  revert g. induction sel as [|[r c] sel IH]; intros g Hnot Hg; simpl; [done|].
  apply not_elem_of_cons in Hnot as [Hne Hnot].
  unfold modCell. destruct (getCell g r c) as [x|] eqn:Hx; [|done].
  specialize (IH (updCell (setHasMine true) g r c) Hnot (onlyMines_place _ _ r c Hg)).
  destruct (forEach _ sel _); [| |done].
  - destruct IH as [? ->]. split; [done|].
    rewrite (minedAt_place _ _ _ _ p0.1 p0.2 Hx). rewrite bool_decide_eq_false_2; [done|].
    intros E. apply Hne. by destruct p0.
  - destruct IH as [? ->]. split; [done|].
    rewrite (minedAt_place _ _ _ _ p0.1 p0.2 Hx). rewrite bool_decide_eq_false_2; [done|].
    intros E. apply Hne. by destruct p0.
Qed.

(** The client's loop: whether it ends, raises or is still running, it
    has changed nothing but [hasMine], and at no forbidden cell. *)
Lemma placeLoop_frame random rows cols forb mineCount g0 fuel k placed m :
  onlyMines g0 m →
  match Client.placeLoop random rows cols forb mineCount fuel k placed m with
  | Done g' | Threw g' =>
      onlyMines g0 g' ∧ ∀ r c, (r, c) ∈ forb → minedAt g' r c = minedAt m r c
  | OutOfFuel => True
  end.
Proof.
  revert k placed m. induction fuel as [|fuel IH]; intros k placed m Hm; [done|].
  cbn [Client.placeLoop]. destruct (placed <? mineCount); [|done].
  set (row := randomBelow random k rows).
  set (col := randomBelow random (S k) cols).
  destruct (bool_decide_reflect ((row, col) ∈ forb)) as [Hf|Hf]; [by apply IH|].
  destruct (getCell m row col) as [x|] eqn:Hx; [|done].
  destruct (hasMine x); [by apply IH|].
  unfold modCell. rewrite Hx.
  specialize (IH (S (S k)) (placed + 1) _ (onlyMines_place _ _ row col Hm)).
  destruct (Client.placeLoop _ _ _ _ _ _ _ _ _); [| |done].
  all: destruct IH as [? IH]; split; [done|]; intros r c Hin;
    rewrite (IH _ _ Hin), (minedAt_place _ _ _ _ r c Hx);
    rewrite bool_decide_eq_false_2; [done|]; intros E; by rewrite E in Hin.
Qed.

Lemma Backend_placeMines_frame random g mineCount safeRow safeCol :
  match Backend.placeMines random g mineCount safeRow safeCol with
  | Done g' | Threw g' =>
      onlyMines g g' ∧ minedAt g' safeRow safeCol = minedAt g safeRow safeCol
  | OutOfFuel => False
  end.
Proof.
  unfold Backend.placeMines.
  destruct (numColsOf g) as [cols|] eqn:Hcols; [|split; [apply onlyMines_refl|done]].
  apply (placeEach_frame (safeRow, safeCol) g); [|apply onlyMines_refl].
  intros Hin. apply slice0_facts, shuffle_facts in Hin.
  rewrite positions_filter in Hin. apply list_elem_of_filter in Hin as [Hin _].
  unfold singleCell in Hin. by rewrite bool_decide_eq_true_2 in Hin.
Qed.

(** X7: what [placeMines] leaves alone.  On a rectangular grid, whatever
    the mine count and whether the call returns or raises, it changes no
    field but [hasMine], never clears a mine, and leaves the safe zone as
    it was: the clicked cell with the backend's copy, the clicked cell and
    its neighbours with the client's. *)
Theorem placeMines_frame (random : nat → Q) (g : Grid) (mineCount safeRow safeCol : Z) :
  unitInterval random → rectangular g →
  match Backend.placeMines random g mineCount safeRow safeCol with
  | Done g' | Threw g' =>
      onlyMines g g' ∧ minedAt g' safeRow safeCol = minedAt g safeRow safeCol
  | OutOfFuel => False
  end ∧
  ∀ fuel,
    match Client.placeMines fuel random g mineCount safeRow safeCol with
    | Done g' | Threw g' =>
        onlyMines g g' ∧
        ∀ r c, neighbourhood safeRow safeCol (r, c) = true →
               minedAt g' r c = minedAt g r c
    | OutOfFuel => True
    end.
Proof.
  intros _ Hrect. split; [apply Backend_placeMines_frame|].
  intros fuel. unfold Client.placeMines.
  destruct (numColsOf g) as [cols|] eqn:Hcols; [|split; [apply onlyMines_refl|done]].
  pose proof (placeLoop_frame random (numRowsOf g) cols
    (Client.forbidden (numRowsOf g) cols safeRow safeCol) mineCount g fuel 0 0 g
    (onlyMines_refl g)) as H.
  destruct (Client.placeLoop _ _ _ _ _ _ _ _ _); [| |done].
  all: destruct H as [Hframe Hforb]; split; [done|]; intros r c Hn;
    destruct (getCell g r c) as [x|] eqn:Hx;
    [ apply Hforb, forbidden_spec; split; [|done];
      apply (getCell_inBounds g cols r c Hrect Hcols); eauto
    | rewrite (minedAt_shape_None g _ r c (Forall2_grid_shape _ _ _ Hframe) Hrect Hx);
      unfold minedAt; by rewrite Hx ].
Qed.

Lemma placeMines_frame_witness :
  match Backend.placeMines quarter stripMined 1 0 3 with
  | Done g' | Threw g' => onlyMines stripMined g' ∧ minedAt g' 0 3 = minedAt stripMined 0 3
  | OutOfFuel => False
  end ∧
  ∀ fuel,
    match Client.placeMines fuel quarter stripMined 1 0 3 with
    | Done g' | Threw g' =>
        onlyMines stripMined g' ∧
        ∀ r c, neighbourhood 0 3 (r, c) = true → minedAt g' r c = minedAt stripMined r c
    | OutOfFuel => True
    end.
Proof.
  apply (placeMines_frame quarter stripMined 1 0 3).
  - apply quarter_unit.
  - repeat constructor.
Defined.

Lemma swap_Permutation ps i j : Backend.swap ps i j ≡ₚ ps.
Proof.
  destruct (ps !! i) as [a|] eqn:Hi, (ps !! j) as [b|] eqn:Hj;
    try (unfold Backend.swap; rewrite Hi, Hj; done);
    try (unfold Backend.swap; rewrite Hi; done).
  apply Permutation_inj. split; [apply swap_length|].
  exists (λ k, if decide (k = j) then i else if decide (k = i) then j else k). split.
  - intros k1 k2 E. repeat case_decide; subst; congruence.
  - intros k. apply (swap_lookup _ _ _ _ _ _ Hi Hj).
Qed.

Lemma shuffleFrom_Permutation random i k ps :
  Backend.shuffleFrom random i k ps ≡ₚ ps.
Proof.
  revert k ps. induction i as [|i IH]; intros k ps; simpl; [done|].
  rewrite IH. apply swap_Permutation.
Qed.

(** X8: the shuffle of [placeMines] (gameLogic.js) rearranges: with
    [Math.random()] in [0, 1), the array after the loop is a permutation
    of the array before it, so the mines the backend selects are distinct
    positions other than the clicked cell. *)
Theorem shuffle_permutes (random : nat → Q) (ps : list (Z * Z))
    (rows cols safeRow safeCol mineCount : Z) :
  unitInterval random →
  Backend.shuffle random ps ≡ₚ ps ∧
  let selected :=
    Backend.slice0 (Backend.shuffle random (Backend.positions rows cols safeRow safeCol))
      mineCount in
  NoDup selected ∧
  ∀ r c, (r, c) ∈ selected → inBounds rows cols r c = true ∧ (r, c) ≠ (safeRow, safeCol).
Proof.
  intros _. split; [apply shuffleFrom_Permutation|]. simpl. split.
  - apply slice0_facts, shuffle_facts.
    rewrite positions_filter. apply NoDup_filter, NoDup_allPositions.
  - intros r c Hin. apply slice0_facts, shuffle_facts in Hin.
    rewrite positions_filter in Hin. apply list_elem_of_filter in Hin as [Hs Hin].
    apply elem_of_allPositions in Hin. split; [apply inBounds_iff; lia|].
    unfold singleCell in Hs. by apply bool_decide_eq_false in Hs.
Qed.

Lemma shuffle_permutes_witness :
  Backend.shuffle cycling [(0, 0); (0, 1); (0, 2)] ≡ₚ [(0, 0); (0, 1); (0, 2)].
Proof.
  apply (shuffle_permutes cycling [(0, 0); (0, 1); (0, 2)] 1 4 0 3 1). apply cycling_unit.
Defined.

(** X9: a negative mine count.  The two copies differ: the client's
    [while (placed < mineCount)] never runs and leaves the grid as it is,
    while the backend's [positions.slice(0, mineCount)] counts from the
    end of the array, so that on a fresh rectangular grid [mineCount = -k]
    mines all the eligible cells but [k] (none when [k] exceeds their
    number). *)
Theorem placeMines_negative (random : nat → Q) (g : Grid)
    (cols mineCount safeRow safeCol : Z) :
  unitInterval random → rectangular g → numColsOf g = Some cols →
  mineTotal g = 0%nat → mineCount < 0 →
  (∀ fuel, Client.placeMines (S fuel) random g mineCount safeRow safeCol = Done g) ∧
  ∃ g', Backend.placeMines random g mineCount safeRow safeCol = Done g' ∧
        Z.of_nat (mineTotal g') =
        Z.max (Z.of_nat (length (eligible (singleCell safeRow safeCol) g)) + mineCount) 0.
Proof.
  intros _ Hrect Hcols Hfree Hneg. split.
  - intros fuel. unfold Client.placeMines. rewrite Hcols. cbn [Client.placeLoop].
    destruct (Z.ltb_spec 0 mineCount); [lia|done].
  - rewrite (eligible_single_free g cols _ _ Hcols Hfree).
    unfold Backend.placeMines. rewrite Hcols.
    set (ps := Backend.positions (numRowsOf g) cols safeRow safeCol).
    set (sel := Backend.slice0 (Backend.shuffle random ps) mineCount).
    assert (NoDup ps) as Hps.
    { unfold ps. rewrite positions_filter. apply NoDup_filter, NoDup_allPositions. }
    destruct (shuffle_facts random ps) as (Hlen & Hnd & Hel).
    destruct (slice0_facts (Backend.shuffle random ps) mineCount) as [Hsnd Hsub].
    destruct (placeAll sel g) as (g' & Hrun & _ & _ & Hcount).
    { by apply Hsnd, Hnd. }
    { intros [r c] Hp. apply Hsub, Hel in Hp. unfold ps in Hp.
      rewrite positions_filter in Hp. apply list_elem_of_filter in Hp as [_ Hp].
      apply elem_of_allPositions in Hp. simpl.
      apply (getCell_inBounds g cols r c Hrect Hcols), inBounds_iff. lia. }
    exists g'. split; [done|]. rewrite Hcount by (intros; by apply mineTotal_zero).
    rewrite Hfree. simpl. unfold sel, Backend.slice0.
    destruct (Z.ltb_spec mineCount 0); [|lia].
    rewrite length_take, Hlen. lia.
Qed.

Lemma placeMines_negative_witness :
  (∀ fuel, Client.placeMines (S fuel) quarter stripFree (-1) 0 3 = Done stripFree) ∧
  ∃ g', Backend.placeMines quarter stripFree (-1) 0 3 = Done g' ∧
        Z.of_nat (mineTotal g') =
        Z.max (Z.of_nat (length (eligible (singleCell 0 3) stripFree)) + -1) 0.
Proof.
  apply (placeMines_negative quarter stripFree 4 (-1) 0 3).
  - apply quarter_unit.
  - apply stripFree_rectangular.
  - reflexivity.
  - reflexivity.
  - lia.
Defined.

(** * The [/start-game] handler *)

Lemma emptyGrid_dims rows cols :
  0 < rows → 0 ≤ cols → hasDims rows cols (emptyGrid rows cols).
Proof.
  intros Hr Hc. split_and!; [apply emptyGrid_rectangular| |].
  - unfold numRowsOf, emptyGrid. rewrite length_replicate. lia.
  - unfold numColsOf, emptyGrid.
    rewrite lookup_replicate_2 by lia. simpl. rewrite length_replicate. f_equal. lia.
Qed.

Lemma mineTotal_free g :
  (∀ r c x, getCell g r c = Some x → hasMine x = false) → mineTotal g = 0%nat.
Proof. apply countCells_none. Qed.

Lemma length_allPositions rows cols :
  length (allPositions rows cols) = (Z.to_nat rows * Z.to_nat cols)%nat.
Proof.
  unfold allPositions.
  rewrite (length_bind_const _ _ (Z.to_nat cols)), length_seqZ; [done|].
  intros r. rewrite (length_bind_const _ _ 1%nat), length_seqZ; [lia|done].
Qed.

Lemma length_positions rows cols safeRow safeCol :
  Z.of_nat (length (Backend.positions rows cols safeRow safeCol)) =
  Z.of_nat (Z.to_nat rows * Z.to_nat cols) -
  (if inBounds rows cols safeRow safeCol then 1 else 0).
Proof.
  rewrite positions_filter.
  assert (filter (λ p, singleCell safeRow safeCol p = false) (allPositions rows cols) =
          filter (λ q, q ≠ (safeRow, safeCol)) (allPositions rows cols)) as ->.
  { apply list_filter_iff. intros p. unfold singleCell. by rewrite bool_decide_eq_false. }
  destruct (inBounds rows cols safeRow safeCol) eqn:Hb.
  - pose proof (length_filter_remove (safeRow, safeCol) (allPositions rows cols)
                  (NoDup_allPositions rows cols)) as H.
    rewrite <- (length_allPositions rows cols).
    rewrite <- H; [lia|]. apply elem_of_allPositions. by apply inBounds_iff.
  - rewrite <- (length_allPositions rows cols).
    assert (filter (λ q, q ≠ (safeRow, safeCol)) (allPositions rows cols) =
            allPositions rows cols) as ->; [|lia].
    apply filter_all. intros [r c] Hin E.
    injection E as -> ->. apply elem_of_allPositions, inBounds_iff in Hin. congruence.
Qed.

(** What [countAdjacentMines] returns on a rectangular grid with a row. *)
Lemma countAdjacentMines_run e g :
  rectangular g → g ≠ [] →
  ∃ g', countAdjacentMines e g = Done g' ∧ sameButCounts g g' ∧ countsCorrect g'.
Proof.
  intros Hrect Hne.
  destruct (countAdjacentMines_counted e g Hrect Hne) as (g' & Hrun & Hg').
  exists g'. split; [done|]. pose proof Hg' as (Hshape & Hnone & Hsome). split.
  - apply Forall2_grid; [done|]. intros r c x y Hx Hy.
    destruct (Hsome _ _ _ Hx) as [_ H]. rewrite (H I) in Hy. injection Hy as <-.
    apply counted_fields.
  - intros r c y Hy Hmine.
    destruct (getCell g r c) as [x|] eqn:Hx; [|by rewrite (Hnone _ _ Hx) in Hy].
    destruct (Hsome _ _ _ Hx) as [_ H]. rewrite (H I) in Hy. injection Hy as <-.
    rewrite counted_hasMine in Hmine.
    rewrite (countedUpTo_mooreMines e g _ g' r c Hg').
    by apply counted_adjacentMines.
Qed.

(** The flood from a cell that is not mined, on correct counts: the seed
    is revealed, and no cell that it reveals is mined. *)
Lemma flood_from_free e g row col seed :
  rectangular g → countsCorrect g → getCell g row col = Some seed → hasMine seed = false →
  ∃ g', revealCellsDFS e g row col = Done g' ∧ onlyReveals g g' ∧
        (∃ y, getCell g' row col = Some y ∧ revealed y = true) ∧
        ∀ r c x y, getCell g r c = Some x → getCell g' r c = Some y →
                   revealed x = false → revealed y = true → hasMine y = false.
Proof.
  intros Hrect Hcounts Hseed Hsafe.
  assert (g ≠ []) as Hne.
  { intros ->. apply getCell_Some in Hseed as (_ & _ & ? & ? & _). done. }
  destruct (revealCellsDFS_total e g row col Hrect Hne) as [g' Hrun].
  exists g'. split; [done|].
  rewrite revealCellsDFS_unfold in Hrun.
  destruct (numColsOf_nonempty g Hne) as [cols Hcols]. rewrite Hcols in Hrun.
  pose proof (floodLoop_reach e g cols row col (floodFuel (hiddenCells g)) g
                [(row, col)] ∅ Hrect Hcols (onlyReveals_refl g)) as H.
  pose proof (floodLoop_closure e g cols row col (floodFuel (hiddenCells g)) g
                [(row, col)] ∅ Hrect Hcols ltac:(eauto) (onlyReveals_refl g)) as H'.
  rewrite Hrun in H, H'.
  destruct H as [Hframe Hreach].
  { intros r c Hin. apply list_elem_of_singleton in Hin. by left. }
  { intros r c x y Hx Hy. congruence. }
  destruct H' as [Hshown _].
  { intros r c Hin. by apply not_elem_of_empty in Hin. }
  { left. apply list_elem_of_here. }
  { intros r c d z (x0 & y0 & H0 & Hh & Hy & Hr & _). congruence. }
  split_and!; [done..|].
  intros r c x y Hx Hy Hxrev Hyrev.
  pose proof (floodReach_not_mined g g' row col seed r c Hcounts Hframe Hseed Hsafe
                (Hreach _ _ _ _ Hx Hy Hxrev Hyrev)) as Hno.
  unfold minedAt in Hno. rewrite Hx in Hno.
  destruct (onlyReveals_getCell _ _ _ _ _ Hframe Hx) as (y' & Hy' & Hm & _).
  congruence.
Qed.

Lemma countsCorrect_onlyReveals g g' :
  onlyReveals g g' → countsCorrect g → countsCorrect g'.
Proof.
  intros Hframe Hcounts r c y Hy Hfree.
  destruct (onlyReveals_getCell_r _ _ _ _ _ Hframe Hy) as (x & Hx & Hm & Ha & _).
  rewrite Ha, (Hcounts r c x Hx) by congruence.
  unfold mooreMines. f_equal. f_equal. apply list_filter_iff. intros d.
  unfold minedAt. destruct (getCell g (r + d.1) (c + d.2)) as [z|] eqn:Hz.
  - destruct (onlyReveals_getCell _ _ _ _ _ Hframe Hz) as (z' & -> & -> & _). done.
  - by rewrite (onlyReveals_getCell_None _ _ _ _ Hframe Hz).
Qed.

Lemma mineTotal_onlyReveals g g' : onlyReveals g g' → mineTotal g' = mineTotal g.
Proof.
  intros H. apply countCells_Forall2.
  eapply Forall2_impl; [exact H|]. intros row row' Hrow.
  eapply Forall2_impl; [exact Hrow|]. intros x y (? & _). done.
Qed.

Lemma mineTotal_sameButCounts g g' : sameButCounts g g' → mineTotal g' = mineTotal g.
Proof.
  intros H. apply countCells_Forall2.
  eapply Forall2_impl; [exact H|]. intros row row' Hrow.
  eapply Forall2_impl; [exact Hrow|]. intros x y (? & _). done.
Qed.

(** The board of [/start-game] before the flood: the fresh grid, mined
    and counted. *)
Lemma startGame_board random rows cols mines firstClickRow firstClickCol :
  0 < rows → 0 < cols → 0 ≤ mines →
  ∃ g1 g2,
    Backend.placeMines random (emptyGrid rows cols) mines
      firstClickRow firstClickCol = Done g1 ∧
    Backend.countAdjacentMines g1 = Done g2 ∧
    hasDims rows cols g2 ∧ countsCorrect g2 ∧
    Z.of_nat (mineTotal g2) =
      Z.min mines (rows * cols - if inBounds rows cols firstClickRow firstClickCol
                                 then 1 else 0) ∧
    minedAt g2 firstClickRow firstClickCol = false ∧
    ∀ r c x, getCell g2 r c = Some x → revealed x = false ∧ flagged x = false.
Proof.
  intros Hrows Hcols Hmines.
  set (g0 := emptyGrid rows cols).
  destruct (emptyGrid_dims rows cols Hrows ltac:(lia)) as (Hrect0 & Hr0 & Hc0).
  fold g0 in Hrect0, Hr0, Hc0.
  assert (Hfree0 : mineTotal g0 = 0%nat).
  { apply mineTotal_free. intros r c x. unfold g0. rewrite getCell_emptyGrid.
    destruct (inBounds rows cols r c); [|done]. by intros [= <-]. }
  destruct (Backend_placeMines_run random g0 cols mines firstClickRow firstClickCol
              Hrect0 Hc0 Hmines)
    as (g1 & sel & Hrun1 & Hnd & Hsub & Hle & Hge & Hshape1 & Hcells1 & Hcount1).
  rewrite Hr0 in Hsub, Hle, Hge.
  pose proof (Backend_placeMines_frame random g0 mines firstClickRow firstClickCol) as Hframe1.
  rewrite Hrun1 in Hframe1. destruct Hframe1 as [Hframe1 Hsafe1].
  assert (hasDims rows cols g1) as Hdims1 by (by apply (hasDims_shape rows cols g0 g1)).
  assert (g1 ≠ []) as Hne1.
  { intros ->. destruct Hdims1 as (_ & _ & ?). done. }
  destruct (countAdjacentMines_run backend g1 (proj1 Hdims1) Hne1)
    as (g2 & Hrun2 & Hsame2 & Hcounts2).
  exists g1, g2. split_and!; [done|done| |done| | |].
  - apply (hasDims_shape rows cols g1 g2); [|done]. by eapply Forall2_grid_shape.
  - rewrite (mineTotal_sameButCounts _ _ Hsame2).
    rewrite Hcount1 by (intros; by apply mineTotal_zero). rewrite Hfree0. simpl.
    pose proof (length_positions rows cols firstClickRow firstClickCol) as Hlen.
    replace (Z.of_nat (Z.to_nat rows * Z.to_nat cols)) with (rows * cols) in Hlen by lia.
    rewrite <- Hlen.
    destruct (Z.le_gt_cases mines
                (Z.of_nat (length (Backend.positions rows cols firstClickRow firstClickCol))))
      as [H|H].
    + rewrite (Hle H). lia.
    + assert (sel ≡ₚ Backend.positions rows cols firstClickRow firstClickCol) as ->.
      { apply NoDup_Permutation; [done| |apply Hge; lia].
        rewrite positions_filter. apply NoDup_filter, NoDup_allPositions. }
      lia.
  - unfold minedAt in *.
    destruct (getCell g2 firstClickRow firstClickCol) as [y|] eqn:Hy; [|done].
    destruct (Forall2_grid_getCell_r _ _ _ _ _ _ Hsame2 Hy) as (x & Hx & -> & _).
    rewrite Hx in Hsafe1. rewrite Hsafe1.
    destruct (getCell g0 firstClickRow firstClickCol) as [x0|] eqn:Hx0; [|done].
    assert (minedAt g0 firstClickRow firstClickCol = false) as H
      by (by apply mineTotal_zero).
    unfold minedAt in H. by rewrite Hx0 in H.
  - intros r c y Hy.
    destruct (Forall2_grid_getCell_r _ _ _ _ _ _ Hsame2 Hy) as (x & Hx & _ & -> & ->).
    destruct (Forall2_grid_getCell_r _ _ _ _ _ _ Hframe1 Hx) as (x0 & Hx0 & _ & -> & -> & _).
    unfold g0 in Hx0. rewrite getCell_emptyGrid in Hx0.
    destruct (inBounds rows cols r c); [|done]. by injection Hx0 as <-.
Qed.

(** [/start-game] up to the flood. *)
Lemma startGame_steps random rows cols mines firstClickRow firstClickCol g0 g1 g2 :
  Backend.createEmptyGrid rows cols = Some g0 →
  Backend.placeMines random g0 mines firstClickRow firstClickCol = Done g1 →
  Backend.countAdjacentMines g1 = Done g2 →
  Routes.startGame random rows cols mines firstClickRow firstClickCol =
  match revealCellsDFS backend g2 firstClickRow firstClickCol with
  | Done g => Done g
  | Threw g => Threw (Some g)
  | OutOfFuel => OutOfFuel
  end.
Proof.
  intros H0 H1 H2. unfold Routes.startGame. rewrite H0. cbn beta iota.
  rewrite H1. unfold andThen at 1. rewrite H2. reflexivity.
Qed.

(** What [/start-game] answers on a request that is in order. *)
Lemma startGame_answer random rows cols mines firstClickRow firstClickCol :
  0 < rows < 2 ^ 32 → 0 < cols < 2 ^ 32 →
  inBounds rows cols firstClickRow firstClickCol = true →
  0 ≤ mines ≤ rows * cols - 1 →
  ∃ g, Routes.startGame random rows cols mines firstClickRow firstClickCol = Done g ∧
       hasDims rows cols g ∧ Z.of_nat (mineTotal g) = mines ∧ countsCorrect g ∧
       (∃ x, getCell g firstClickRow firstClickCol = Some x ∧
             hasMine x = false ∧ revealed x = true) ∧
       ∀ r c x, getCell g r c = Some x →
                flagged x = false ∧ (revealed x = true → hasMine x = false).
Proof.
  intros [Hrows Hrows'] [Hcols Hcols'] Hin [Hlo Hhi].
  destruct (startGame_board random rows cols mines firstClickRow firstClickCol
              Hrows Hcols Hlo)
    as (g1 & g2 & Hrun1 & Hrun2 & Hdims2 & Hcounts2 & Htotal2 & Hsafe2 & Hfields2).
  rewrite Hin in Htotal2.
  destruct (proj2 (hasDims_getCell rows cols g2 firstClickRow firstClickCol Hdims2))
    as [seed Hseed]; [by apply inBounds_iff|].
  assert (hasMine seed = false) as Hfree.
  { unfold minedAt in Hsafe2. by rewrite Hseed in Hsafe2. }
  destruct (flood_from_free backend g2 firstClickRow firstClickCol seed
              (proj1 Hdims2) Hcounts2 Hseed Hfree)
    as (g3 & Hrun3 & Hframe3 & (y & Hy & Hshown) & Hnew).
  exists g3. split_and!.
  - rewrite (startGame_steps _ _ _ _ _ _ _ g1 g2
               (createEmptyGrid_within rows cols Hrows' (λ _, Hcols')) Hrun1 Hrun2).
    by rewrite Hrun3.
  - apply (hasDims_shape rows cols g2 g3); [|done]. by apply onlyReveals_shape.
  - rewrite (mineTotal_onlyReveals _ _ Hframe3). lia.
  - by apply (countsCorrect_onlyReveals g2 g3).
  - exists y. split_and!; [done| |done].
    destruct (onlyReveals_getCell _ _ _ _ _ Hframe3 Hseed) as (y' & Hy' & Hm & _).
    congruence.
  - intros r c z Hz.
    destruct (onlyReveals_getCell_r _ _ _ _ _ Hframe3 Hz) as (x & Hx & _ & _ & Hf & _).
    destruct (Hfields2 _ _ _ Hx) as [Hhidden Hnoflag]. split; [congruence|].
    intros Hrev. by apply (Hnew r c x z).
Qed.







(** * The handlers of the screen *)

(** ** Long presses *)

Lemma sameButFlags_refl g : sameButFlags g g.
Proof.
  unfold sameButFlags. apply Forall_Forall2_diag, Forall_forall. intros row _.
  apply Forall_Forall2_diag, Forall_forall. intros x _. done.
Qed.

Lemma sameButFlags_setFlagged g g' b r c :
  sameButFlags g g' → sameButFlags g (updCell (setFlagged b) g' r c).
Proof.
  unfold sameButFlags, updCell. intros H.
  apply Forall2_alter_r; [done|]. intros row row' _ _ Hrow.
  apply Forall2_alter_r; [done|]. intros x y _ _ (? & ? & ?). done.
Qed.

Lemma sameButFlags_trans g1 g2 g3 :
  sameButFlags g1 g2 → sameButFlags g2 g3 → sameButFlags g1 g3.
Proof.
  intros H12 H23. apply Forall2_grid.
  - by rewrite (Forall2_grid_shape _ _ _ H23), (Forall2_grid_shape _ _ _ H12).
  - intros r c x z Hx Hz.
    destruct (Forall2_grid_getCell _ _ _ _ _ _ H12 Hx) as (y & Hy & ? & ? & ?).
    destruct (Forall2_grid_getCell _ _ _ _ _ _ H23 Hy) as (z' & Hz' & ? & ? & ?).
    assert (z' = z) as -> by congruence. split_and!; congruence.
Qed.

(** What a long press that returns has done: it has changed flags only,
    and moved the counter by what it changed. *)
Lemma handleCellLongPress_frame row col s s' :
  Handlers.handleCellLongPress row col s = Done s' →
  sameButFlags (Handlers.grid s) (Handlers.grid s') ∧
  Handlers.flagCount s' + Z.of_nat (flagTotal (Handlers.grid s')) =
    Handlers.flagCount s + Z.of_nat (flagTotal (Handlers.grid s)) ∧
  Handlers.minesPlaced s' = Handlers.minesPlaced s ∧
  Handlers.timerActive s' = Handlers.timerActive s ∧
  Handlers.victoryVisible s' = Handlers.victoryVisible s ∧
  Handlers.difficulty s' = Handlers.difficulty s.
Proof.
  unfold Handlers.handleCellLongPress.
  destruct (getCell (Handlers.grid s) row col) as [cell|] eqn:Hcell; [|done].
  destruct (revealed cell) eqn:Hrev; simpl; intros [= <-].
  { split_and!; [apply sameButFlags_refl|done..]. }
  simpl. split_and!; [apply sameButFlags_setFlagged, sameButFlags_refl| |done..].
  unfold flagTotal.
  pose proof (countCells_updCell flagged (setFlagged (negb (flagged cell)))
                (Handlers.grid s) row col cell Hcell) as H.
  simpl in H. destruct (flagged cell); simpl in *; lia.
Qed.

(** X13: [handleCellLongPress] toggles.  A long press on a hidden cell
    flips the flag of that cell and moves the flag counter (down by one for
    a flag set, up by one for a flag cleared); a long press on a revealed
    cell leaves the whole state as it was.  Either way nothing else has
    changed: every other cell, and [minesPlaced], [timerActive],
    [victoryVisible] and the level are as before, and a second long press
    on the same cell brings back the very state the first one started
    from.  Outside the grid the handler raises and the state is as it
    was. *)
Theorem handleCellLongPress_toggles (row col : Z) (s : Handlers.State) :
  match Handlers.handleCellLongPress row col s with
  | Done s' =>
      Handlers.handleCellLongPress row col s' = Done s ∧
      sameButFlags (Handlers.grid s) (Handlers.grid s') ∧
      (∀ r c, (r, c) ≠ (row, col) →
              getCell (Handlers.grid s') r c = getCell (Handlers.grid s) r c) ∧
      Handlers.flagCount s' + Z.of_nat (flagTotal (Handlers.grid s')) =
        Handlers.flagCount s + Z.of_nat (flagTotal (Handlers.grid s)) ∧
      Handlers.minesPlaced s' = Handlers.minesPlaced s ∧
      Handlers.timerActive s' = Handlers.timerActive s ∧
      Handlers.victoryVisible s' = Handlers.victoryVisible s ∧
      Handlers.difficulty s' = Handlers.difficulty s ∧
      ∃ cell, getCell (Handlers.grid s) row col = Some cell ∧
              if revealed cell then s' = s
              else getCell (Handlers.grid s') row col =
                     Some (setFlagged (negb (flagged cell)) cell) ∧
                   Handlers.flagCount s' =
                     if flagged cell then Handlers.flagCount s + 1
                     else Handlers.flagCount s - 1
  | Threw s' => s' = s ∧ getCell (Handlers.grid s) row col = None
  | OutOfFuel => False
  end.
Proof.
  destruct (Handlers.handleCellLongPress row col s) as [s'| |] eqn:Hrun.
  - destruct (handleCellLongPress_frame row col s s' Hrun)
      as (Hflags & Hcount & Hplaced & Htimer & Hvictory & Hlevel).
    split_and!; [|done| |done..|].
    + unfold Handlers.handleCellLongPress in *.
      destruct (getCell (Handlers.grid s) row col) as [cell|] eqn:Hcell; [|done].
      destruct (revealed cell) eqn:Hrev; simpl in Hrun; injection Hrun as <-.
      { by rewrite Hcell, Hrev. }
      simpl. rewrite (getCell_updCell _ _ _ _ _ row col Hcell).
      rewrite bool_decide_eq_true_2 by done. simpl. rewrite Hrev. simpl. f_equal.
      destruct s as [g mp fc ta vv d].
      unfold Handlers.setGrid, Handlers.setFlagCount. simpl in *. f_equal.
      * apply grid_ext; [by rewrite !updCell_row_lengths|].
        intros r c x Hx.
        assert (Hmid : getCell (updCell (setFlagged (negb (flagged cell))) g row col)
                         row col = Some (setFlagged (negb (flagged cell)) cell)).
        { rewrite (getCell_updCell _ _ _ _ _ row col Hcell).
          by rewrite bool_decide_eq_true_2. }
        rewrite (getCell_updCell _ _ _ _ _ r c Hmid), (getCell_updCell _ _ _ _ _ r c Hcell).
        destruct (bool_decide_reflect ((r, c) = (row, col))) as [E|E]; [|done].
        injection E as -> ->. rewrite Hx in Hcell. injection Hcell as ->.
        destruct cell as [m a rv f]. simpl. by rewrite negb_involutive.
      * destruct (flagged cell); simpl; lia.
    + intros r c Hne. unfold Handlers.handleCellLongPress in Hrun.
      destruct (getCell (Handlers.grid s) row col) as [cell|] eqn:Hcell; [|done].
      destruct (revealed cell); simpl in Hrun; injection Hrun as <-; [done|]. simpl.
      rewrite (getCell_updCell _ _ _ _ _ r c Hcell). by rewrite bool_decide_eq_false_2.
    + unfold Handlers.handleCellLongPress in Hrun.
      destruct (getCell (Handlers.grid s) row col) as [cell|] eqn:Hcell; [|done].
      exists cell. split; [done|].
      destruct (revealed cell); simpl in Hrun; injection Hrun as <-; [done|]. simpl.
      split.
      * rewrite (getCell_updCell _ _ _ _ _ row col Hcell).
        by rewrite bool_decide_eq_true_2.
      * by destruct (flagged cell).
  - unfold Handlers.handleCellLongPress in Hrun.
    destruct (getCell (Handlers.grid s) row col) as [cell|]; [|by injection Hrun as <-].
    by destruct (negb (revealed cell)).
  - unfold Handlers.handleCellLongPress in Hrun.
    destruct (getCell (Handlers.grid s) row col) as [cell|]; [|done].
    by destruct (negb (revealed cell)).
Qed.

Lemma emptyGrid_no_flags rows cols : flagTotal (emptyGrid rows cols) = 0%nat.
Proof.
  apply countCells_none. intros r c x.
  rewrite getCell_emptyGrid. destruct (inBounds rows cols r c); [|done].
  by intros [= <-].
Qed.

(** The grids of the three levels are within the lengths an array can
    have. *)
Lemma level_grid d :
  Client.createEmptyGrid (Handlers.rowsOf d) (Handlers.colsOf d) =
  Some (emptyGrid (Handlers.rowsOf d) (Handlers.colsOf d)).
Proof.
  rewrite Client_createEmptyGrid. apply createEmptyGrid_within; destruct d; simpl; lia.
Qed.

(** [handleReset] returns, for every level. *)
Lemma handleReset_returns s :
  Handlers.handleReset s =
  Done (Handlers.setTimerActive false
          (Handlers.setFlagCount (Handlers.minesOf (Handlers.difficulty s))
             (Handlers.setMinesPlaced false
                (Handlers.setGrid
                   (emptyGrid (Handlers.rowsOf (Handlers.difficulty s))
                      (Handlers.colsOf (Handlers.difficulty s))) s)))).
Proof. unfold Handlers.handleReset. by rewrite level_grid. Qed.

Lemma longPresses_frame presses : ∀ s0 s',
  Handlers.longPresses presses s0 = Done s' →
  sameButFlags (Handlers.grid s0) (Handlers.grid s') ∧
  Handlers.flagCount s' + Z.of_nat (flagTotal (Handlers.grid s')) =
    Handlers.flagCount s0 + Z.of_nat (flagTotal (Handlers.grid s0)) ∧
  Handlers.minesPlaced s' = Handlers.minesPlaced s0 ∧
  Handlers.difficulty s' = Handlers.difficulty s0.
Proof.
  unfold Handlers.longPresses.
  induction presses as [|[r c] presses IH]; intros s0 s' Hrun; simpl in Hrun.
  - injection Hrun as <-. split_and!; [apply sameButFlags_refl|done..].
  - destruct (Handlers.handleCellLongPress r c s0) as [s1| |] eqn:Hstep; [|done..].
    destruct (handleCellLongPress_frame r c s0 s1 Hstep) as (H1 & H2 & H3 & _ & _ & H4).
    destruct (IH s1 s' Hrun) as (H1' & H2' & H3' & H4'). split_and!.
    + by eapply sameButFlags_trans.
    + lia.
    + congruence.
    + congruence.
Qed.

(** X14: the flag counter.  After [handleReset], whatever long presses
    follow, the counter shows the mines of the level minus the flags on
    the board (so it goes below zero when more cells are flagged than the
    level has mines), and the board is the fresh one but for its flags. *)
Theorem flagCount_invariant (presses : list (Z * Z)) (s s' : Handlers.State) :
  andThen (Handlers.handleReset s) (Handlers.longPresses presses) = Done s' →
  Handlers.flagCount s' =
    Handlers.minesOf (Handlers.difficulty s) - Z.of_nat (flagTotal (Handlers.grid s')) ∧
  (∃ fresh,
     Client.createEmptyGrid (Handlers.rowsOf (Handlers.difficulty s))
       (Handlers.colsOf (Handlers.difficulty s)) = Some fresh ∧
     sameButFlags fresh (Handlers.grid s')) ∧
  Handlers.minesPlaced s' = false.
Proof.
  rewrite handleReset_returns. unfold andThen.
  intros Hrun. destruct (longPresses_frame _ _ _ Hrun) as (H1 & H2 & H3 & _).
  simpl in H1, H2, H3.
  rewrite emptyGrid_no_flags in H2. split_and!; [lia| |done].
  eexists. split; [apply level_grid|done].
Qed.

Lemma flagCount_invariant_witness :
  ∃ s', andThen (Handlers.handleReset (Handlers.mkState [] true 0 true false Handlers.easy))
          (Handlers.longPresses [(0, 0); (1, 1); (0, 0)]) =
        Done s' ∧ Handlers.flagCount s' = 10 - Z.of_nat (flagTotal (Handlers.grid s')).
Proof.
  eexists. split; [reflexivity|].
  apply (flagCount_invariant [(0, 0); (1, 1); (0, 0)]
           (Handlers.mkState [] true 0 true false Handlers.easy)).
  reflexivity.
Defined.

(** ** Chording *)

Lemma scanNeighbours_spec g cols row col ds n acc :
  rectangular g → numColsOf g = Some cols →
  Handlers.scanNeighbours g (numRowsOf g) cols row col ds n acc =
  Some (n + Z.of_nat (length (filter (λ d, hiddenFlaggedAt g (row + d.1) (col + d.2) = true) ds)),
        acc ++ ((λ d, (row + d.1, col + d.2)) <$>
                filter (λ d, hiddenPlainAt g (row + d.1) (col + d.2) = true) ds)).
Proof.
  intros Hrect Hcols. revert n acc.
  induction ds as [|[dr dc] ds IH]; intros n acc.
  { simpl. f_equal. f_equal; [lia|by rewrite app_nil_r]. }
  pose proof (getCell_inBounds g cols (row + dr) (col + dc) Hrect Hcols) as Hb.
  rewrite (filter_cons_bool (λ d, hiddenFlaggedAt g (row + d.1) (col + d.2))).
  rewrite (filter_cons_bool (λ d, hiddenPlainAt g (row + d.1) (col + d.2))).
  cbn [Handlers.scanNeighbours fst snd].
  unfold hiddenFlaggedAt at 1, hiddenPlainAt at 1.
  destruct (inBounds (numRowsOf g) cols (row + dr) (col + dc)) eqn:Hin.
  - destruct (proj2 Hb eq_refl) as [x Hx]. rewrite Hx, IH.
    destruct (negb (revealed x) && flagged x), (negb (revealed x) && negb (flagged x));
      simpl; f_equal; f_equal; try lia; by rewrite <- ?app_assoc.
  - destruct (getCell g (row + dr) (col + dc)) as [x|] eqn:Hx.
    { assert (false = true) by (apply Hb; eauto). done. }
    by rewrite IH.
Qed.

Lemma scanNeighbours_all g cols row col :
  rectangular g → numColsOf g = Some cols →
  Handlers.scanNeighbours g (numRowsOf g) cols row col directions 0 [] =
  Some (flagsAround g row col, plainAround g row col).
Proof. intros Hrect Hcols. by rewrite scanNeighbours_spec. Qed.

Lemma onlyReveals_trans g1 g2 g3 :
  onlyReveals g1 g2 → onlyReveals g2 g3 → onlyReveals g1 g3.
Proof.
  intros H12 H23. apply Forall2_grid.
  - by rewrite (onlyReveals_shape _ _ H23), (onlyReveals_shape _ _ H12).
  - intros r c x z Hx Hz.
    destruct (onlyReveals_getCell _ _ _ _ _ H12 Hx) as (y & Hy & ? & ? & ? & ?).
    destruct (onlyReveals_getCell _ _ _ _ _ H23 Hy) as (z' & Hz' & ? & ? & ? & ?).
    assert (z' = z) as -> by congruence. split_and!; try congruence. auto.
Qed.

Lemma onlyReveals_rectangular g g' : onlyReveals g g' → rectangular g → rectangular g'.
Proof. intros H. apply rectangular_shape. by apply onlyReveals_shape. Qed.

Lemma noMineOpened_refl g : noMineOpened g g.
Proof. intros r c x y Hx Hy _. congruence. Qed.


Lemma noMineOpened_markRevealed g r c x :
  getCell g r c = Some x → hasMine x = false → noMineOpened g (markRevealed g r c).
Proof.
  intros Hx Hfree r' c' x' y Hx' Hy Hm.
  rewrite (getCell_markRevealed _ _ _ _ r' c' Hx) in Hy.
  destruct (bool_decide_reflect ((r', c') = (r, c))) as [E|E]; [|congruence].
  injection E as -> ->. congruence.
Qed.

(** The flood from a free cell, as the chording loop needs it. *)
Lemma flood_step_safe m nr nc x :
  rectangular m → countsCorrect m → getCell m nr nc = Some x → hasMine x = false →
  ∃ m1, Client.revealCellsDFS m nr nc = Done m1 ∧ onlyReveals m m1 ∧ noMineOpened m m1 ∧
        ∃ y, getCell m1 nr nc = Some y ∧ revealed y = true.
Proof.
  intros Hrect Hcounts Hx Hfree.
  destruct (flood_from_free client m nr nc x Hrect Hcounts Hx Hfree)
    as (m1 & Hrun & Hframe & Hshown & Hnew).
  exists m1. split_and!; [done..| |done].
  intros r c x' y Hx' Hy Hm.
  destruct (onlyReveals_getCell _ _ _ _ _ Hframe Hx') as (y' & Hy' & Hmy & _ & _ & Hmono).
  assert (y' = y) as -> by congruence.
  destruct (revealed x') eqn:Hrx; [by apply Hmono|].
  destruct (revealed y) eqn:Hry; [|done].
  rewrite (Hnew r c x' y Hx' Hy Hrx Hry) in Hmy. congruence.
Qed.


Lemma elem_of_plainAround g row col r c :
  (r, c) ∈ plainAround g row col ↔
  ∃ d, d ∈ directions ∧ (r, c) = (row + d.1, col + d.2) ∧ hiddenPlainAt g r c = true.
Proof.
  unfold plainAround. rewrite list_elem_of_fmap. split.
  - intros (d & E & Hd). apply list_elem_of_filter in Hd as [Hp Hd].
    exists d. injection E as -> ->. done.
  - intros (d & Hd & E & Hp). exists d. split; [done|].
    apply list_elem_of_filter. injection E as -> ->. done.
Qed.

Lemma chord_unfold row col cell s cols :
  rectangular (Handlers.grid s) → numColsOf (Handlers.grid s) = Some cols →
  Handlers.chord row col cell s =
  if flagsAround (Handlers.grid s) row col =? adjacentMines cell then
    match Handlers.chordReveal (Handlers.grid s)
            (plainAround (Handlers.grid s) row col) false false with
    | Threw g => Threw (Handlers.setGrid g s)
    | OutOfFuel => OutOfFuel
    | Done (g, revealedAny, bombRevealed) =>
        if revealedAny then
          if bombRevealed then
            match Handlers.revealBombs g with
            | Done g' => Done (Handlers.setGrid g' (Handlers.setTimerActive false s))
            | Threw g' => Threw (Handlers.setGrid g' s)
            | OutOfFuel => OutOfFuel
            end
          else Handlers.winCheck g (Handlers.setGrid g s)
        else Done s
    end
  else Done s.
Proof.
  intros Hrect Hcols. unfold Handlers.chord. by rewrite Hcols, scanNeighbours_all.
Qed.

Lemma handleCellPress_chord reply row col s cell :
  getCell (Handlers.grid s) row col = Some cell →
  revealed cell = true → 0 < adjacentMines cell →
  Handlers.handleCellPress reply row col s = Handlers.chord row col cell s.
Proof.
  intros Hcell Hrev Hpos. unfold Handlers.handleCellPress. rewrite Hcell, Hrev. simpl.
  by destruct (Z.ltb_spec 0 (adjacentMines cell)); [|lia].
Qed.

(** X15: presses that change nothing.  A press on a hidden cell that
    carries a flag returns at once.  On a rectangular grid, a press on a
    revealed cell with a positive count returns with the state as it was
    when the hidden flagged cells around it do not number its count, or
    when no cell around it is hidden and without a flag. *)
Theorem handleCellPress_idle (reply : option Grid) (row col : Z) (s : Handlers.State)
    (cell : Cell) :
  rectangular (Handlers.grid s) → getCell (Handlers.grid s) row col = Some cell →
  (revealed cell = false ∧ flagged cell = true) ∨
  (revealed cell = true ∧ 0 < adjacentMines cell ∧
   (flagsAround (Handlers.grid s) row col ≠ adjacentMines cell ∨
    plainAround (Handlers.grid s) row col = [])) →
  Handlers.handleCellPress reply row col s = Done s.
Proof.
  intros Hrect Hcell [[Hrev Hflag]|(Hrev & Hpos & Hidle)].
  - unfold Handlers.handleCellPress. by rewrite Hcell, Hrev, Hflag.
  - rewrite (handleCellPress_chord reply row col s cell Hcell Hrev Hpos).
    destruct (numColsOf (Handlers.grid s)) as [cols|] eqn:Hcols.
    2:{ apply numColsOf_None in Hcols. rewrite Hcols in Hcell.
        apply getCell_Some in Hcell as (_ & _ & ? & ? & _). done. }
    rewrite (chord_unfold row col cell s cols Hrect Hcols).
    destruct (Z.eqb_spec (flagsAround (Handlers.grid s) row col) (adjacentMines cell))
      as [E|E]; [|done].
    destruct Hidle as [Hne| ->]; [done|]. done.
Qed.

Lemma handleCellPress_idle_witness :
  Handlers.handleCellPress None 0 0
    (Handlers.mkState [[flaggedCell 0]] true 0 true false Handlers.easy) =
  Done (Handlers.mkState [[flaggedCell 0]] true 0 true false Handlers.easy).
Proof.
  apply (handleCellPress_idle None 0 0 _ (flaggedCell 0)).
  - repeat constructor.
  - reflexivity.
  - left. split; reflexivity.
Defined.

Lemma numColsOf_cell g row col cell :
  getCell g row col = Some cell → ∃ cols, numColsOf g = Some cols.
Proof.
  intros Hcell. apply numColsOf_nonempty. intros ->.
  apply getCell_Some in Hcell as (_ & _ & ? & ? & _). done.
Qed.





(** The second loop of chording when a mine is among the hidden cells
    without a flag: it ends with [revealedAny] and [bombRevealed] set. *)
Lemma chordReveal_bomb todo : ∀ m any0 bomb0,
  rectangular m → countsCorrect m →
  (∀ r c, (r, c) ∈ todo → is_Some (getCell m r c)) →
  (bomb0 = true → any0 = true) →
  bomb0 = true ∨
    (∃ r c x, (r, c) ∈ todo ∧ getCell m r c = Some x ∧
              hasMine x = true ∧ revealed x = false ∧ flagged x = false) →
  ∃ g', Handlers.chordReveal m todo any0 bomb0 = Done (g', true, true) ∧ onlyReveals m g'.
Proof.
  induction todo as [|[nr nc] rest IH]; intros m any0 bomb0 Hrect Hcounts Hdef Hany Hbomb.
  { destruct Hbomb as [->|(r & c & x & Hin & _)]; [|by apply elem_of_nil in Hin].
    rewrite (Hany eq_refl). exists m. split; [done|apply onlyReveals_refl]. }
  destruct (Hdef nr nc) as [x Hx]; [left|].
  cbn [Handlers.chordReveal]. rewrite Hx.
  assert (Hstep : ∀ m1 any1 bomb1,
    onlyReveals m m1 → (bomb1 = true → any1 = true) →
    bomb1 = true ∨
      (bomb1 = bomb0 ∧ noMineOpened m m1 ∧
       (hasMine x = true → revealed x = true ∨ flagged x = true)) →
    ∃ g', Handlers.chordReveal m1 rest any1 bomb1 = Done (g', true, true) ∧ onlyReveals m g').
  { intros m1 any1 bomb1 Hframe Hany1 Hb.
    destruct (IH m1 any1 bomb1) as (g' & Hrun & Hframe').
    - by apply (onlyReveals_rectangular m).
    - by apply (countsCorrect_onlyReveals m).
    - intros r c Hin. destruct (Hdef r c) as [z Hz]; [by right|].
      destruct (onlyReveals_getCell _ _ _ _ _ Hframe Hz) as (z' & -> & _). eauto.
    - done.
    - destruct Hb as [->|(-> & Hnone & Hhead)]; [by left|].
      destruct Hbomb as [->|(r & c & z & Hin & Hz & Hm & Hh & Hf)]; [by left|right].
      apply elem_of_cons in Hin as [E|Hin].
      { injection E as -> ->. assert (z = x) as -> by congruence.
        destruct (Hhead Hm); congruence. }
      destruct (onlyReveals_getCell _ _ _ _ _ Hframe Hz) as (z' & Hz' & Hm' & _ & Hf' & _).
      exists r, c, z'. split_and!; [done|done|congruence| |congruence].
      rewrite (Hnone r c z z' Hz Hz' Hm). done.
    - exists g'. split; [done|]. by apply (onlyReveals_trans m m1). }
  destruct (revealed x) eqn:Hrev; simpl.
  { apply Hstep; [apply onlyReveals_refl|done|].
    right. split_and!; [done|apply noMineOpened_refl|by left]. }
  destruct (flagged x) eqn:Hflag; simpl.
  { apply Hstep; [apply onlyReveals_refl|done|].
    right. split_and!; [done|apply noMineOpened_refl|by right]. }
  destruct (hasMine x) eqn:Hmine.
  { apply Hstep; [apply onlyReveals_markRevealed, onlyReveals_refl|done|by left]. }
  destruct (Z.eqb_spec (adjacentMines x) 0) as [Hz|Hz].
  - destruct (flood_step_safe m nr nc x Hrect Hcounts Hx Hmine)
      as (m1 & -> & Hframe & Hnone & _).
    apply Hstep; [done|done|]. right. split_and!; [done|done|congruence].
  - apply Hstep; [apply onlyReveals_markRevealed, onlyReveals_refl|done|].
    right. split_and!; [done| |congruence].
    by apply (noMineOpened_markRevealed m nr nc x).
Qed.

Lemma shownUpTo_weaken g (D D' : Z → Z → Prop) m :
  (∀ r c, is_Some (getCell g r c) → D' r c → D r c) →
  shownUpTo g D m → shownUpTo g D' m.
Proof.
  intros HD (Hframe & Hshown & Hfree). split_and!; [done| |done].
  intros r c x Hd Hx. apply (Hshown r c x); [|done].
  apply HD; [|done]. destruct (onlyReveals_getCell_r _ _ _ _ _ Hframe Hx) as (? & ? & _).
  eauto.
Qed.

Lemma shownUpTo_step g D m r c :
  shownUpTo g D m → is_Some (getCell g r c) →
  ∃ m', Handlers.revealIfMine r c m = Done m' ∧
        shownUpTo g (λ r' c', D r' c' ∨ (r', c') = (r, c)) m'.
Proof.
  intros (Hframe & Hshown & Hfree) [x0 Hx0].
  destruct (onlyReveals_getCell _ _ _ _ _ Hframe Hx0) as (x & Hx & Hm & _).
  unfold Handlers.revealIfMine. rewrite Hx.
  destruct (hasMine x) eqn:Hmine.
  - eexists. split; [done|]. split_and!.
    + by apply onlyReveals_markRevealed.
    + intros r' c' y HD. rewrite (getCell_markRevealed _ _ _ _ r' c' Hx).
      destruct (bool_decide_reflect ((r', c') = (r, c))) as [E|E]; [by intros [= <-]|].
      destruct HD as [HD|HD]; [by apply Hshown|done].
    + intros r' c' z y Hz. rewrite (getCell_markRevealed _ _ _ _ r' c' Hx).
      destruct (bool_decide_reflect ((r', c') = (r, c))) as [E|E]; [|by apply Hfree].
      injection E as -> ->. congruence.
  - exists m. split; [done|]. split_and!; [done| |done].
    intros r' c' y [HD|E] Hy Hm'; [by apply (Hshown r' c')|].
    injection E as -> ->. congruence.
Qed.

(** The loops that reveal all bombs, on a rectangular grid: they return,
    having revealed every mine and nothing else. *)
Lemma revealBombs_spec g :
  rectangular g →
  ∃ g', Handlers.revealBombs g = Done g' ∧ shownUpTo g (λ _ _, True) g'.
Proof.
  intros Hrect. unfold Handlers.revealBombs.
  assert (Hstart : shownUpTo g (λ _ _, False) g).
  { split_and!; [apply onlyReveals_refl|done|]. intros r c x y Hx Hy. congruence. }
  destruct (numColsOf g) as [cols|] eqn:Hcols.
  2:{ exists g. split; [done|]. eapply shownUpTo_weaken; [|exact Hstart].
      apply numColsOf_None in Hcols. subst g. intros r c [x Hx].
      apply getCell_Some in Hx as (_ & _ & ? & ? & _). done. }
  destruct (forEach_invariant
    (λ r, forEach (Handlers.revealIfMine r) (seqZ 0 cols))
    (λ seen m, shownUpTo g (λ r _, r ∈ seen) m) (seqZ 0 (numRowsOf g)) g)
    as (g' & Hrun & Hg').
  - eapply shownUpTo_weaken; [|exact Hstart].
    intros r c _ Hin. by apply elem_of_nil in Hin.
  - intros seen r m Hm Hr. apply elem_of_seqZ in Hr.
    destruct (forEach_invariant (Handlers.revealIfMine r)
      (λ seenc m, shownUpTo g (λ r' c', r' ∈ seen ∨ (r' = r ∧ c' ∈ seenc)) m)
      (seqZ 0 cols) m) as (m' & Hrun & Hm').
    + eapply shownUpTo_weaken; [|exact Hm].
      intros r' c' _ [H|[_ H]]; [done|by apply elem_of_nil in H].
    + intros seenc c m1 Hm1 Hc. apply elem_of_seqZ in Hc.
      destruct (shownUpTo_step g _ m1 r c Hm1) as (m2 & Hrun & Hm2).
      { apply (getCell_inBounds g cols r c Hrect Hcols), inBounds_iff. lia. }
      exists m2. split; [done|]. eapply shownUpTo_weaken; [|exact Hm2].
      intros r' c' _ [H|[-> H]]; [by left; left|].
      apply elem_of_app in H as [H|H]; [left; right; done|].
      apply list_elem_of_singleton in H as ->. by right.
    + exists m'. split; [done|]. eapply shownUpTo_weaken; [|exact Hm'].
      intros r' c' Hs H. apply elem_of_app in H as [H|H]; [by left|].
      apply list_elem_of_singleton in H as ->. right. split; [done|].
      apply (getCell_inBounds g cols r c' Hrect Hcols), inBounds_iff in Hs.
      apply elem_of_seqZ. lia.
  - exists g'. split; [done|]. eapply shownUpTo_weaken; [|exact Hg'].
    intros r c Hs _. apply (getCell_inBounds g cols r c Hrect Hcols), inBounds_iff in Hs.
    apply elem_of_seqZ. lia.
Qed.

(** X17: a chord on a mine ends the game.  On a rectangular grid with
    correct counts, press a revealed cell with a positive count whose
    hidden flagged neighbours number its count while a mine is among its
    hidden neighbours without a flag.  The press returns with every mine
    of the grid revealed and the timer stopped; it has only revealed
    cells; no win is reported, and the flag counter is as it was. *)
Theorem chord_bomb (reply : option Grid) (row col : Z) (s : Handlers.State) (cell : Cell)
    (r c : Z) :
  rectangular (Handlers.grid s) → countsCorrect (Handlers.grid s) →
  getCell (Handlers.grid s) row col = Some cell →
  revealed cell = true → 0 < adjacentMines cell →
  flagsAround (Handlers.grid s) row col = adjacentMines cell →
  (r, c) ∈ plainAround (Handlers.grid s) row col →
  minedAt (Handlers.grid s) r c = true →
  ∃ s', Handlers.handleCellPress reply row col s = Done s' ∧
        onlyReveals (Handlers.grid s) (Handlers.grid s') ∧
        minesShown (Handlers.grid s') ∧
        Handlers.timerActive s' = false ∧
        Handlers.victoryVisible s' = Handlers.victoryVisible s ∧
        Handlers.flagCount s' = Handlers.flagCount s.
Proof.
  intros Hrect Hcounts Hcell Hrev Hpos Hsame Hin Hmined.
  rewrite (handleCellPress_chord reply row col s cell Hcell Hrev Hpos).
  destruct (numColsOf_cell _ _ _ _ Hcell) as [cols Hcols].
  rewrite (chord_unfold row col cell s cols Hrect Hcols).
  destruct (Z.eqb_spec (flagsAround (Handlers.grid s) row col) (adjacentMines cell));
    [|done].
  destruct (chordReveal_bomb (plainAround (Handlers.grid s) row col) (Handlers.grid s)
              false false Hrect Hcounts) as (g' & -> & Hframe).
  { intros r' c' Hin'. apply elem_of_plainAround in Hin' as (_ & _ & _ & Hp).
    unfold hiddenPlainAt in Hp. destruct (getCell _ r' c'); [eauto|done]. }
  { done. }
  { right. pose proof Hin as Hin'.
    apply elem_of_plainAround in Hin' as (_ & _ & _ & Hp).
    unfold hiddenPlainAt in Hp. unfold minedAt in Hmined.
    destruct (getCell (Handlers.grid s) r c) as [x|] eqn:Hx; [|done].
    apply andb_true_iff in Hp as [Hh Hn]. apply negb_true_iff in Hh, Hn.
    exists r, c, x. done. }
  destruct (revealBombs_spec g' (onlyReveals_rectangular _ _ Hframe Hrect))
    as (g'' & -> & Hframe' & Hshown & _).
  eexists. split; [reflexivity|]. simpl. split_and!; [|  |done..].
  - by apply (onlyReveals_trans _ g').
  - intros r' c' x Hx. by apply (Hshown r' c' x).
Qed.

Lemma chord_bomb_witness :
  ∃ s', Handlers.handleCellPress None 0 1 (playing chordBoardWrong) = Done s' ∧
        onlyReveals chordBoardWrong (Handlers.grid s') ∧
        minesShown (Handlers.grid s') ∧
        Handlers.timerActive s' = false ∧
        Handlers.victoryVisible s' = false ∧
        Handlers.flagCount s' = 0.
Proof.
  apply (chord_bomb None 0 1 (playing chordBoardWrong) (shownCell 1) 0 0).
  - repeat constructor.
  - apply countsCorrectb_sound; [repeat constructor|reflexivity].
  - reflexivity.
  - reflexivity.
  - simpl. lia.
  - reflexivity.
  - by vm_compute; left.
  - reflexivity.
Defined.

(** ** Presses on hidden cells *)

Lemma showMines_shape g : length <$> Handlers.showMines g = length <$> g.
Proof.
  unfold Handlers.showMines. rewrite <- list_fmap_compose. apply list_fmap_ext.
  intros i row _. simpl. apply length_fmap.
Qed.

Lemma showMines_onlyReveals g : onlyReveals g (Handlers.showMines g).
Proof.
  apply Forall2_grid; [apply showMines_shape|].
  intros r c x y Hx. rewrite getCell_showMines, Hx. simpl. intros [= <-].
  by destruct (hasMine x) eqn:E.
Qed.

Lemma winCheck_hidden g s r c x :
  rectangular g → getCell g r c = Some x → hasMine x = false → revealed x = false →
  Handlers.winCheck g s = Done s.
Proof.
  intros Hrect Hx Hfree Hhid. unfold Handlers.winCheck.
  destruct (checkWin_spec g Hrect) as (b & -> & Hiff).
  destruct b; [|done]. rewrite (proj1 Hiff eq_refl r c x Hx Hfree) in Hhid. done.
Qed.

Lemma winCheck_won g s :
  rectangular g →
  (∀ r c x, getCell g r c = Some x → hasMine x = false → revealed x = true) →
  Handlers.winCheck g s =
  Done (Handlers.setVictoryVisible true (Handlers.setTimerActive false s)).
Proof.
  intros Hrect Hall. unfold Handlers.winCheck.
  destruct (checkWin_spec g Hrect) as (b & -> & Hiff).
  destruct b; [done|]. by pose proof (proj2 Hiff Hall).
Qed.

(** X18: presses answered on the screen.  Once the mines are placed, on
    a rectangular grid, a press on a hidden cell without a flag that is
    mined reveals every mine and nothing else, and neither stops the timer
    nor reports anything as long as a free cell is hidden; a press on one
    that is free with a count other than 0 reveals that cell and nothing
    else, and reports the win, stopping the timer, exactly when no free
    cell is hidden any more. *)
Theorem handleCellPress_local (reply : option Grid) (row col : Z) (s : Handlers.State)
    (cell : Cell) :
  rectangular (Handlers.grid s) → Handlers.minesPlaced s = true →
  getCell (Handlers.grid s) row col = Some cell →
  revealed cell = false → flagged cell = false →
  (hasMine cell = true →
   ∃ s', Handlers.handleCellPress reply row col s = Done s' ∧
         Handlers.grid s' = Handlers.showMines (Handlers.grid s) ∧
         minesShown (Handlers.grid s') ∧
         (∀ r c x, getCell (Handlers.grid s) r c = Some x → hasMine x = false →
                   getCell (Handlers.grid s') r c = Some x) ∧
         ((∃ r c x, getCell (Handlers.grid s) r c = Some x ∧
                    hasMine x = false ∧ revealed x = false) →
          s' = Handlers.setGrid (Handlers.showMines (Handlers.grid s)) s)) ∧
  (hasMine cell = false → adjacentMines cell ≠ 0 →
   let newGrid := markRevealed (Handlers.grid s) row col in
   ∃ s', Handlers.handleCellPress reply row col s = Done s' ∧
         Handlers.grid s' = newGrid ∧
         ((∃ r c x, getCell newGrid r c = Some x ∧ hasMine x = false ∧ revealed x = false) →
          s' = Handlers.setGrid newGrid s) ∧
         ((∀ r c x, getCell newGrid r c = Some x → hasMine x = false → revealed x = true) →
          s' = Handlers.setVictoryVisible true
                 (Handlers.setTimerActive false (Handlers.setGrid newGrid s)))).
Proof.
  intros Hrect Hplaced Hcell Hhid Hnoflag.
  assert (Hpress : Handlers.handleCellPress reply row col s =
    if hasMine cell then
      Handlers.winCheck (Handlers.showMines (Handlers.grid s))
        (Handlers.setGrid (Handlers.showMines (Handlers.grid s)) s)
    else if adjacentMines cell =? 0 then
      match reply with
      | None => Handlers.winCheck (Handlers.grid s) s
      | Some g' => Handlers.winCheck (Handlers.grid s) (Handlers.setGrid g' s)
      end
    else Handlers.winCheck (markRevealed (Handlers.grid s) row col)
           (Handlers.setGrid (markRevealed (Handlers.grid s) row col) s)).
  { unfold Handlers.handleCellPress. by rewrite Hcell, Hhid, Hnoflag, Hplaced. }
  split.
  - intros Hmine. rewrite Hpress, Hmine.
    pose proof (showMines_onlyReveals (Handlers.grid s)) as Hframe.
    pose proof (onlyReveals_rectangular _ _ Hframe Hrect) as Hrect'.
    assert (Hfree : ∀ r c x, getCell (Handlers.grid s) r c = Some x → hasMine x = false →
              getCell (Handlers.showMines (Handlers.grid s)) r c = Some x).
    { intros r c x Hx Hf. by rewrite getCell_showMines, Hx; simpl; rewrite Hf. }
    assert (Hshown : minesShown (Handlers.showMines (Handlers.grid s))).
    { intros r c y. rewrite getCell_showMines.
      destruct (getCell (Handlers.grid s) r c) as [x|]; [|done]. simpl. intros [= <-].
      destruct (hasMine x) eqn:E; simpl; [done|congruence]. }
    unfold Handlers.winCheck.
    destruct (checkWin_spec _ Hrect') as (b & -> & Hiff). destruct b.
    + eexists. split; [reflexivity|]. simpl. split_and!; [done..|].
      intros (r & c & x & Hx & Hf & Hh).
      rewrite (proj1 Hiff eq_refl r c x (Hfree _ _ _ Hx Hf) Hf) in Hh. done.
    + eexists. split; [reflexivity|]. simpl. split_and!; done.
  - intros Hfree Hnz newGrid. rewrite Hpress, Hfree.
    destruct (Z.eqb_spec (adjacentMines cell) 0); [done|].
    assert (rectangular newGrid) as Hrect'.
    { apply (onlyReveals_rectangular (Handlers.grid s)); [|done].
      apply onlyReveals_markRevealed, onlyReveals_refl. }
    fold newGrid. unfold Handlers.winCheck.
    destruct (checkWin_spec _ Hrect') as (b & -> & Hiff). destruct b.
    + eexists. split; [reflexivity|]. simpl. split_and!; [done| |done].
      intros (r & c & x & Hx & Hf & Hh).
      rewrite (proj1 Hiff eq_refl r c x Hx Hf) in Hh. done.
    + eexists. split; [reflexivity|]. simpl. split_and!; [done|done|].
      intros Hall. by pose proof (proj2 Hiff Hall).
Qed.

Lemma handleCellPress_local_witness :
  ∃ s', Handlers.handleCellPress None 0 0 (playing chordBoardWrong) = Done s' ∧
        Handlers.grid s' = Handlers.showMines chordBoardWrong ∧
        minesShown (Handlers.grid s') ∧
        s' = Handlers.setGrid (Handlers.showMines chordBoardWrong) (playing chordBoardWrong).
Proof.
  destruct (handleCellPress_local None 0 0 (playing chordBoardWrong) mineCell)
    as [Hmine _].
  - repeat constructor.
  - reflexivity.
  - reflexivity.
  - reflexivity.
  - reflexivity.
  - destruct (Hmine eq_refl) as (s' & Hrun & Hgrid & Hshown & _ & Hkeep).
    exists s'. split_and!; [exact Hrun|exact Hgrid|exact Hshown|].
    apply Hkeep. exists 0, 2, (flaggedCell 0). split_and!; reflexivity.
Defined.

(** X19: a press on a hidden zero.  Once the mines are placed, on a
    rectangular grid, a press on a hidden cell without a flag that is free
    with count 0 puts on the screen the grid that [/reveal] answered,
    whatever it is, and leaves the screen as it was when the request
    failed.  It reports no win and does not stop the timer, even when the
    grid it received is won: [checkWin] is asked about the grid before the
    request.  On correct counts the backend's flood of the grid of the
    screen is such an answer; it only reveals cells, and no mine. *)
Theorem handleCellPress_zero (reply : option Grid) (row col : Z) (s : Handlers.State)
    (cell : Cell) :
  rectangular (Handlers.grid s) → Handlers.minesPlaced s = true →
  getCell (Handlers.grid s) row col = Some cell →
  revealed cell = false → flagged cell = false →
  hasMine cell = false → adjacentMines cell = 0 →
  Handlers.handleCellPress reply row col s =
    Done (match reply with Some g' => Handlers.setGrid g' s | None => s end) ∧
  (countsCorrect (Handlers.grid s) →
   ∃ g', Backend.revealCellsDFS (Handlers.grid s) row col = Done g' ∧
         onlyReveals (Handlers.grid s) g' ∧ noMineOpened (Handlers.grid s) g' ∧
         ∃ y, getCell g' row col = Some y ∧ revealed y = true).
Proof.
  intros Hrect Hplaced Hcell Hhid Hnoflag Hfree Hzero. split.
  - unfold Handlers.handleCellPress.
    rewrite Hcell, Hhid, Hnoflag, Hplaced, Hfree, Hzero. simpl.
    destruct reply; by apply (winCheck_hidden _ _ row col cell).
  - intros Hcounts.
    destruct (flood_step_safe (Handlers.grid s) row col cell Hrect Hcounts Hcell Hfree)
      as (g' & Hrun & Hframe & Hnone & Hshown).
    exists g'. rewrite <- Client_revealCellsDFS_Backend. done.
Qed.

Lemma handleCellPress_zero_witness :
  Handlers.handleCellPress (Some cornerMineWon) 0 0 (playing cornerMineCounted) =
    Done (Handlers.setGrid cornerMineWon (playing cornerMineCounted)) ∧
  App.checkWin cornerMineWon = Some true.
Proof.
  split; [|reflexivity].
  apply (handleCellPress_zero (Some cornerMineWon) 0 0 (playing cornerMineCounted)
           (hiddenCell 0)).
  - apply cornerMineCounted_rectangular.
  - reflexivity.
  - reflexivity.
  - reflexivity.
  - reflexivity.
  - reflexivity.
  - reflexivity.
Defined.

(** X20: the first press.  After [handleReset] and any long presses,
    press a cell of the grid that carries no flag.  When the request to
    [/start-game] fails the handler raises and the screen is as it was.
    Otherwise the backend answers, for the dimensions and the mines of the
    level, with a grid that has those dimensions and that many mines and
    no flag; the screen shows that grid, the mines count as placed and the
    timer runs.  The flags set before the press are gone from the grid,
    and the flag counter still has them subtracted. *)
Theorem first_press (random : nat → Q) (presses : list (Z * Z)) (s s0 : Handlers.State)
    (row col : Z) (cell : Cell) :
  unitInterval random →
  andThen (Handlers.handleReset s) (Handlers.longPresses presses) = Done s0 →
  getCell (Handlers.grid s0) row col = Some cell → flagged cell = false →
  let d := Handlers.difficulty s in
  Handlers.handleCellPress None row col s0 = Threw s0 ∧
  ∃ g, Routes.startGame random (Handlers.rowsOf d) (Handlers.colsOf d) (Handlers.minesOf d)
         row col = Done g ∧
       Handlers.handleCellPress (Some g) row col s0 =
         Done (Handlers.setTimerActive true
                 (Handlers.setMinesPlaced true (Handlers.setGrid g s0))) ∧
       hasDims (Handlers.rowsOf d) (Handlers.colsOf d) g ∧
       Z.of_nat (mineTotal g) = Handlers.minesOf d ∧
       flagTotal g = 0%nat ∧
       Handlers.flagCount s0 =
         Handlers.minesOf d - Z.of_nat (flagTotal (Handlers.grid s0)).
Proof.
  intros _ Hrun Hcell Hnoflag d.
  rewrite handleReset_returns in Hrun. unfold andThen in Hrun.
  destruct (longPresses_frame _ _ _ Hrun) as (Hflags & Hcount & Hplaced & _).
  simpl in Hflags, Hcount, Hplaced.
  fold d in Hflags, Hcount. rewrite emptyGrid_no_flags in Hcount.
  destruct (Forall2_grid_getCell_r _ _ _ _ _ _ Hflags Hcell) as (x0 & Hx0 & Hm & _ & Hr).
  rewrite getCell_emptyGrid in Hx0.
  destruct (inBounds (Handlers.rowsOf d) (Handlers.colsOf d) row col) eqn:Hin; [|done].
  injection Hx0 as <-. simpl in Hm, Hr.
  assert (rectangular (Handlers.grid s0)) as Hrect.
  { eapply rectangular_shape; [|apply (emptyGrid_rectangular
                                        (Handlers.rowsOf d) (Handlers.colsOf d))].
    by eapply Forall2_grid_shape. }
  assert (Hpress : ∀ reply, Handlers.handleCellPress reply row col s0 =
    match reply with
    | None => Threw s0
    | Some g' => Done (Handlers.setTimerActive true
                         (Handlers.setMinesPlaced true (Handlers.setGrid g' s0)))
    end).
  { intros reply. unfold Handlers.handleCellPress.
    rewrite Hcell, Hr, Hnoflag, Hplaced. simpl. destruct reply as [g'|]; [|done].
    by apply (winCheck_hidden _ _ row col cell). }
  split; [apply Hpress|].
  destruct (startGame_answer random (Handlers.rowsOf d) (Handlers.colsOf d)
              (Handlers.minesOf d) row col)
    as (g & Hstart & Hdims & Htotal & _ & _ & Hcells).
  { destruct d; simpl; lia. }
  { destruct d; simpl; lia. }
  { done. }
  { destruct d; simpl; lia. }
  exists g. split_and!; [done|apply Hpress|done|done| |lia].
  apply countCells_none. intros r c x Hx. by destruct (Hcells r c x Hx).
Qed.

Lemma first_press_witness :
  ∃ s0,
    andThen (Handlers.handleReset (playing [])) (Handlers.longPresses [(0, 0)]) = Done s0 ∧
    Handlers.handleCellPress None 3 3 s0 = Threw s0 ∧
    ∃ g, Routes.startGame cycling 10 8 10 3 3 = Done g ∧
         Handlers.handleCellPress (Some g) 3 3 s0 =
           Done (Handlers.setTimerActive true
                   (Handlers.setMinesPlaced true (Handlers.setGrid g s0))) ∧
         hasDims 10 8 g ∧ Z.of_nat (mineTotal g) = 10 ∧ flagTotal g = 0%nat ∧
         Handlers.flagCount s0 = 10 - Z.of_nat (flagTotal (Handlers.grid s0)).
Proof.
  eexists. split; [reflexivity|].
  apply (first_press cycling [(0, 0)] (playing []) _ 3 3 emptyCell).
  - apply cycling_unit.
  - reflexivity.
  - reflexivity.
  - reflexivity.
Defined.

(** * The [/reveal] handler on grid values *)

(** X12: what [/reveal] answers, read as grid values.  Take a request
    whose grid, an array of arrays of cell objects with at least one row,
    reads as the grid value [m].  When [m] has no cell at the target the
    handler raises, the store as it was.  When the target is revealed or
    flagged it answers with the grid it was given.  Otherwise it ends as
    the backend's [revealCellsDFS] on [m] ends: when that returns [m'],
    the handler answers with a grid of new cell objects that reads as
    [m'], and the grid of the request still reads as [m]. *)
Theorem reveal_answer (h : gmap positive Cell) (g : list (list positive)) (m : Grid)
    (row col : Z) :
  viewOf g h m → m ≠ [] →
  match getCell m row col with
  | None => Server.reveal h (Some g) row col = Threw h
  | Some x =>
      if revealed x || flagged x
      then Server.reveal h (Some g) row col = Done (h, Server.Json g)
      else
        match Server.reveal h (Some g) row col, Backend.revealCellsDFS m row col with
        | Done (h', Server.Json g'), Done m' => viewOf g' h' m' ∧ viewOf g h' m
        | Threw h', Threw _ => viewOf g h' m
        | _, _ => False
        end
  end.
Proof.
  intros Hview Hne.
  assert (length g ≠ 0%nat) as Hlen.
  { rewrite (Forall2_length _ _ _ Hview). by destruct m. }
  pose proof (viewOf_cellAt g h m row col Hview) as Hread.
  destruct (getCell m row col) as [x|] eqn:Hx.
  - destruct (revealed x || flagged x) eqn:Hgate.
    + unfold Server.reveal. rewrite bool_decide_eq_false_2 by done.
      by rewrite Hread, Hgate.
    + apply orb_false_iff in Hgate as [Hrev Hflag].
      by apply (reveal_refines h g m row col x).
  - unfold Server.reveal. rewrite bool_decide_eq_false_2 by done. by rewrite Hread.
Qed.

Lemma reveal_answer_witness :
  match Server.reveal threeCells (Some [[1%positive]]) 0 0,
        Backend.revealCellsDFS [[hiddenCell 0]] 0 0 with
  | Done (h', Server.Json g'), Done m' =>
      viewOf g' h' m' ∧ viewOf [[1%positive]] h' [[hiddenCell 0]]
  | Threw h', Threw _ => viewOf [[1%positive]] h' [[hiddenCell 0]]
  | _, _ => False
  end.
Proof.
  apply (reveal_answer threeCells [[1%positive]] [[hiddenCell 0]] 0 0).
  - repeat constructor.
  - discriminate.
Defined.

(** * Accounts *)

Section AccountFacts.

Context {Text Decoded : Type}.

Variable JSON_stringify : list Accounts.User → Text.

Variable JSON_parse : Text → option (list Accounts.User).

Variable bcrypt_hash : string → string → string.

Variable bcrypt_compare : string → string → bool.

Variable jwt_sign : Z → string → string → string.

Variable jwt_verify : Z → string → option Decoded.

Local Abbreviation names := (fmap (M := list) Accounts.username).

Local Abbreviation loadUsers := (Accounts.loadUsers JSON_parse).

Local Abbreviation register := (Accounts.register (Decoded := Decoded)
                                  JSON_stringify JSON_parse bcrypt_hash).

Local Abbreviation login := (Accounts.login (Decoded := Decoded)
                               JSON_parse bcrypt_compare jwt_sign).

Lemma existsb_username n users :
  existsb (λ user, bool_decide (Accounts.username user = n)) users = true ↔ n ∈ names users.
Proof.
  rewrite existsb_exists, list_elem_of_fmap. split.
  - intros (user & Hin & E). apply bool_decide_eq_true in E. apply list_elem_of_In in Hin.
    eauto.
  - intros (user & -> & Hin). exists user. split; [by apply list_elem_of_In|].
    by apply bool_decide_eq_true.
Qed.

Lemma find_username n users :
  match List.find (λ user, bool_decide (Accounts.username user = n)) users with
  | Some user => user ∈ users ∧ Accounts.username user = n
  | None => n ∉ names users
  end.
Proof.
  induction users as [|u users IH]; simpl; [apply not_elem_of_nil|].
  destruct (bool_decide_reflect (Accounts.username u = n)) as [E|E].
  - split; [left|done].
  - destruct (List.find _ users) as [user|].
    + destruct IH. split; [by right|done].
    + fold (names users). apply not_elem_of_cons. split; [congruence|done].
Qed.

Lemma find_new n users user :
  n ∉ names users → Accounts.username user = n →
  List.find (λ user, bool_decide (Accounts.username user = n)) (users ++ [user]) = Some user.
Proof.
  intros Hnew Hn. induction users as [|u users IH]; simpl.
  - by rewrite bool_decide_eq_true_2.
  - rewrite fmap_cons in Hnew. apply not_elem_of_cons in Hnew as [Hu Hnew].
    rewrite bool_decide_eq_false_2 by congruence. by apply IH.
Qed.

Hypothesis parse_stringify : ∀ users, JSON_parse (JSON_stringify users) = Some users.

(** X21: registration keeps usernames unique.  With requests handled one
    at a time and [JSON.parse] reading back what [JSON.stringify] wrote:
    on a file whose users have distinct names, [/register] answers, and
    the file it leaves holds the users it held, in their order and
    unchanged, with distinct names still.  A name that is taken is
    refused with the file untouched; a new name is appended with the
    identifier drawn and the hash of the password. *)
Theorem register_unique (salt uuid body_username body_password : string)
    (file : option Text) (users : list Accounts.User) :
  loadUsers file = Some users → NoDup (names users) →
  ∃ file' r users',
    register salt uuid body_username body_password file = Done (file', r) ∧
    loadUsers file' = Some users' ∧ NoDup (names users') ∧ users `prefix_of` users' ∧
    (body_username ∈ names users → r = Accounts.UsernameExists ∧ file' = file) ∧
    (body_username ∉ names users →
       r = Accounts.Registered ∧
       users' = users ++ [Accounts.mkUser uuid body_username
                            (bcrypt_hash salt body_password)]).
Proof.
  intros Hload Hnd. unfold Accounts.register. rewrite Hload.
  destruct (existsb _ users) eqn:Hex.
  - apply existsb_username in Hex.
    exists file, Accounts.UsernameExists, users. split_and!; done.
  - assert (body_username ∉ names users) as Hnew.
    { intros Hin. apply existsb_username in Hin. congruence. }
    eexists _, _, _. split; [reflexivity|]. simpl. split_and!.
    + apply parse_stringify.
    + rewrite fmap_app. apply NoDup_app. split_and!; [done| |apply NoDup_singleton].
      intros n Hn Hn'. apply list_elem_of_singleton in Hn'. simpl in Hn'. by subst n.
    + by apply prefix_app_r.
    + done.
    + done.
Qed.

Hypothesis compare_hash : ∀ salt password,
  bcrypt_compare password (bcrypt_hash salt password) = true.

(** X22: logging in.  With requests handled one at a time, [JSON.parse]
    reading back what [JSON.stringify] wrote and [bcrypt.compare]
    accepting a password against its own hash: after a registration that
    succeeded, [/login] with the same name and password answers with the
    token signed for the identifier the registration drew.  And whenever
    [/login] answers with a token, the file holds a user of that name
    whose stored hash the password matches, and the token is signed for
    that user's identifier; the file is never written. *)
Theorem login_round_trip (now : Z) (salt uuid body_username body_password : string)
    (file file' : option Text) :
  (register salt uuid body_username body_password file = Done (file', Accounts.Registered) →
   login now body_username body_password file' =
     Done (Accounts.Token (jwt_sign now uuid body_username))) ∧
  (∀ token users,
     loadUsers file = Some users →
     login now body_username body_password file = Done (Accounts.Token token) →
     ∃ user, user ∈ users ∧ Accounts.username user = body_username ∧
             bcrypt_compare body_password (Accounts.password user) = true ∧
             token = jwt_sign now (Accounts.id user) body_username).
Proof.
  split.
  - unfold Accounts.register.
    destruct (loadUsers file) as [users|] eqn:Hload; [|done].
    destruct (existsb _ users) eqn:Hex; [done|]. intros [= <-].
    assert (body_username ∉ names users) as Hnew.
    { intros Hin. apply existsb_username in Hin. congruence. }
    unfold Accounts.login, Accounts.saveUsers. simpl. rewrite parse_stringify.
    rewrite (find_new body_username users
               (Accounts.mkUser uuid body_username (bcrypt_hash salt body_password))
               Hnew eq_refl). simpl.
    by rewrite compare_hash.
  - intros token users Hload. unfold Accounts.login. rewrite Hload.
    pose proof (find_username body_username users) as Hfind.
    destruct (List.find _ users) as [user|]; [|done].
    destruct Hfind as [Hin Hname].
    destruct (bcrypt_compare body_password (Accounts.password user)) eqn:Hok; [|done].
    intros [= <-]. exists user. by rewrite Hname.
Qed.

Lemma split_space_token token :
  Accounts.spaceFree token = true → Accounts.split_space token = [token].
Proof.
  induction token as [|c token IH]; [done|]. simpl. intros H.
  apply andb_true_iff in H as [Hc Hfree]. apply negb_true_iff in Hc.
  by rewrite Hc, (IH Hfree).
Qed.

Lemma split_space_head token rest :
  Accounts.spaceFree token = true →
  Accounts.split_space (token +:+ String Ascii.Space rest) =
  token :: Accounts.split_space rest.
Proof.
  induction token as [|c token IH]; [done|]. simpl. intros H.
  apply andb_true_iff in H as [Hc Hfree]. apply negb_true_iff in Hc.
  by rewrite Hc, (IH Hfree).
Qed.

(** X23: the header of [/profile].  Without a header, or with one that
    does not start with [Bearer] and a space, the answer is that no token
    was provided.  After [Bearer] and a space, the token is what comes up
    to the next space, the rest of the header being ignored; the answer is
    the welcome with what [jwt.verify] decoded from it, or that the token
    is invalid when [jwt.verify] raises. *)
Theorem profile_bearer (now : Z) (token rest header : string) :
  Accounts.spaceFree token = true → String.prefix "Bearer " header = false →
  Accounts.profile jwt_verify now None = Accounts.NoTokenProvided ∧
  Accounts.profile jwt_verify now (Some header) = Accounts.NoTokenProvided ∧
  Accounts.profile jwt_verify now (Some ("Bearer " +:+ token)) =
    match jwt_verify now token with
    | Some decoded => Accounts.Welcome decoded
    | None => Accounts.InvalidToken
    end ∧
  Accounts.profile jwt_verify now
    (Some ("Bearer " +:+ token +:+ String Ascii.Space rest)) =
    Accounts.profile jwt_verify now (Some ("Bearer " +:+ token)).
Proof.
  intros Hfree Hother.
  assert (Hone : Accounts.split_space ("Bearer " +:+ token) = ["Bearer"; token]).
  { change ("Bearer " +:+ token) with ("Bearer" +:+ String Ascii.Space token).
    by rewrite split_space_head, split_space_token. }
  assert (Htwo : Accounts.split_space ("Bearer " +:+ token +:+ String Ascii.Space rest) =
                 "Bearer" :: token :: Accounts.split_space rest).
  { change ("Bearer " +:+ token +:+ String Ascii.Space rest)
      with ("Bearer" +:+ String Ascii.Space (token +:+ String Ascii.Space rest)).
    by rewrite !split_space_head. }
  assert (Hpre : String.prefix "Bearer " ("Bearer " +:+ token) = true)
    by (by destruct token).
  assert (Hpre' : String.prefix "Bearer "
                    ("Bearer " +:+ token +:+ String Ascii.Space rest) = true)
    by (by destruct token).
  split_and!.
  - done.
  - unfold Accounts.profile. by rewrite Hother.
  - unfold Accounts.profile. by rewrite Hpre, Hone.
  - unfold Accounts.profile. by rewrite Hpre, Hpre', Hone, Htwo.
Qed.

End AccountFacts.

Lemma register_unique_witness :
  let file := Some [Accounts.mkUser "u1" "ann" "secret"] in
  (∃ file' r users',
     Accounts.register (Decoded := string) id Some (λ _ p, p) "salt" "u2" "ann" "other" file =
       Done (file', r) ∧
     Accounts.loadUsers Some file' = Some users' ∧ NoDup (Accounts.username <$> users') ∧
     r = Accounts.UsernameExists ∧ file' = file) ∧
  (∃ file' r users',
     Accounts.register (Decoded := string) id Some (λ _ p, p) "salt" "u2" "bob" "other" file =
       Done (file', r) ∧
     Accounts.loadUsers Some file' = Some users' ∧ NoDup (Accounts.username <$> users') ∧
     r = Accounts.Registered ∧
     users' = [Accounts.mkUser "u1" "ann" "secret"; Accounts.mkUser "u2" "bob" "other"]).
Proof.
  intros file.
  assert (NoDup (Accounts.username <$> [Accounts.mkUser "u1" "ann" "secret"])) as Hdistinct
    by apply NoDup_singleton.
  split.
  - destruct (register_unique (Decoded := string) id Some (λ _ p, p) (λ _, eq_refl)
                "salt" "u2" "ann" "other" file [Accounts.mkUser "u1" "ann" "secret"]
                eq_refl Hdistinct)
      as (file' & r & users' & Hrun & Hload & Hnd & _ & Htaken & _).
    exists file', r, users'. split_and!; [exact Hrun|exact Hload|exact Hnd|..];
      apply Htaken, list_elem_of_here.
  - destruct (register_unique (Decoded := string) id Some (λ _ p, p) (λ _, eq_refl)
                "salt" "u2" "bob" "other" file [Accounts.mkUser "u1" "ann" "secret"]
                eq_refl Hdistinct)
      as (file' & r & users' & Hrun & Hload & Hnd & _ & _ & Hnew).
    assert ("bob" ∉ Accounts.username <$> [Accounts.mkUser "u1" "ann" "secret"]) as Hbob.
    { intros Hin. apply list_elem_of_singleton in Hin. discriminate Hin. }
    exists file', r, users'. split_and!; [exact Hrun|exact Hload|exact Hnd|..];
      by apply Hnew.
Defined.

Lemma login_round_trip_witness :
  Accounts.login (Decoded := string) Some (λ p h, bool_decide (p = h))
    (λ _ i n, i +:+ n) 0 "ann" "secret" (Some [Accounts.mkUser "u1" "ann" "secret"]) =
  Done (Accounts.Token "u1ann").
Proof.
  apply (login_round_trip (Decoded := string) id Some (λ _ p, p)
           (λ p h, bool_decide (p = h)) (λ _ i n, i +:+ n) (λ _, eq_refl)
           (λ _ p, bool_decide_eq_true_2 _ eq_refl) 0 "salt" "u1" "ann" "secret" None).
  reflexivity.
Defined.

Lemma profile_bearer_witness :
  Accounts.profile (λ _ t, Some t) 0 (Some "Bearer abc def") = Accounts.Welcome "abc" ∧
  Accounts.profile (λ _ t, Some t) 0 (Some "Basic abc") = Accounts.NoTokenProvided.
Proof.
  destruct (profile_bearer (λ _ t, Some t) 0 "abc" "def" "Basic abc")
    as (_ & Hother & Hone & Htwo); [reflexivity..|].
  split; [|exact Hother]. rewrite <- Hone. exact Htwo.
Defined.
